(** * The incremental scrape-and-merge engine of [mtg_tag_scraper.py]

    A shallow embedding of [MTGDatabaseBuilder] (fetch loop, merge step,
    checkpoint store, run loop, [main]) and the properties of its
    specification. *)

From stdpp Require Import gmap strings list fin_maps pretty.

Set Warnings "-register-all,-clear-no-such-hyp".
Local Open Scope Z_scope.
Local Open Scope string_scope.
Local Open Scope list_scope.

(** ** JSON values

    What [response.json()] and [json.load] return: [None], [bool], [int],
    [float], [str], [list], [dict].  A [float] is kept as its binary64 bit
    pattern; the engine only stores floats and tests their truth value. *)

Inductive json : Type :=
  | JNull
  | JBool (b : bool)
  | JInt (n : Z)
  | JFloat (bits : Z)
  | JStr (s : string)
  | JArr (l : list json)
  | JObj (m : gmap string json).

(** Python truth value: [if x:] / [while x:]. *)
Definition truthy (v : json) : bool :=
  match v with
  | JNull => false
  | JBool b => b
  | JInt n => negb (n =? 0)%Z
  | JFloat bits => negb ((bits =? 0) || (bits =? 2 ^ 63))%Z
  | JStr s => negb (String.eqb s "")
  | JArr l => match l with [] => false | _ => true end
  | JObj m => match map_to_list m with [] => false | _ => true end
  end.

(** [v == s] for a [str] [s]: only an equal [str] compares equal. *)
Definition is_str (s : string) (v : json) : bool :=
  match v with
  | JStr s' => String.eqb s s'
  | _ => false
  end.

(** [needle in hay] on two [str]: substring test. *)
Fixpoint str_contains (needle hay : string) : bool :=
  String.prefix needle hay
  || match hay with
     | EmptyString => false
     | String _ hay' => str_contains needle hay'
     end.

(** [d.get(k)]: the value, or [None]. *)
Definition dict_get (m : gmap string json) (k : string) : json :=
  default JNull (m !! k).

(** ** Exceptions and outcomes *)

Inductive exn : Type :=
  | KeyError
  | TypeError
  | AttributeError
  | RecursionError
  | HTTPError (status : Z)      (* raised by [response.raise_for_status()] *)
  | RequestException            (* [requests.get] could not get a response *)
  | JSONDecodeError             (* [response.json()] on a body that is not JSON *)
  | OSError                     (* the checkpoint file could not be written *)
  | KeyboardInterrupt.

(** [except Exception] catches everything but [KeyboardInterrupt], which
    derives from [BaseException] only. *)
Definition is_Exception (e : exn) : bool :=
  match e with
  | KeyboardInterrupt => false
  | _ => true
  end.

Inductive outcome (A : Type) : Type :=
  | Ret (a : A)
  | Raise (e : exn).
Arguments Ret {A} a.
Arguments Raise {A} e.

(** An outcome that [except Exception] does not let through as raised. *)
Definition is_Exception_outcome {A} (o : outcome A) : bool :=
  match o with
  | Ret _ => true
  | Raise e => is_Exception e
  end.

(** A method over a mutable state [S]: it returns or raises, and leaves a
    state behind either way.  [None] stands for a run the model does not
    cover: a [while] loop that has not ended within the fuel, or an entity
    identifier that is not a [str] (see [card_key]). *)
Definition M (S A : Type) : Type := S → option (outcome A * S).

Definition ret {S A} (a : A) : M S A := λ s, Some (Ret a, s).
Definition raise {S A} (e : exn) : M S A := λ s, Some (Raise e, s).
Definition unmodelled {S A} : M S A := λ _, None.
Definition bind {S A B} (c : M S A) (k : A → M S B) : M S B := λ s,
  match c s with
  | None => None
  | Some (Raise e, s') => Some (Raise e, s')
  | Some (Ret a, s') => k a s'
  end.
Definition get {S} : M S S := λ s, Some (Ret s, s).
Definition put {S} (s : S) : M S unit := λ _, Some (Ret tt, s).
Definition of_outcome {S A} (o : outcome A) : M S A := λ s, Some (o, s).

Notation "'let!' x ':=' c 'in' k" := (bind c (λ x, k))
  (at level 10, x name, c at level 100, k at level 200).
Notation "'do!' c 'in' k" := (bind c (λ _, k))
  (at level 10, c at level 100, k at level 200).

(** [try: c  except Exception: return a] *)
Definition try_except {S A} (c : M S A) (a : A) : M S A := λ s,
  match c s with
  | Some (Raise e, s') =>
      if is_Exception e then Some (Ret a, s') else Some (Raise e, s')
  | r => r
  end.

(** ** Data model *)

(** An entity record: flattened field name to value; ["tags"] holds the
    label list. *)
Abbreviation record := (gmap string json).
(** [cards_db: Dict[str, Dict[str, Any]]] *)
Abbreviation cards := (gmap string (gmap string json)).

(** The checkpoint file.  [Snapshot] is a file [_load_checkpoint] reads
    (["last_updated"] is written but never read back); [Corrupt] is a file
    on which [json.load] or the conversion raises. *)
Inductive file : Type :=
  | Corrupt
  | Snapshot (processed : list string) (db : cards).

(** What the run does that can be seen from outside, oldest first.
    [EvMarked] records [self.processed_tags.add(tag)]. *)
Inductive event : Type :=
  | EvRequest (url : json)
  | EvMarked (tag : string)
  | EvSave (final : bool).

(** What [requests.get(url)] comes to: a response with its status code and
    its body ([None] when the body is not JSON), no response at all, or
    the user's interruption while the request is in flight (the run spends
    its time waiting there, in [time.sleep] and [requests.get]). *)
Inductive http_result : Type :=
  | Response (status : Z) (body : option json)
  | ConnectionFailed
  | Interrupted.

(** A write of the checkpoint file succeeds, fails before the file is
    opened (the old file stays) or fails after [open(..., "w")] truncated
    it. *)
Inductive save_result : Type :=
  | SaveOk
  | SaveFailsKeep
  | SaveFailsTruncated.

(** The builder.  [cards_db] and [processed_tags] are the attributes of
    the class; [trace] holds what has happened so far ([request_count] is
    the number of its requests); [disk] is the checkpoint file, [None]
    when it does not exist. *)
Record builder : Type := Builder {
  cards_db : cards;
  processed_tags : gset string;
  trace : list event;
  disk : option file;
}.

Definition set_cards_db (db : cards) (st : builder) : builder :=
  Builder db (processed_tags st) (trace st) (disk st).
Definition set_processed_tags (p : gset string) (st : builder) : builder :=
  Builder (cards_db st) p (trace st) (disk st).
Definition log (e : event) (st : builder) : builder :=
  Builder (cards_db st) (processed_tags st) (trace st ++ [e]) (disk st).
Definition set_disk (d : option file) (st : builder) : builder :=
  Builder (cards_db st) (processed_tags st) (trace st) d.

Definition is_request (e : event) : bool :=
  match e with EvRequest _ => true | _ => false end.
(** [self.request_count] *)
Definition request_count (st : builder) : nat :=
  length (List.filter is_request (trace st)).

(** Run a method of the card table on the builder's [cards_db]. *)
Definition on_cards {A} (c : M cards A) : M builder A := λ st,
  match c (cards_db st) with
  | None => None
  | Some (o, db) => Some (o, set_cards_db db st)
  end.

(** ** Constants of [MTGDatabaseBuilder] *)

Definition BASE_URL : string := "https://api.scryfall.com".
Definition CHECKPOINT_INTERVAL : nat := 500.

(** ** Python operations on JSON values *)

(** [for x in v] / [list.extend(v)]: a list yields its items, a [str] its
    characters, a [dict] its keys; anything else is not iterable.  (The
    keys come in the map's own order, not in insertion order; every use
    below fails on the first key whatever it is.) *)
Definition py_iter (v : json) : outcome (list json) :=
  match v with
  | JArr l => Ret l
  | JStr s => Ret ((λ c, JStr (String c "")) <$> String.list_ascii_of_string s)
  | JObj m => Ret ((λ kv, JStr kv.1) <$> map_to_list m)
  | _ => Raise TypeError
  end.

(** One turn of the [while url:] loop of [_search_tag] once the request
    has returned [data]:
<<
    if "data" not in data: break
    all_cards.extend(data["data"])
    url = data.get("next_page") if data.get("has_more") else None
>>
    [Ret None] is the [break]; [Ret (Some (items, url))] gives the items
    to append and the next [url]. *)
Definition page_step (data : json) : outcome (option (list json * json)) :=
  match data with
  | JObj m =>
      match m !! "data" with
      | None => Ret None
      | Some d =>
          match py_iter d with
          | Raise e => Raise e
          | Ret items =>
              Ret (Some (items,
                         if truthy (dict_get m "has_more")
                         then dict_get m "next_page" else JNull))
          end
      end
  | JArr l =>
      (* ["data" in data] is list membership; [data["data"]] then raises *)
      if existsb (is_str "data") l then Raise TypeError else Ret None
  | JStr s =>
      if str_contains "data" s then Raise TypeError else Ret None
  | _ => Raise TypeError
  end.

(** [card["id"]] used as a key of [cards_db].  A payload that is not a
    [dict] cannot be indexed by ["id"]; a [list] or [dict] identifier is
    not hashable.  [cards_db] is declared [Dict[str, ...]]: the model
    covers [str] identifiers only, and a payload with another hashable
    identifier (a number, a [bool], [None]) is not modelled. *)
Definition card_key (card : json) : M cards string :=
  match card with
  | JObj m =>
      match m !! "id" with
      | None => raise KeyError
      | Some (JStr i) => ret i
      | Some (JArr _) | Some (JObj _) => raise TypeError
      | Some _ => unmodelled
      end
  | _ => raise TypeError
  end.

(** ** The engine *)

Section Engine.

(** [json.dumps] of the standard library. *)
Variable json_dumps : json → string.
(** How many nested retries of [_make_request] the interpreter's
    recursion limit leaves room for. *)
Variable recursion_limit : nat.
(** The upstream service: the answer to a GET of [url], given all that
    happened before. *)
Variable upstream : list event → json → http_result.
(** The file system: what the next write of the checkpoint file does. *)
Variable storage : list event → save_result.

(** *** Card data helpers *)

(** The four fields [_flatten_card_data] takes from face [i]:
    [face.get(k, "")] needs a [dict]. *)
Definition face_fields (i : nat) (face : json) (flattened : record)
  : outcome record :=
  match face with
  | JObj f =>
      let key part := "face_" +:+ pretty i +:+ part in
      let field k := default (JStr "") (f !! k) in
      Ret (<[key "_oracle_text" := field "oracle_text"]>
          (<[key "_type_line" := field "type_line"]>
          (<[key "_mana_cost" := field "mana_cost"]>
          (<[key "_name" := field "name"]> flattened))))
  | _ => Raise AttributeError
  end.

(** [for i, face in enumerate(card["card_faces"])] *)
Fixpoint faces_loop (i : nat) (faces : list json) (flattened : record)
  : outcome record :=
  match faces with
  | [] => Ret flattened
  | face :: rest =>
      match face_fields i face flattened with
      | Raise e => Raise e
      | Ret flattened' => faces_loop (S i) rest flattened'
      end
  end.

(** [json.dumps(value)] for a [list] or [dict], the value itself
    otherwise. *)
Definition flat_value (value : json) : json :=
  match value with
  | JArr _ | JObj _ => JStr (json_dumps value)
  | _ => value
  end.

(** [_flatten_card_data(card)] *)
Definition flatten_card_data (card : gmap string json) : outcome record :=
  let faces :=
    match card !! "card_faces" with
    | None => Ret ∅
    | Some v =>
        match py_iter v with
        | Raise e => Raise e
        | Ret l => faces_loop 0 l ∅
        end
    end in
  match faces with
  | Raise e => Raise e
  | Ret flattened =>
      Ret (map_fold (λ key value flattened,
                       if String.eqb key "card_faces" then flattened
                       else <[key := flat_value value]> flattened)
                    flattened card)
  end.

(** [tag not in tags] followed by [tags.append(tag)], for whatever value
    the record holds under ["tags"]: a [list] is searched and extended, a
    [str] or a [dict] can be searched but has no [append], anything else
    cannot be searched.  [Ret None] means that nothing is to be changed. *)
Definition append_tag (tag : string) (tags : json) : outcome (option json) :=
  match tags with
  | JArr l =>
      if existsb (is_str tag) l then Ret None
      else Ret (Some (JArr (l ++ [JStr tag])))
  | JStr s => if str_contains tag s then Ret None else Raise AttributeError
  | JObj m =>
      match m !! tag with
      | Some _ => Ret None
      | None => Raise AttributeError
      end
  | _ => Raise TypeError
  end.

(** [_add_or_update_card(card, tag)] *)
Definition add_or_update_card (card : json) (tag : string) : M cards unit :=
  let! card_id := card_key card in
  let! db := get in
  match db !! card_id with
  | None =>
      match card with
      | JObj m =>
          let! flattened := of_outcome (flatten_card_data m) in
          put (<[card_id := <["tags" := JArr [JStr tag]]> flattened]> db)
      | _ => raise TypeError
      end
  | Some rec =>
      (* [setdefault("tags", [])] stores the empty list when the key is
         missing; the list then always takes the tag *)
      let tags := default (JArr []) (rec !! "tags") in
      let! tags' := of_outcome (append_tag tag tags) in
      match tags' with
      | None => ret tt
      | Some new_tags => put (<[card_id := <["tags" := new_tags]> rec]> db)
      end
  end.

(** The merge loop of [_process_tag]:
<<
    for card in cards:
        if card["id"] not in self.cards_db:
            new_cards += 1
        self._add_or_update_card(card, tag)
>>
    ([new_cards] is only printed.) *)
Fixpoint merge_cards (payloads : list json) (tag : string) : M cards unit :=
  match payloads with
  | [] => ret tt
  | card :: rest =>
      do! card_key card in
      do! add_or_update_card card tag in
      merge_cards rest tag
  end.

(** *** Checkpoint persistence *)

(** [_load_checkpoint()]: a missing file or one that cannot be read leaves
    the fresh state. *)
Definition load_checkpoint (st : builder) : builder :=
  match disk st with
  | Some (Snapshot processed db) =>
      set_cards_db db (set_processed_tags (list_to_set processed) st)
  | _ => st
  end.

(** [_save_checkpoint()]: the whole state is written over the file;
    [final] only tells the event of the final save from a periodic one. *)
Definition save_checkpoint (final : bool) : M builder unit := λ st,
  let st' := log (EvSave final) st in
  match storage (trace st) with
  | SaveOk =>
      Some (Ret tt,
            set_disk (Some (Snapshot (elements (processed_tags st))
                                     (cards_db st))) st')
  | SaveFailsKeep => Some (Raise OSError, st')
  | SaveFailsTruncated => Some (Raise OSError, set_disk (Some Corrupt) st')
  end.

(** [__init__]: a fresh builder over the checkpoint file found on disk.
    (The tag list is passed to [build_database] below.) *)
Definition init (on_disk : option file) : builder :=
  load_checkpoint (Builder ∅ ∅ [] on_disk).

(** *** Scryfall API interaction *)

(** [_make_request(url)]: wait, count, GET; on 429 wait and call itself
    again; [raise_for_status()] raises on 4xx and 5xx.  [retries] is the
    number of nested calls still allowed. *)
Fixpoint make_request (retries : nat) (url : json) : M builder json := λ st,
  let st' := log (EvRequest url) st in
  match upstream (trace st) url with
  | Interrupted => Some (Raise KeyboardInterrupt, st')
  | ConnectionFailed => Some (Raise RequestException, st')
  | Response status body =>
      if (status =? 429)%Z then
        match retries with
        | O => Some (Raise RecursionError, st')
        | S retries' => make_request retries' url st'
        end
      else if ((400 <=? status) && (status <? 600))%Z then
        Some (Raise (HTTPError status), st')
      else
        match body with
        | None => Some (Raise JSONDecodeError, st')
        | Some data => Some (Ret data, st')
        end
  end.

(** The [while url:] loop of [_search_tag]; [fuel] bounds the number of
    turns. *)
Fixpoint search_loop (fuel : nat) (url : json) (all_cards : list json)
  : M builder (list json) := λ st,
  if truthy url then
    match fuel with
    | O => None
    | S fuel' =>
        match make_request recursion_limit url st with
        | None => None
        | Some (Raise (HTTPError status), st') =>
            if (status =? 404)%Z then Some (Ret all_cards, st')
            else Some (Raise (HTTPError status), st')
        | Some (Raise e, st') => Some (Raise e, st')
        | Some (Ret data, st') =>
            match page_step data with
            | Raise e => Some (Raise e, st')
            | Ret None => Some (Ret all_cards, st')
            | Ret (Some (items, next)) =>
                search_loop fuel' next (all_cards ++ items) st'
            end
        end
    end
  else Some (Ret all_cards, st).

Definition search_url (tag : string) : string :=
  BASE_URL +:+ "/cards/search?q=otag:" +:+ tag.

(** [_search_tag(tag)] *)
Definition search_tag (fuel : nat) (tag : string) : M builder (list json) :=
  search_loop fuel (JStr (search_url tag)) [].

(** *** Main pipeline *)

(** [self.processed_tags.add(tag)] *)
Definition mark_processed (tag : string) : M builder unit := λ st,
  Some (Ret tt,
        log (EvMarked tag) (set_processed_tags ({[tag]} ∪ processed_tags st) st)).

(** [len(self.processed_tags) % self.CHECKPOINT_INTERVAL == 0] *)
Definition save_due (st : builder) : bool :=
  (size (processed_tags st) mod CHECKPOINT_INTERVAL =? 0)%nat.

(** The body of the [try] of [_process_tag]. *)
Definition process_tag_body (fuel : nat) (tag : string) : M builder nat :=
  let! found := search_tag fuel tag in
  do! on_cards (merge_cards found tag) in
  do! mark_processed tag in
  let! st := get in
  do! (if save_due st then save_checkpoint false else ret tt) in
  ret (length found).

(** [_process_tag(tag, tag_index, total_tags)]; the two indices are only
    printed. *)
Definition process_tag (fuel : nat) (tag : string) : M builder nat := λ st,
  if decide (tag ∈ processed_tags st) then Some (Ret 0%nat, st)
  else try_except (process_tag_body fuel tag) 0%nat st.

(** The [for i, tag in enumerate(self.all_tags)] loop of
    [build_database]. *)
Fixpoint run_tags (fuel : nat) (tags : list string) : M builder unit :=
  match tags with
  | [] => ret tt
  | tag :: rest => λ st,
      if decide (tag ∈ processed_tags st) then run_tags fuel rest st
      else (do! process_tag fuel tag in run_tags fuel rest) st
  end.

(** [build_database()]: the loop, then the final save.  The CSV export
    that follows belongs to another component and is left out. *)
Definition build_database (fuel : nat) (all_tags : list string)
  : M builder unit :=
  do! run_tags fuel all_tags in
  save_checkpoint true.

(** *** [main] *)

Record exit : Type := Exit {
  status : Z;
  printed : list string;   (* what the handlers of [main] print *)
  final : builder;
}.

Definition resume_notice : list string :=
  [ "Interrupted by user!";
    "Progress has been saved to the checkpoint file.";
    "Run the script again to resume from where you left off." ].

(** [main()].  [tags_file] is [None] when the file does not exist, and
    otherwise the label sequence [__init__] builds from it. *)
Definition main (fuel : nat) (tags_file : option (list string))
    (on_disk : option file) : option exit :=
  match tags_file with
  | None => Some (Exit 1 ["Error: tags file not found!"] (Builder ∅ ∅ [] on_disk))
  | Some all_tags =>
      match build_database fuel all_tags (init on_disk) with
      | None => None
      | Some (Ret _, st) => Some (Exit 0 [] st)
      | Some (Raise KeyboardInterrupt, st) => Some (Exit 0 resume_notice st)
      | Some (Raise _, st) => Some (Exit 1 ["Fatal error"] st)
      end
  end.

End Engine.


(** * Vocabulary of the specification *)

(** The identifier a payload carries, when it carries one. *)
Definition payload_id (card : json) : option string :=
  match card with
  | JObj m =>
      match m !! "id" with
      | Some (JStr i) => Some i
      | _ => None
      end
  | _ => None
  end.

(** The identifiers appearing in the payloads of a sequence of merge
    operations. *)
Definition payload_ids (ops : list (json * string)) : gset string :=
  list_to_set (omap (λ op, payload_id op.1) ops).

Section Vocabulary.

Variable json_dumps : json → string.

(** A sequence of merge operations, each a call of its own: an operation
    that raises leaves the table as it is and the next one runs. *)
Fixpoint merge_seq (ops : list (json * string)) (db : cards) : option cards :=
  match ops with
  | [] => Some db
  | (card, tag) :: rest =>
      match add_or_update_card json_dumps card tag db with
      | None => None
      | Some (_, db') => merge_seq rest db'
      end
  end.

Variable upstream : list event → json → http_result.

(** A successful response: status 2xx. *)
Definition successful (status : Z) : bool :=
  ((200 <=? status) && (status <? 300))%Z.

(** How a run of pages ends: with a page that says [has_more = false], or
    with a 404 in place of the next page. *)
Inductive ending : Type :=
  | LastPage
  | NotFound.

(** [served h url pages e]: after the events [h], the request of [url]
    and of the continuations that follow are answered by successful pages
    whose [data] arrays are [pages]; every page but the last says
    [has_more = true] and names the next URL. *)
Inductive served : list event → string → list (list json) → ending → Prop :=
  | served_last h url status m d :
      upstream h (JStr url) = Response status (Some (JObj m)) →
      successful status = true →
      m !! "data" = Some (JArr d) →
      m !! "has_more" = Some (JBool false) →
      served h url [d] LastPage
  | served_not_found h url body :
      upstream h (JStr url) = Response 404 body →
      served h url [] NotFound
  | served_more h url status m d next rest e :
      upstream h (JStr url) = Response status (Some (JObj m)) →
      successful status = true →
      m !! "data" = Some (JArr d) →
      m !! "has_more" = Some (JBool true) →
      m !! "next_page" = Some (JStr next) →
      next ≠ "" →
      served (h ++ [EvRequest (JStr url)]) next rest e →
      served h url (d :: rest) e.

(** The requests a run of pages costs: one per page, and one more for the
    404. *)
Definition requests_of (pages : list (list json)) (e : ending) : nat :=
  match e with
  | LastPage => length pages
  | NotFound => S (length pages)
  end.

Variable recursion_limit : nat.

(** Processing the unprocessed label [tag] from [st] fails in its fetch or
    in its merge with the exception [e], one that [except Exception]
    catches, and leaves [st']. *)
Definition label_fails (fuel : nat) (tag : string) (st : builder)
    (e : exn) (st' : builder) : Prop :=
  (tag ∉ processed_tags st)
  ∧ is_Exception e = true
  ∧ (search_tag recursion_limit upstream fuel tag st = Some (Raise e, st')
     ∨ ∃ found st1,
         search_tag recursion_limit upstream fuel tag st = Some (Ret found, st1)
         ∧ on_cards (merge_cards json_dumps found tag) st1 = Some (Raise e, st')).

(** The same, failing in the fetch. *)
Definition fetch_fails (fuel : nat) (tag : string) (st : builder)
    (e : exn) (st' : builder) : Prop :=
  search_tag recursion_limit upstream fuel tag st = Some (Raise e, st').

End Vocabulary.

(** A record after the merges of one label: as it was, or with the label
    put at the end of its label list. *)
Definition kept (tag : string) (rec rec' : record) : Prop :=
  rec' = rec
  ∨ ∃ l, default (JArr []) (rec !! "tags") = JArr l
         ∧ existsb (is_str tag) l = false
         ∧ rec' = <["tags" := JArr (l ++ [JStr tag])]> rec.

(** The builder after more events. *)
Definition extend (st : builder) (evs : list event) : builder :=
  Builder (cards_db st) (processed_tags st) (trace st ++ evs) (disk st).

(** *** The cadence of periodic saves, read off the trace *)

Definition is_mark (e : event) : bool :=
  match e with EvMarked _ => true | _ => false end.
Definition is_periodic_save (e : event) : bool :=
  match e with EvSave false => true | _ => false end.

(** The number of labels newly processed within a stretch of the trace. *)
Definition marks (tr : list event) : nat := length (List.filter is_mark tr).

(** The labels newly processed since the last periodic save; [None] until
    the first periodic save. *)
Fixpoint since_save (c : option nat) (tr : list event) : option nat :=
  match tr with
  | [] => c
  | EvSave false :: tr' => since_save (Some 0%nat) tr'
  | EvMarked _ :: tr' => since_save (S <$> c) tr'
  | _ :: tr' => since_save c tr'
  end.

(** For each periodic save but the first, the number of labels newly
    processed since the periodic save before it. *)
Fixpoint gaps_from (c : option nat) (tr : list event) : list nat :=
  match tr with
  | [] => []
  | EvSave false :: tr' =>
      match c with
      | Some n => n :: gaps_from (Some 0%nat) tr'
      | None => gaps_from (Some 0%nat) tr'
      end
  | EvMarked _ :: tr' => gaps_from (S <$> c) tr'
  | _ :: tr' => gaps_from c tr'
  end.

Definition gaps (tr : list event) : list nat := gaps_from None tr.

(** The labels newly processed before the first periodic save, counting
    from [c]; [None] when there is no periodic save. *)
Fixpoint first_gap_from (c : nat) (tr : list event) : option nat :=
  match tr with
  | [] => None
  | EvSave false :: _ => Some c
  | EvMarked _ :: tr' => first_gap_from (S c) tr'
  | _ :: tr' => first_gap_from c tr'
  end.

(** The first periodic save of a run that started with [n0] processed
    labels comes when the processed set reaches a multiple of the
    interval; until then the set has grown by the labels marked. *)
Definition aligned (n0 : nat) (st : builder) : Prop :=
  match first_gap_from 0 (trace st) with
  | Some g => ((n0 + g) mod CHECKPOINT_INTERVAL = 0)%nat
  | None => size (processed_tags st) = (n0 + marks (trace st))%nat
  end.

(** The invariant of the run: every gap is the interval, and the count
    since the last periodic save is the size of the processed set modulo
    the interval. *)
Definition paced (st : builder) : Prop :=
  Forall (λ g, g = CHECKPOINT_INTERVAL) (gaps (trace st))
  ∧ ∀ c, since_save None (trace st) = Some c →
         c = (size (processed_tags st) mod CHECKPOINT_INTERVAL)%nat.

(** The trace read as the code writes it, with [n] labels in the
    processed set and [due] telling whether the last event was the mark
    that brought the set to a multiple of the interval: such a mark has
    a periodic save right after it, and a periodic save comes nowhere
    else. *)
Fixpoint cadence_from (n : nat) (due : bool) (tr : list event) : bool :=
  match tr with
  | [] => negb due
  | e :: tr' =>
      if due then
        match e with
        | EvSave false => cadence_from n false tr'
        | _ => false
        end
      else
        match e with
        | EvMarked _ =>
            cadence_from (S n) (S n mod CHECKPOINT_INTERVAL =? 0)%nat tr'
        | EvSave false => false
        | _ => cadence_from n false tr'
        end
  end.

(** The invariant of the run that started with [n0] processed labels:
    the trace is in cadence, and the processed set has grown by the
    labels marked. *)
Definition on_cadence (n0 : nat) (st : builder) : Prop :=
  cadence_from n0 false (trace st) = true
  ∧ size (processed_tags st) = (n0 + marks (trace st))%nat.

(** The builder once the entities of [tag] are merged into [db'] and the
    label is marked. *)
Definition after_mark (tag : string) (db' : cards) (st : builder) : builder :=
  log (EvMarked tag)
      (set_processed_tags ({[tag]} ∪ processed_tags st) (set_cards_db db' st)).

(** *** Vocabulary of resume equivalence *)

(** Every record holds a label list under ["tags"], as every record the
    engine inserts does. *)
Definition tags_wf (db : cards) : Prop :=
  ∀ i rec, db !! i = Some rec → ∃ l, rec !! "tags" = Some (JArr l).

(** The record of [i] carries the label [tag]. *)
Definition has_tag (i tag : string) (db : cards) : Prop :=
  ∃ rec l, db !! i = Some rec ∧ rec !! "tags" = Some (JArr l)
           ∧ existsb (is_str tag) l = true.

(** No record loses a label. *)
Definition grows (db db' : cards) : Prop :=
  ∀ i tag, has_tag i tag db → has_tag i tag db'.

(** Merging [found] under [tag] again changes nothing in [db] and stops
    with [e] at the payload that has no usable identifier. *)
Fixpoint quiet (found : list json) (tag : string) (e : exn) (db : cards)
  : Prop :=
  match found with
  | [] => False
  | card :: rest =>
      match card_key card ∅ with
      | Some (Ret i, _) => has_tag i tag db ∧ quiet rest tag e db
      | Some (Raise e', _) => e' = e
      | None => False
      end
  end.

(** What the accumulator content of a run is: the entity table and the
    processed set. *)
Definition view (st : builder) : cards * gset string :=
  (cards_db st, processed_tags st).

Definition final_view {A} (r : option (outcome A * builder))
  : option (cards * gset string) :=
  (λ p, view p.2) <$> r.

(** How a call ends: [None] when it returns, the exception when it
    raises. *)
Definition signal {A} (o : outcome A) : option exn :=
  match o with
  | Ret _ => None
  | Raise e => Some e
  end.

Definition signal_view {A} (r : option (outcome A * builder))
  : option (option exn * (cards * gset string)) :=
  (λ p, (signal p.1, view p.2)) <$> r.

Section ResumeVocabulary.

Variable json_dumps : json → string.
Variable recursion_limit : nat.
Variable upstream : list event → json → http_result.

(** The answer to a request depends on the URL only. *)
Definition deterministic : Prop :=
  ∀ h h' url, upstream h url = upstream h' url.

(** Flattening the payload does not raise: its ["card_faces"], when it has
    any, is a list of objects. *)
Definition flattens (card : json) : Prop :=
  match card with
  | JObj m => ∃ flattened, flatten_card_data json_dumps m = Ret flattened
  | _ => True
  end.

(** Every entity of every page the engine receives flattens. *)
Definition payloads_flatten : Prop :=
  ∀ retries url st data st' items next,
    make_request upstream retries url st = Some (Ret data, st') →
    page_step data = Ret (Some (items, next)) →
    Forall flattens items.

(** What the fetch of a label yields, whatever the state. *)
Definition fetched (fuel : nat) (tag : string) : option (outcome (list json)) :=
  fst <$> search_tag recursion_limit upstream fuel tag (Builder ∅ ∅ [] None).

(** [_process_tag] on the accumulator content alone. *)
Definition step (fuel : nat) (tag : string) (v : cards * gset string)
  : option (option exn * (cards * gset string)) :=
  if decide (tag ∈ v.2) then Some (None, v)
  else
    match fetched fuel tag with
    | None => None
    | Some (Raise e) => Some (if is_Exception e then None else Some e, v)
    | Some (Ret found) =>
        match merge_cards json_dumps found tag v.1 with
        | None => None
        | Some (Raise _, db') => Some (None, (db', v.2))
        | Some (Ret _, db') => Some (None, (db', {[tag]} ∪ v.2))
        end
    end.

(** The run loop on the accumulator content alone. *)
Fixpoint steps (fuel : nat) (tags : list string) (v : cards * gset string)
  : option (option exn * (cards * gset string)) :=
  match tags with
  | [] => Some (None, v)
  | tag :: rest =>
      match step fuel tag v with
      | None => None
      | Some (Some e, v') => Some (Some e, v')
      | Some (None, v') => steps fuel rest v'
      end
  end.

(** Nothing is left to do for [tag]: it is processed, or its fetch fails,
    or its merge stops at a payload without touching the accumulator. *)
Definition settled (fuel : nat) (tag : string) (v : cards * gset string)
  : Prop :=
  tag ∈ v.2
  ∨ (∃ e, fetched fuel tag = Some (Raise e) ∧ is_Exception e = true)
  ∨ (∃ found e, fetched fuel tag = Some (Ret found) ∧ quiet found tag e v.1).

End ResumeVocabulary.

(** * Concrete runs *)

(** An object from its items. *)
Definition obj (items : list (string * json)) : json :=
  JObj (list_to_map items).

(** The fields of a page: its entities, and the continuation when there
    is one. *)
Definition page_fields (data : list json) (next : option string)
  : gmap string json :=
  list_to_map (("data", JArr data)
               :: match next with
                  | Some url => [("has_more", JBool true); ("next_page", JStr url)]
                  | None => [("has_more", JBool false)]
                  end).

(** A successful page. *)
Definition page (data : list json) (next : option string) : http_result :=
  Response 200 (Some (JObj (page_fields data next))).

(** The builder a run ends with. *)
Definition final_of {A} (r : option (outcome A * builder)) : builder :=
  match r with
  | Some (_, st) => st
  | None => Builder ∅ ∅ [] None
  end.

(** An upstream that answers by the URL alone. *)
Definition serve (server : string → http_result)
  : list event → json → http_result :=
  λ _ url,
    match url with
    | JStr u => server u
    | _ => ConnectionFailed
    end.

(** The payloads of the runs below have no nested value besides
    ["card_faces"], so [json.dumps] is never called on them. *)
Definition dumps_unused : json → string := λ _, "".

Definition storage_ok : list event → save_result := λ _, SaveOk.

(** The labels of an entity in a builder. *)
Definition labels_of (i : string) (st : builder) : option json :=
  cards_db st !! i ≫= λ rec : record, rec !! "tags".

(** ** A label whose merge fails until a later label has inserted the
    entity *)

(** Label ["a"] returns entity [X] with a face that is not an object;
    label ["b"] returns the same entity without faces; label ["c"] is
    unknown upstream. *)
Definition faces_server (url : string) : http_result :=
  if String.eqb url (search_url "a") then
    page [obj [("id", JStr "X"); ("card_faces", JArr [JInt 1])]] None
  else if String.eqb url (search_url "b") then
    page [obj [("id", JStr "X"); ("name", JStr "x")]] None
  else Response 404 None.

Definition faces_tags : list string := ["a"; "b"; "c"].

Definition faces_one_pass : option (outcome unit * builder) :=
  build_database dumps_unused 10 (serve faces_server) storage_ok 5
    faces_tags (init None).

Definition faces_prefix : option (outcome unit * builder) :=
  run_tags dumps_unused 10 (serve faces_server) storage_ok 5
    (take 2 faces_tags) (init None).

Definition faces_resumed : option (outcome unit * builder) :=
  match faces_prefix with
  | Some (Ret _, st1) =>
      match save_checkpoint storage_ok true st1 with
      | Some (Ret _, st2) =>
          build_database dumps_unused 10 (serve faces_server) storage_ok 5
            faces_tags (init (disk st2))
      | _ => None
      end
  | _ => None
  end.

(** ** A label whose merge fails part-way *)

(** Label ["b"] returns entity [X] and then a payload without ["id"]. *)
Definition partial_server (url : string) : http_result :=
  if String.eqb url (search_url "b") then
    page [obj [("id", JStr "X"); ("name", JStr "x")];
          obj [("name", JStr "y")]] None
  else Response 404 None.

(** A builder resumed from a checkpoint where ["a"] is processed and [X]
    carries it. *)
Definition partial_start : builder :=
  init (Some (Snapshot ["a"]
                {[ "X" := {[ "id" := JStr "X"; "name" := JStr "x";
                             "tags" := JArr [JStr "a"] ]} ]})).

(** ** An interruption *)

(** Label ["a"] returns entity [X]; the user interrupts the request for
    label ["b"]. *)
Definition interrupted_upstream : list event → json → http_result :=
  λ _ url,
    match url with
    | JStr u =>
        if String.eqb u (search_url "a") then
          page [obj [("id", JStr "X"); ("name", JStr "x")]] None
        else Interrupted
    | _ => ConnectionFailed
    end.

(** ** A periodic save that fails *)

(** A checkpoint with 499 processed labels and no entity. *)
Definition many_labels : list string :=
  (λ n : nat, "t" +:+ pretty n) <$> seq 0 499.

(** The first write of the checkpoint file fails, the later ones
    succeed. *)
Definition first_save_fails : list event → save_result :=
  λ h, if existsb (λ e, match e with EvSave _ => true | _ => false end) h
       then SaveOk else SaveFailsKeep.

Definition nothing_found : list event → json → http_result :=
  λ _ _, Response 404 None.

(** ** Pages *)

(** Label ["p"] has two pages of one entity each; the third request
    would be answered 404. *)
Definition paged_server (url : string) : http_result :=
  if String.eqb url (search_url "p") then
    page [obj [("id", JStr "X")]] (Some "https://api.scryfall.com/page2")
  else if String.eqb url "https://api.scryfall.com/page2" then
    page [obj [("id", JStr "Y")]] None
  else Response 404 None.


(** ** A label that fails upstream *)

(** Label ["a"] returns [X], label ["b"] always fails with status 500,
    label ["c"] returns [X] and [Y]. *)
Definition flaky_server (url : string) : http_result :=
  if String.eqb url (search_url "a") then
    page [obj [("id", JStr "X"); ("name", JStr "x")]] None
  else if String.eqb url (search_url "c") then
    page [obj [("id", JStr "X"); ("name", JStr "x")];
          obj [("id", JStr "Y"); ("name", JStr "y")]] None
  else Response 500 None.

Definition flaky_tags : list string := ["a"; "b"; "c"].

Definition flaky_prefix : option (outcome unit * builder) :=
  run_tags dumps_unused 10 (serve flaky_server) storage_ok 5
    (take 2 flaky_tags) (init None).

Definition flaky_saved : option (outcome unit * builder) :=
  save_checkpoint storage_ok true (final_of flaky_prefix).

(** The builder after label ["b"] of [partial_server] is processed from
    [partial_start]. *)
Definition partial_after : builder :=
  final_of (process_tag dumps_unused 10 (serve partial_server) storage_ok 5
              "b" partial_start).

(** The run that is interrupted, and the run with the failing save. *)
Definition interrupted_main : option exit :=
  main dumps_unused 10 interrupted_upstream storage_ok 5
    (Some ["a"; "b"]) None.

Definition failing_save_main : option exit :=
  main dumps_unused 10 nothing_found first_save_fails 5
    (Some ["x"; "y"]) (Some (Snapshot many_labels ∅)).

(** ** Inputs of the instances *)

Definition card_X : json := obj [("id", JStr "X"); ("name", JStr "x")].
Definition card_Y : json := obj [("id", JStr "Y"); ("name", JStr "y")].

Definition three_merges : list (json * string) :=
  [(card_X, "a"); (card_X, "b"); (card_Y, "a")].

Definition three_merged : cards :=
  default ∅ (merge_seq dumps_unused three_merges ∅).

Definition broken_merged : cards :=
  {[ "X" := {[ "id" := JStr "X"; "tags" := JArr [JStr "q"] ]} ]}.

(** ** The scenario of the specification *)

(** Label ["flying_benefit"] returns entities 1 and 2, label ["removal"]
    returns entities 2 and 3. *)
Definition scenario_server (url : string) : http_result :=
  if String.eqb url (search_url "flying_benefit") then
    page [obj [("id", JStr "1"); ("name", JStr "X")];
          obj [("id", JStr "2"); ("name", JStr "Y")]] None
  else if String.eqb url (search_url "removal") then
    page [obj [("id", JStr "2"); ("name", JStr "Y")];
          obj [("id", JStr "3"); ("name", JStr "Z")]] None
  else Response 404 None.

Definition scenario_run : option (outcome unit * builder) :=
  build_database dumps_unused 10 (serve scenario_server) storage_ok 5
    ["flying_benefit"; "removal"] (init None).

(** * More of the code: vocabulary *)

From stdpp Require Import sorting.

(** An upstream that answers 429 to the first [n] requests and [answer]
    from then on. *)
Definition limited_upstream (n : nat) (answer : http_result)
  : list event → json → http_result :=
  λ h _,
    if (length (List.filter is_request h) <? n)%nat
    then Response 429 None else answer.

(** *** Vocabulary of [_flatten_card_data] *)

Definition is_obj (v : json) : bool :=
  match v with JObj _ => true | _ => false end.

(** [isinstance(value, (list, dict))] *)
Definition is_nested (v : json) : bool :=
  match v with JArr _ | JObj _ => true | _ => false end.

(** ["card_faces"] is absent, or iterates to objects only. *)
Definition faces_ok (card : gmap string json) : bool :=
  match card !! "card_faces" with
  | None => true
  | Some v =>
      match py_iter v with
      | Ret faces => forallb is_obj faces
      | Raise _ => false
      end
  end.

(** [f"face_{i}{part}"] *)
Definition face_key (i : nat) (part : string) : string :=
  "face_" +:+ pretty i +:+ part.

(** The suffix of the key of each face field, with the field of the face
    it is read from. *)
Definition face_parts : list (string * string) :=
  [ ("_name", "name"); ("_mana_cost", "mana_cost");
    ("_type_line", "type_line"); ("_oracle_text", "oracle_text") ].

Definition is_digit (c : Ascii.ascii) : bool :=
  match Ascii.is_nat c with Some _ => true | None => false end.

Fixpoint all_digits (s : string) : bool :=
  match s with
  | EmptyString => true
  | String c s' => is_digit c && all_digits s'
  end.

(** *** Vocabulary of the merge step *)

(** A record later on: its fields other than ["tags"] are as they were,
    and a label list has only grown at its end. *)
Definition frozen (rec rec' : record) : Prop :=
  (∀ k, k ≠ "tags" → rec' !! k = rec !! k)
  ∧ ∀ l, rec !! "tags" = Some (JArr l) →
         ∃ l', rec' !! "tags" = Some (JArr (l ++ l')).

(** A record as the engine builds it from the merge operations [ops]: it
    sits under its own identifier, and its labels are strings, without
    repeats, each one the label of a merge of a payload with that
    identifier. *)
Definition built_from (ops : list (json * string)) (i : string) (rec : record)
  : Prop :=
  rec !! "id" = Some (JStr i)
  ∧ ∃ labels : list string,
      rec !! "tags" = Some (JArr (JStr <$> labels))
      ∧ NoDup labels
      ∧ labels ≠ []
      ∧ ∀ tag, tag ∈ labels →
               ∃ card, (card, tag) ∈ ops ∧ payload_id card = Some i.

(** *** The tag list of [__init__] *)

(** The order [sorted] puts the items of the tags file in: by category.
    (Two items of a [dict] never have the same key, so the comparison of
    the pairs never gets to the lists; Python compares [str] by code
    point, which on UTF-8 bytes is the order of the bytes.) *)
Definition item_le (a b : string * list string) : Prop :=
  String.le a.1 b.1.

#[global] Instance item_le_dec : RelDecision item_le.
Proof. intros a b. unfold item_le. apply _. Defined.

(** [self.all_tags], built in [__init__]:
<<
    for _letter, tags in sorted(tags_by_letter.items()):
        self.all_tags.extend(tags)
>> *)
Definition load_tags (tags_by_letter : gmap string (list string))
  : list string :=
  concat (snd <$> merge_sort item_le (map_to_list tags_by_letter)).

(** *** [export_to_csv] *)

Definition PRIORITY_FIELDS : list string :=
  [ "id"; "name"; "tags"; "mana_cost"; "cmc";
    "type_line"; "oracle_text"; "colors"; "set"; "rarity" ].

(** [all_fields]: the keys of all records. *)
Definition all_fields (db : cards) : gset string :=
  map_fold (λ _ (card_data : record) acc, dom card_data ∪ acc) ∅ db.

(** [list.remove(x)] for an [x] that is in the list: the first occurrence
    goes. *)
Fixpoint remove_first (x : string) (l : list string) : list string :=
  match l with
  | [] => []
  | y :: l' => if decide (x = y) then l' else y :: remove_first x l'
  end.

(** One turn of the loop over [reversed(self.PRIORITY_FIELDS)]. *)
Definition move_to_front (names : list string) (field : string)
  : list string :=
  if decide (field ∈ names) then field :: remove_first field names
  else names.

(** [fieldnames]: the sorted field names with the priority fields moved
    to the front. *)
Definition fieldnames (db : cards) : list string :=
  foldl move_to_front (merge_sort String.le (elements (all_fields db)))
        (reverse PRIORITY_FIELDS).

(** [sep.join(parts)] *)
Fixpoint py_join (sep : string) (parts : list string) : string :=
  match parts with
  | [] => ""
  | [p] => p
  | p :: rest => p +:+ sep +:+ py_join sep rest
  end.

(** The items of a list when they are all [str]. *)
Fixpoint as_strs (l : list json) : option (list string) :=
  match l with
  | [] => Some []
  | JStr s :: l' => cons s <$> as_strs l'
  | _ => None
  end.

(** The row [export_to_csv] hands to the writer for one record:
<<
    row = dict(card_data)
    if isinstance(row.get("tags"), list):
        row["tags"] = ",".join(row["tags"])
>>
    [str.join] raises [TypeError] on an item that is not a [str]. *)
Definition export_row (card_data : record) : outcome record :=
  match card_data !! "tags" with
  | Some (JArr l) =>
      match as_strs l with
      | Some labels => Ret (<["tags" := JStr (py_join "," labels)]> card_data)
      | None => Raise TypeError
      end
  | _ => Ret card_data
  end.

(** *** The tags of a row, as [analyze_tag_frequency] reads them *)

(** [s.split(sep)] for a separator of one character. *)
Fixpoint split_on (sep : Ascii.ascii) (s : string) : list string :=
  match s with
  | EmptyString => [""]
  | String c s' =>
      if Ascii.eqb c sep then "" :: split_on sep s'
      else match split_on sep s' with
           | head :: tail => String c head :: tail
           | [] => [String c ""]
           end
  end.

(** The character [","]. *)
Definition comma : Ascii.ascii := Ascii.ascii_of_nat 44.

Definition has_char (c : Ascii.ascii) (s : string) : bool :=
  existsb (Ascii.eqb c) (String.list_ascii_of_string s).

Section TagParsing.

(** [str.strip()] of the standard library. *)
Variable strip : string → string.

(** The tags [analyze_tag_frequency] counts for a row:
<<
    tags_str = row.get("tags", "")
    if tags_str:
        tags = [t.strip() for t in tags_str.split(",") if t.strip()]
>> *)
Definition parse_tags (tags_str : string) : list string :=
  if String.eqb tags_str "" then []
  else filter (λ t, t ≠ "") (strip <$> split_on comma tags_str).

End TagParsing.

(** *** [run_pipeline.py] *)

Definition STEPS : list string :=
  [ "Scrape functional tags"; "Build card database";
    "Analyze tag frequency"; "Sample cards for ML" ].

(** The loop of [main] over [enumerate(STEPS, 1)], from step [i] on with
    [remaining] steps to go: the steps it runs, in order, and whether it
    went through ([None]) or exited ([Some 1]).  [returncode i] is the
    exit code of the process of step [i]. *)
Fixpoint pipeline_loop (start_from : nat) (returncode : nat → Z)
    (i remaining : nat) : list nat * option Z :=
  match remaining with
  | O => ([], None)
  | S remaining' =>
      if (i <? start_from)%nat then
        pipeline_loop start_from returncode (S i) remaining'
      else if (returncode i =? 0)%Z then
        let '(ran, code) := pipeline_loop start_from returncode (S i) remaining'
        in (i :: ran, code)
      else ([i], Some 1%Z)
  end.

(** [main] of [run_pipeline.py]. *)
Definition run_pipeline (start_from : nat) (returncode : nat → Z)
  : list nat * option Z :=
  pipeline_loop start_from returncode 1 (length STEPS).

(** ** A run that reaches a periodic save *)

(** A checkpoint with 499 processed labels and no entity. *)
Definition cadence_disk : option file := Some (Snapshot many_labels ∅).

(** Resumed from it, the run processes two labels that are unknown
    upstream: the first one makes 500. *)
Definition cadence_run : option (outcome unit * builder) :=
  build_database dumps_unused 10 nothing_found storage_ok 5
    ["x"; "y"] (init cadence_disk).

(** ** A 404 after a page whose merge fails *)



(** ** Inputs of the instances *)

(** An upstream that is rate-limited for ever. *)
Definition always_limited : list event → json → http_result :=
  λ _ _, Response 429 None.

(** A successful response without ["data"]. *)
Definition no_data_fields : gmap string json :=
  {[ "object" := JStr "list" ]}.

Definition no_data : list event → json → http_result :=
  λ _ _, Response 200 (Some (JObj no_data_fields)).

(** A page that says there is more, but not where. *)
Definition open_page_fields : gmap string json :=
  list_to_map [("data", JArr [card_X]); ("has_more", JBool true)].

Definition open_page : list event → json → http_result :=
  λ _ _, Response 200 (Some (JObj open_page_fields)).

Definition plain_card : gmap string json :=
  list_to_map [("id", JStr "X"); ("name", JStr "x")].

(** A payload of two faces; the second has no name. *)
Definition two_faces : list json :=
  [obj [("name", JStr "front")]; obj [("mana_cost", JStr "{1}")]].

Definition two_faced : gmap string json :=
  list_to_map [("id", JStr "X"); ("card_faces", JArr two_faces)].

Definition two_faced_flat : record :=
  match flatten_card_data dumps_unused two_faced with
  | Ret fl => fl
  | Raise _ => ∅
  end.

(** The merges of [three_merges] on an accumulator that has [X]. *)
Definition broken_then_three : cards :=
  default ∅ (merge_seq dumps_unused three_merges broken_merged).

Definition record_X : record :=
  {[ "id" := JStr "X"; "name" := JStr "x";
     "tags" := JArr [JStr "a"; JStr "b"] ]}.

Definition flaky_run : option (outcome unit * builder) :=
  run_tags dumps_unused 10 (serve flaky_server) storage_ok 5
    flaky_tags (init None).

(** The tags file of the scenario. *)
Definition scenario_tags_file : gmap string (list string) :=
  {[ "A" := ["flying_benefit"]; "B" := ["removal"] ]}.

(** Leading blanks, tabs and line ends removed. *)
Fixpoint lstrip (s : string) : string :=
  match s with
  | String c s' => if Ascii.is_space c then lstrip s' else s
  | EmptyString => EmptyString
  end.

(** [str.strip()] on a string whose white space is blanks, tabs and line
    ends. *)
Definition ascii_strip (s : string) : string :=
  String.rev (lstrip (String.rev (lstrip s))).

(** Step [n] fails with exit code 1, the other steps succeed. *)
Definition fails_at (n : nat) : nat → Z :=
  λ j, if (j =? n)%nat then 1%Z else 0%Z.

Definition all_succeed : nat → Z := λ _, 0%Z.
(** * Properties *)

Arguments flatten_card_data _ _ : simpl never.

Lemma is_str_refl (s : string) : is_str s (JStr s) = true.
Proof. simpl. apply String.eqb_refl. Qed.

Lemma existsb_is_str_snoc (tag : string) (l : list json) :
  existsb (is_str tag) (l ++ [JStr tag]) = true.
Proof.
  rewrite existsb_app. simpl. rewrite String.eqb_refl.
  by rewrite !orb_true_r.
Qed.

Lemma card_key_payload_id (card : json) (i : string) (db : cards) :
  payload_id card = Some i → card_key card db = Some (Ret i, db).
Proof.
  destruct card as [| | | | |l|m]; simpl; try done.
  destruct (m !! "id") as [[]|]; simpl; try done.
  by intros [= ->].
Qed.

Lemma card_key_inv (card : json) (db : cards) o db' :
  card_key card db = Some (o, db') →
  db' = db ∧ ∀ db2 : cards, card_key card db2 = Some (o, db2).
Proof.
  destruct card as [| | | | |l|m]; simpl; try (intros [= <- <-]; done).
  destruct (m !! "id") as [[]|]; simpl; try done;
    intros [= <- <-]; done.
Qed.

Lemma card_key_Ret (card : json) (db : cards) i db' :
  card_key card db = Some (Ret i, db') → payload_id card = Some i.
Proof.
  destruct card as [| | | | |l|m]; simpl; try done.
  destruct (m !! "id") as [[]|]; simpl; try done.
  by intros [= ->].
Qed.

Section MergeProperties.

Variable json_dumps : json → string.

Local Abbreviation add_or_update_card := (add_or_update_card json_dumps).
Local Abbreviation merge_cards := (merge_cards json_dumps).

(** C4.  Merging a (label, entity) pair a second time leaves the
    accumulator exactly as the first merge left it, and ends the way the
    first merge ended: the set of identifiers, every flattened field and
    every label list (order included) are those of one merge. *)
Theorem add_or_update_card_idempotent
    (db : cards) (tag : string) (card : json) (i : string) :
  payload_id card = Some i →
  ∃ o db1,
    add_or_update_card card tag db = Some (o, db1)
    ∧ add_or_update_card card tag db1 = Some (o, db1).
Proof.
  intros Hid. unfold add_or_update_card, bind.
  rewrite (card_key_payload_id _ _ _ Hid). unfold get.
  destruct card as [| | | | |l|m]; try done.
  destruct (db !! i) as [rec|] eqn:Hdb.
  - unfold of_outcome.
    destruct (append_tag tag (default (JArr []) (rec !! "tags")))
      as [[new|]|e] eqn:Happ.
    + (* the label is appended: the second merge finds it *)
      eexists _, _. split; [reflexivity|].
      rewrite (card_key_payload_id _ _ _ Hid).
      rewrite lookup_insert_eq, lookup_insert_eq. simpl.
      destruct (default (JArr []) (rec !! "tags")) as [| | | | |l|m'];
        simpl in Happ; try done.
      * by destruct (str_contains tag s).
      * destruct (existsb (is_str tag) l); [done|].
        injection Happ as <-. simpl.
        by rewrite existsb_is_str_snoc.
      * by destruct (m' !! tag).
    + eexists _, _. split; [reflexivity|].
      rewrite (card_key_payload_id _ _ _ Hid), Hdb. simpl. by rewrite Happ.
    + eexists _, _. split; [reflexivity|].
      rewrite (card_key_payload_id _ _ _ Hid), Hdb. simpl. by rewrite Happ.
  - unfold of_outcome.
    destruct (flatten_card_data json_dumps m) as [flattened|e] eqn:Hfl.
    + eexists _, _. split; [reflexivity|].
      rewrite (card_key_payload_id _ _ _ Hid).
      rewrite lookup_insert_eq, lookup_insert_eq. simpl.
      by rewrite String.eqb_refl.
    + eexists _, _. split; [reflexivity|].
      by rewrite (card_key_payload_id _ _ _ Hid), Hdb.
Qed.

(** What one merge can do to the table: nothing, insert the flattened
    payload under its identifier with the label as only label, or put the
    label at the end of the label list of the record it finds. *)
Lemma add_or_update_card_cases (card : json) (tag : string) (db : cards) o db' :
  add_or_update_card card tag db = Some (o, db') →
  db' = db
  ∨ (∃ i m flattened,
        card = JObj m ∧ payload_id card = Some i ∧ db !! i = None
        ∧ flatten_card_data json_dumps m = Ret flattened ∧ o = Ret tt
        ∧ db' = <[i := <["tags" := JArr [JStr tag]]> flattened]> db)
  ∨ (∃ i rec l,
        payload_id card = Some i ∧ db !! i = Some rec
        ∧ default (JArr []) (rec !! "tags") = JArr l
        ∧ existsb (is_str tag) l = false ∧ o = Ret tt
        ∧ db' = <[i := <["tags" := JArr (l ++ [JStr tag])]> rec]> db).
Proof.
  unfold add_or_update_card, bind.
  destruct (card_key card db) as [[[i|e] db0]|] eqn:Hkey; [| |done].
  2: { apply card_key_inv in Hkey as [-> _]. intros [= <- <-]. by left. }
  pose proof (card_key_Ret _ _ _ _ Hkey) as Hid.
  apply card_key_inv in Hkey as [-> _]. unfold get.
  destruct (db !! i) as [rec|] eqn:Hdb.
  - unfold of_outcome.
    destruct (default (JArr []) (rec !! "tags")) as [| | | | |l|m'] eqn:Htags;
      simpl; try (intros [= <- <-]; by left).
    + destruct (str_contains tag s); intros [= <- <-]; by left.
    + destruct (existsb (is_str tag) l) eqn:Hin; simpl;
        intros [= <- <-]; [by left|].
      right; right. by exists i, rec, l.
    + destruct (m' !! tag); intros [= <- <-]; by left.
  - destruct card as [| | | | |l|m]; try done.
    unfold of_outcome.
    destruct (flatten_card_data json_dumps m) as [flattened|e] eqn:Hfl;
      simpl; intros [= <- <-]; [|by left].
    right; left. by exists i, m, flattened.
Qed.

Lemma add_or_update_card_dom (card : json) (tag : string) (db : cards) o db' :
  add_or_update_card card tag db = Some (o, db') →
  dom db' = dom db
  ∨ ∃ i, payload_id card = Some i ∧ dom db' = {[i]} ∪ dom db.
Proof.
  intros [->|[(i & m & fl & _ & Hid & _ & _ & _ & ->)
             |(i & rec & l & Hid & Hdb & _ & _ & _ & ->)]]%add_or_update_card_cases.
  - by left.
  - right. exists i. by rewrite dom_insert_L.
  - left. rewrite dom_insert_L.
    apply (elem_of_dom_2 (D := gset string)) in Hdb. set_solver.
Qed.

Lemma merge_seq_dom (ops : list (json * string)) (db db' : cards) :
  merge_seq json_dumps ops db = Some db' →
  dom db' ⊆ dom db ∪ payload_ids ops.
Proof.
  revert db. induction ops as [|[card tag] ops IH]; intros db; simpl.
  { intros [= ->]. set_solver. }
  destruct (add_or_update_card card tag db)
    as [[o db1]|] eqn:Hstep; [|done].
  intros Hrest%IH. unfold payload_ids in *. simpl.
  apply add_or_update_card_dom in Hstep as [Hd|(i & Hid & Hd)].
  - rewrite Hd in Hrest. destruct (payload_id card); set_solver.
  - rewrite Hd in Hrest. rewrite Hid. set_solver.
Qed.

(** C5.  After any number of merge operations on an empty accumulator,
    the accumulator holds one record per identifier (no identifier occurs
    twice among its entries), every identifier it holds comes from a
    merged payload, and it holds no more identifiers than the payloads
    merged so far carry. *)
Theorem unique_key_invariant
    (ops : list (json * string)) (n : nat) (db : cards) :
  merge_seq json_dumps (take n ops) ∅ = Some db →
  NoDup (map_to_list db).*1
  ∧ dom db ⊆ payload_ids (take n ops)
  ∧ (size db ≤ size (payload_ids (take n ops)))%nat.
Proof.
  intros Hrun%merge_seq_dom. rewrite dom_empty_L, (left_id_L ∅ (∪)) in Hrun.
  split; [apply NoDup_fst_map_to_list|]. split; [done|].
  rewrite <-size_dom. by apply subseteq_size.
Qed.

(** The merge step raises nothing that [except Exception] lets through. *)
Lemma faces_loop_Exception i faces flattened e :
  faces_loop i faces flattened = Raise e → is_Exception e = true.
Proof.
  revert i flattened. induction faces as [|face faces IH]; intros i fl; simpl.
  { done. }
  destruct face; simpl; try (by intros [= <-]). apply IH.
Qed.

Lemma flatten_card_data_Exception (m : gmap string json) e :
  flatten_card_data json_dumps m = Raise e → is_Exception e = true.
Proof.
  unfold flatten_card_data.
  destruct (m !! "card_faces") as [v|]; [|done].
  destruct v; simpl; try (by intros [= <-]).
  - destruct (faces_loop _ _ _) eqn:Hf; [done|].
    intros [= <-]. by eapply faces_loop_Exception.
  - destruct (faces_loop _ _ _) eqn:Hf; [done|].
    intros [= <-]. by eapply faces_loop_Exception.
  - destruct (faces_loop _ _ _) eqn:Hf; [done|].
    intros [= <-]. by eapply faces_loop_Exception.
Qed.

Lemma card_key_Exception (card : json) (db db' : cards) e :
  card_key card db = Some (Raise e, db') → is_Exception e = true.
Proof.
  destruct card as [| | | | |l|m]; simpl; try (by intros [= <- <-]).
  destruct (m !! "id") as [[]|]; simpl; try done; by intros [= <- <-].
Qed.

Lemma add_or_update_card_Exception (card : json) (tag : string)
    (db db' : cards) e :
  add_or_update_card card tag db = Some (Raise e, db') →
  is_Exception e = true.
Proof.
  unfold add_or_update_card, bind.
  destruct (card_key card db) as [[[i|e'] db0]|] eqn:Hkey; [| |done].
  2: { intros [= <- <-]. by eapply card_key_Exception. }
  unfold get. destruct (db0 !! i) as [rec|].
  - unfold of_outcome.
    destruct (default (JArr []) (rec !! "tags")) as [| | | | |l|m'];
      simpl; try (by intros [= <- <-]).
    + destruct (str_contains tag s); by intros [= <- <-].
    + destruct (existsb (is_str tag) l); simpl; by intros [= <- <-].
    + destruct (m' !! tag); by intros [= <- <-].
  - destruct card as [| | | | |l|m]; try (by intros [= <- <-]).
    unfold of_outcome.
    destruct (flatten_card_data json_dumps m) eqn:Hfl; simpl; [done|].
    intros [= <- <-]. by eapply flatten_card_data_Exception.
Qed.

Lemma merge_cards_Exception (found : list json) (tag : string)
    (db db' : cards) e :
  merge_cards found tag db = Some (Raise e, db') → is_Exception e = true.
Proof.
  revert db. induction found as [|card found IH]; intros db; simpl; [done|].
  unfold bind.
  destruct (card_key card db) as [[[i|e'] db0]|] eqn:Hkey; [| |done].
  2: { intros [= <- <-]. by eapply card_key_Exception. }
  destruct (add_or_update_card card tag db0) as [[[[]|e'] db1]|] eqn:Hadd;
    [| |done].
  - apply IH.
  - intros [= <- <-]. by eapply add_or_update_card_Exception.
Qed.

Lemma kept_trans (tag : string) (rec rec1 rec2 : record) :
  kept tag rec rec1 → kept tag rec1 rec2 → kept tag rec rec2.
Proof.
  intros [->|(l & Htags & Hnew & ->)]; [done|].
  intros [->|(l' & Htags' & Hnew' & ->)]; [right; by exists l|].
  rewrite lookup_insert_eq in Htags'. simpl in Htags'.
  injection Htags' as <-. by rewrite existsb_is_str_snoc in Hnew'.
Qed.

Lemma add_or_update_card_kept (card : json) (tag : string) (db : cards) o db' :
  add_or_update_card card tag db = Some (o, db') →
  ∀ i rec, db !! i = Some rec → ∃ rec', db' !! i = Some rec' ∧ kept tag rec rec'.
Proof.
  intros [->|[(j & m & fl & _ & _ & Hfresh & _ & _ & ->)
             |(j & rec0 & l & _ & Hdb & Htags & Hnew & _ & ->)]]%add_or_update_card_cases
    i rec Hi.
  - exists rec. split; [done|by left].
  - exists rec. rewrite lookup_insert_ne by congruence. split; [done|by left].
  - destruct (decide (j = i)) as [->|Hne].
    + rewrite Hdb in Hi. injection Hi as ->. rewrite lookup_insert_eq.
      eexists. split; [done|]. right. by exists l.
    + exists rec. rewrite lookup_insert_ne by done. split; [done|by left].
Qed.

(** The merges of one label never drop a record, and change a record at
    most by putting the label at the end of its label list. *)
Lemma merge_cards_kept (found : list json) (tag : string) (db : cards) o db' :
  merge_cards found tag db = Some (o, db') →
  ∀ i rec, db !! i = Some rec → ∃ rec', db' !! i = Some rec' ∧ kept tag rec rec'.
Proof.
  revert db. induction found as [|card found IH]; intros db; simpl.
  { intros [= <- <-] i rec Hi. exists rec. split; [done|by left]. }
  unfold bind.
  destruct (card_key card db) as [[[j|e'] db0]|] eqn:Hkey; [| |done].
  2: { apply card_key_inv in Hkey as [-> _]. intros [= <- <-] i rec Hi.
       exists rec. split; [done|by left]. }
  apply card_key_inv in Hkey as [-> _].
  destruct (add_or_update_card card tag db) as [[[[]|e'] db1]|] eqn:Hadd;
    [| |done].
  - intros Hrest i rec Hi.
    destruct (add_or_update_card_kept _ _ _ _ _ Hadd i rec Hi)
      as (rec1 & Hi1 & Hk1).
    destruct (IH _ Hrest i rec1 Hi1) as (rec2 & Hi2 & Hk2).
    exists rec2. split; [done|]. by eapply kept_trans.
  - intros [= <- <-]. by eapply add_or_update_card_kept.
Qed.

End MergeProperties.

(** ** The fetch loop *)

Lemma extend_nil (st : builder) : extend st [] = st.
Proof. destruct st. unfold extend. simpl. by rewrite app_nil_r. Qed.

Lemma extend_extend (st : builder) (a b : list event) :
  extend (extend st a) b = extend st (a ++ b).
Proof. unfold extend. simpl. by rewrite app_assoc. Qed.

Lemma log_extend (e : event) (st : builder) : log e st = extend st [e].
Proof. done. Qed.

Lemma truthy_url (url : string) : url ≠ "" → truthy (JStr url) = true.
Proof. intros Hne. simpl. by destruct url. Qed.

Arguments truthy : simpl never.

Lemma truthy_search_url (tag : string) : search_url tag ≠ "".
Proof. done. Qed.

Section FetchProperties.

Variable recursion_limit : nat.
Variable upstream : list event → json → http_result.

Local Abbreviation make_request := (make_request upstream).
Local Abbreviation search_loop := (search_loop recursion_limit upstream).
Local Abbreviation search_tag := (search_tag recursion_limit upstream).
Local Abbreviation served := (served upstream).

Lemma make_request_successful (retries : nat) (url : json) (st : builder)
    status data :
  upstream (trace st) url = Response status (Some data) →
  successful status = true →
  make_request retries url st = Some (Ret data, extend st [EvRequest url]).
Proof.
  intros Hup [H1 H2]%andb_true_iff. destruct retries; simpl; rewrite Hup.
  all: replace (status =? 429)%Z with false by lia.
  all: by replace ((400 <=? status) && (status <? 600))%Z with false by lia.
Qed.

Lemma make_request_404 (retries : nat) (url : json) (st : builder) body :
  upstream (trace st) url = Response 404 body →
  make_request retries url st
  = Some (Raise (HTTPError 404), extend st [EvRequest url]).
Proof. intros Hup. destruct retries; simpl; by rewrite Hup. Qed.

(** Fetching only adds requests to the trace. *)
Lemma make_request_frame (retries : nat) (url : json) (st : builder) :
  ∃ o reqs,
    make_request retries url st = Some (o, extend st reqs)
    ∧ Forall (λ ev, is_request ev = true) reqs.
Proof.
  revert st. induction retries as [|retries IH]; intros st; simpl.
  all: destruct (upstream (trace st) url) as [status body| |];
    try (by eexists _, [_]; split; [done|repeat constructor]).
  all: destruct (status =? 429)%Z.
  1,3: try (by eexists _, [_]; split; [done|repeat constructor]).
  2,3: destruct ((400 <=? status) && (status <? 600))%Z;
    [|destruct body]; by eexists _, [_]; split; [done|repeat constructor].
  destruct (IH (log (EvRequest url) st)) as (o & reqs & -> & Hreqs).
  exists o, (EvRequest url :: reqs). rewrite log_extend, extend_extend.
  split; [done|by constructor].
Qed.

Lemma search_loop_frame (fuel : nat) (url : json) (acc : list json)
    (st : builder) o st' :
  search_loop fuel url acc st = Some (o, st') →
  ∃ reqs, st' = extend st reqs ∧ Forall (λ ev, is_request ev = true) reqs.
Proof.
  revert url acc st. induction fuel as [|fuel IH]; intros url acc st; simpl.
  { destruct (truthy url); [done|]. intros [= <- <-].
    exists []. by rewrite extend_nil. }
  destruct (truthy url).
  2: { intros [= <- <-]. exists []. by rewrite extend_nil. }
  destruct (make_request_frame recursion_limit url st)
    as (o1 & reqs & -> & Hreqs).
  destruct o1 as [data|e].
  - destruct (page_step data) as [[[items next]|]|e].
    + intros (reqs' & -> & Hreqs')%IH.
      exists (reqs ++ reqs'). rewrite extend_extend.
      split; [done|by apply Forall_app].
    + intros [= <- <-]. by exists reqs.
    + intros [= <- <-]. by exists reqs.
  - intros Hres. assert (st' = extend st reqs) as ->; [|by exists reqs].
    destruct e as [| | | |code| | | |]; try (by injection Hres as _ <-).
    destruct (code =? 404)%Z; by injection Hres as _ <-.
Qed.

(** A page that [_make_request] returns is a body the upstream sent. *)
Lemma make_request_Ret (retries : nat) (url : json) (st st' : builder) data :
  make_request retries url st = Some (Ret data, st') →
  ∃ h status, upstream h url = Response status (Some data).
Proof.
  revert st. induction retries as [|retries IH]; intros st; simpl.
  all: destruct (upstream (trace st) url) as [status body| |] eqn:Hup;
    try done.
  all: destruct (status =? 429)%Z; [first [done|apply IH]|].
  all: destruct ((400 <=? status) && (status <? 600))%Z; [done|].
  all: destruct body as [data'|]; [|done].
  all: intros [= <- <-]; by eexists _, _.
Qed.

(** The loop follows a run of pages to its end, collects the [data]
    arrays in order and makes exactly the requests the run costs. *)
Lemma search_loop_served h url pages e :
  served h url pages e →
  url ≠ "" →
  ∀ (fuel : nat) (acc : list json) (st : builder),
    trace st = h →
    (requests_of pages e ≤ fuel)%nat →
    ∃ reqs,
      search_loop fuel (JStr url) acc st
      = Some (Ret (acc ++ concat pages), extend st reqs)
      ∧ Forall (λ ev, is_request ev = true) reqs
      ∧ length reqs = requests_of pages e.
Proof.
  induction 1 as [h url status m d Hup Hok Hdata Hmore
                 |h url body Hup
                 |h url status m d next rest e Hup Hok Hdata Hmore Hnext Hne _ IH];
    intros Hurl fuel acc st Htr Hfuel; subst h.
  - destruct fuel as [|fuel]; [simpl in Hfuel; lia|].
    exists [EvRequest (JStr url)]. simpl. rewrite (truthy_url url Hurl).
    rewrite (make_request_successful _ _ _ _ _ Hup Hok). simpl.
    rewrite Hdata. simpl. unfold dict_get. rewrite Hmore. simpl.
    rewrite app_nil_r. destruct fuel; simpl; repeat constructor.
  - destruct fuel as [|fuel]; [simpl in Hfuel; lia|].
    exists [EvRequest (JStr url)]. simpl. rewrite (truthy_url url Hurl).
    rewrite (make_request_404 _ _ _ _ Hup). simpl.
    rewrite app_nil_r. repeat constructor.
  - destruct fuel as [|fuel]; [destruct e; simpl in Hfuel; lia|].
    destruct (IH Hne fuel (acc ++ d) (extend st [EvRequest (JStr url)]))
      as (reqs & Hloop & Hreqs & Hlen); [done|destruct e; simpl in *; lia|].
    exists (EvRequest (JStr url) :: reqs). simpl.
    rewrite (truthy_url url Hurl).
    rewrite (make_request_successful _ _ _ _ _ Hup Hok). simpl.
    rewrite Hdata. simpl. unfold dict_get. rewrite Hmore, Hnext. simpl.
    rewrite Hloop, extend_extend, <-app_assoc. simpl.
    split; [done|]. split; [by constructor|].
    destruct e; simpl in *; lia.
Qed.

Lemma make_request_http_error (retries : nat) (url : json) (st : builder)
    (status : Z) (body : option json) :
  upstream (trace st) url = Response status body →
  (400 ≤ status < 600)%Z → status ≠ 429%Z →
  make_request retries url st
  = Some (Raise (HTTPError status), extend st [EvRequest url]).
Proof.
  intros Hup Hrange H429. destruct retries; simpl; rewrite Hup.
  all: replace (status =? 429)%Z with false by lia.
  all: by replace ((400 <=? status) && (status <? 600))%Z with true by lia.
Qed.

(** An unsuccessful first response other than 404 and 429 ends the fetch
    with [HTTPError]. *)
Lemma search_tag_http_error (fuel : nat) (tag : string) (st : builder)
    (status : Z) (body : option json) :
  upstream (trace st) (JStr (search_url tag)) = Response status body →
  (400 ≤ status < 600)%Z → status ≠ 404%Z → status ≠ 429%Z →
  (1 ≤ fuel)%nat →
  search_tag fuel tag st
  = Some (Raise (HTTPError status),
          extend st [EvRequest (JStr (search_url tag))]).
Proof.
  intros Hup Hrange H404 H429 Hfuel.
  destruct fuel as [|fuel]; [lia|].
  change (search_tag (S fuel) tag st)
    with (search_loop (S fuel) (JStr (search_url tag)) [] st).
  simpl. rewrite (make_request_http_error _ _ _ _ _ Hup Hrange H429).
  by replace (status =? 404)%Z with false by lia.
Qed.

(** C6.  When the search of a label is answered by successful pages, each
    but the last with [has_more = true] and a continuation URL, the last
    with [has_more = false], [_search_tag] returns the [data] arrays of all
    pages joined in order, and the requests it makes are as many as the
    pages: none follows the page that says [has_more = false]. *)
Theorem search_tag_pagination
    (fuel : nat) (tag : string) (pages : list (list json)) (st : builder) :
  served (trace st) (search_url tag) pages LastPage →
  (length pages ≤ fuel)%nat →
  ∃ reqs,
    search_tag fuel tag st = Some (Ret (concat pages), extend st reqs)
    ∧ Forall (λ ev, is_request ev = true) reqs
    ∧ length reqs = length pages.
Proof.
  intros Hserved Hfuel.
  destruct (search_loop_served _ _ _ _ Hserved (truthy_search_url tag)
              fuel [] st eq_refl Hfuel) as (reqs & Hloop & Hreqs & Hlen).
  by exists reqs.
Qed.

End FetchProperties.

(** ** Processing one label *)

Arguments save_due _ : simpl never.

Section ProcessProperties.

Variable json_dumps : json → string.
Variable recursion_limit : nat.
Variable upstream : list event → json → http_result.
Variable storage : list event → save_result.

Local Abbreviation merge_cards := (merge_cards json_dumps).
Local Abbreviation search_tag := (search_tag recursion_limit upstream).
Local Abbreviation save_checkpoint := (save_checkpoint storage).
Local Abbreviation process_tag_body :=
  (process_tag_body json_dumps recursion_limit upstream storage).
Local Abbreviation process_tag :=
  (process_tag json_dumps recursion_limit upstream storage).
Local Abbreviation run_tags :=
  (run_tags json_dumps recursion_limit upstream storage).
Local Abbreviation served := (served upstream).

(** A save always ends; it touches neither the accumulator nor the
    processed set. *)
Lemma save_checkpoint_frame (final : bool) (st : builder) :
  ∃ o st',
    save_checkpoint final st = Some (o, st')
    ∧ is_Exception_outcome o = true
    ∧ cards_db st' = cards_db st
    ∧ processed_tags st' = processed_tags st
    ∧ trace st' = trace st ++ [EvSave final].
Proof.
  unfold save_checkpoint. destruct (storage (trace st)); by eexists _, _.
Qed.

Lemma save_then_init (final : bool) (st st' : builder) :
  save_checkpoint final st = Some (Ret tt, st') →
  cards_db (init (disk st')) = cards_db st
  ∧ processed_tags (init (disk st')) = processed_tags st.
Proof.
  unfold save_checkpoint.
  destruct (storage (trace st)); intros [= <-]; simpl.
  split; [done|]. unfold init, load_checkpoint. simpl.
  apply list_to_set_elements_L.
Qed.


(** When fetch and merge both return, the label is marked, and the call
    returns, whatever a periodic save does. *)
Lemma process_tag_merged (fuel : nat) (tag : string) (st st1 : builder)
    (found : list json) (db' : cards) :
  tag ∉ processed_tags st →
  search_tag fuel tag st = Some (Ret found, st1) →
  merge_cards found tag (cards_db st1) = Some (Ret tt, db') →
  ∃ n st',
    process_tag fuel tag st = Some (Ret n, st')
    ∧ (n = length found ∨ n = 0%nat)
    ∧ cards_db st' = db'
    ∧ processed_tags st' = {[tag]} ∪ processed_tags st1.
Proof.
  intros Hnew Hsearch Hmerge.
  unfold process_tag, try_except, process_tag_body, bind.
  rewrite decide_False by done. rewrite Hsearch.
  unfold on_cards. rewrite Hmerge. simpl.
  destruct (save_due _); [|by eexists _, _; eauto].
  unfold save_checkpoint. simpl.
  destruct (storage _); simpl; eexists _, _; eauto.
Qed.

(** All the ways a call of [_process_tag] can go. *)
Lemma process_tag_cases (fuel : nat) (tag : string) (st : builder) o st' :
  process_tag fuel tag st = Some (o, st') →
  (tag ∈ processed_tags st ∧ o = Ret 0%nat ∧ st' = st)
  ∨ ((tag ∉ processed_tags st)
     ∧ (∃ reqs,
         Forall (λ ev, is_request ev = true) reqs
         ∧ ((∃ e, search_tag fuel tag st = Some (Raise e, extend st reqs)
                  ∧ st' = extend st reqs
                  ∧ o = if is_Exception e then Ret 0%nat else Raise e)
            ∨ (∃ found e db',
                  search_tag fuel tag st = Some (Ret found, extend st reqs)
                  ∧ merge_cards found tag (cards_db st) = Some (Raise e, db')
                  ∧ st' = set_cards_db db' (extend st reqs)
                  ∧ o = Ret 0%nat)
            ∨ (∃ found db',
                  search_tag fuel tag st = Some (Ret found, extend st reqs)
                  ∧ merge_cards found tag (cards_db st) = Some (Ret tt, db')
                  ∧ ((save_due (after_mark tag db' (extend st reqs)) = false
                      ∧ st' = after_mark tag db' (extend st reqs)
                      ∧ o = Ret (length found))
                     ∨ (save_due (after_mark tag db' (extend st reqs)) = true
                        ∧ ∃ o2 n,
                            save_checkpoint false
                              (after_mark tag db' (extend st reqs))
                            = Some (o2, st')
                            ∧ o = Ret n)))))).
Proof.
  unfold process_tag. destruct (decide (tag ∈ processed_tags st)) as [Hin|Hnew].
  { intros [= <- <-]. by left. }
  intros Hrun. right. split; [done|].
  unfold try_except, process_tag_body, bind in Hrun.
  destruct (search_tag fuel tag st) as [[[found|e] st1]|] eqn:Hsearch; [| |done].
  2: { apply search_loop_frame in Hsearch as (reqs & -> & Hreqs).
       exists reqs. split; [done|]. left. exists e.
       destruct (is_Exception e); by injection Hrun as <- <-. }
  pose proof Hsearch as (reqs & -> & Hreqs)%search_loop_frame.
  exists reqs. split; [done|]. right.
  unfold on_cards in Hrun. simpl in Hrun.
  destruct (merge_cards found tag (cards_db st))
    as [[[[]|e] db']|] eqn:Hmerge; [| |done].
  2: { left. exists found, e, db'.
       rewrite (merge_cards_Exception _ _ _ _ _ _ Hmerge) in Hrun.
       by injection Hrun as <- <-. }
  right. exists found, db'. split; [done|]. split; [done|].
  simpl in Hrun.
  change (log _ _) with (after_mark tag db' (extend st reqs)) in Hrun.
  destruct (save_due _) eqn:Hdue.
  - right. split; [done|].
    destruct (save_checkpoint_frame false (after_mark tag db' (extend st reqs)))
      as (o2 & st2 & Hsave & Hexc & _).
    rewrite Hsave in Hrun. exists o2.
    destruct o2 as [[]|e2]; simpl in *.
    + injection Hrun as <- <-. by eexists.
    + rewrite Hexc in Hrun. injection Hrun as <- <-. by eexists.
  - left. by injection Hrun as <- <-.
Qed.

(** C7.  A label not yet processed whose first search request is answered
    404: [_process_tag] returns (it does not raise), no entity is merged,
    and the label joins the processed set. *)
Theorem not_found_is_empty
    (fuel : nat) (tag : string) (st : builder) (body : option json) :
  tag ∉ processed_tags st →
  upstream (trace st) (JStr (search_url tag)) = Response 404 body →
  (1 ≤ fuel)%nat →
  ∃ st',
    process_tag fuel tag st = Some (Ret 0%nat, st')
    ∧ cards_db st' = cards_db st
    ∧ processed_tags st' = {[tag]} ∪ processed_tags st.
Proof.
  intros Hnew Hup Hfuel.
  destruct (search_loop_served recursion_limit upstream _ _ _ _
              (served_not_found upstream _ _ _ Hup) (truthy_search_url tag)
              fuel [] st eq_refl Hfuel) as (reqs & Hloop & _ & _).
  destruct (process_tag_merged fuel tag st _ [] (cards_db st) Hnew Hloop eq_refl)
    as (n & st' & Hrun & Hn & Hdb & Hproc).
  exists st'. replace n with 0%nat in Hrun by (by destruct Hn). done.
Qed.


(** An unsuccessful response other than 404 and 429 to the search of an
    unprocessed label is a failure of the label. *)
Lemma http_error_label_fails (fuel : nat) (tag : string) (st : builder)
    (status : Z) (body : option json) :
  tag ∉ processed_tags st →
  upstream (trace st) (JStr (search_url tag)) = Response status body →
  (400 ≤ status < 600)%Z → status ≠ 404%Z → status ≠ 429%Z →
  (1 ≤ fuel)%nat →
  label_fails json_dumps upstream recursion_limit fuel tag st
    (HTTPError status) (extend st [EvRequest (JStr (search_url tag))])
  ∧ fetch_fails upstream recursion_limit fuel tag st
      (HTTPError status) (extend st [EvRequest (JStr (search_url tag))]).
Proof.
  intros Hnew Hup Hrange H404 H429 Hfuel.
  pose proof (search_tag_http_error recursion_limit upstream fuel tag st
                status body Hup Hrange H404 H429 Hfuel) as Hsearch.
  split; [|done]. split; [done|]. split; [done|]. by left.
Qed.

(** C8, as the code has it.  When the fetch or the merge of a label fails
    with an exception that [except Exception] catches, [_process_tag]
    returns 0, the processed set is as before (the label is not in it)
    and the run loop goes on with the next label.  When it is the fetch
    that failed, the accumulator is unchanged.  When the merge failed, the
    payloads merged before the failing one stay merged: every record that
    was in the accumulator is still there, unchanged or with the label put
    at the end of its label list. *)
Theorem label_failure_frame
    (fuel : nat) (tag : string) (st : builder) (e : exn) (st' : builder) :
  label_fails json_dumps upstream recursion_limit fuel tag st e st' →
  process_tag fuel tag st = Some (Ret 0%nat, st')
  ∧ processed_tags st' = processed_tags st
  ∧ (∀ rest, run_tags fuel (tag :: rest) st = run_tags fuel rest st')
  ∧ (fetch_fails upstream recursion_limit fuel tag st e st' →
     cards_db st' = cards_db st)
  ∧ (∀ i rec, cards_db st !! i = Some rec →
        ∃ rec', cards_db st' !! i = Some rec' ∧ kept tag rec rec').
Proof.
  intros (Hnew & Hexc & Hfail).
  assert (process_tag fuel tag st = Some (Ret 0%nat, st')) as Hrun.
  { unfold process_tag, try_except, process_tag_body, bind.
    rewrite decide_False by done.
    destruct Hfail as [->|(found & st1 & -> & ->)]; by rewrite Hexc. }
  split; [done|].
  assert (processed_tags st' = processed_tags st
          ∧ (fetch_fails upstream recursion_limit fuel tag st e st' →
             cards_db st' = cards_db st)
          ∧ (∀ i rec, cards_db st !! i = Some rec →
               ∃ rec', cards_db st' !! i = Some rec' ∧ kept tag rec rec'))
    as (Hproc & Hfetch & Hkept).
  { destruct Hfail as [Hsearch|(found & st1 & Hsearch & Hmerge)].
    - apply search_loop_frame in Hsearch as (reqs & -> & _).
      repeat split; try done.
      intros i rec Hi. exists rec. split; [done|by left].
    - unfold fetch_fails. rewrite Hsearch.
      apply search_loop_frame in Hsearch as (reqs & -> & _).
      unfold on_cards in Hmerge. simpl in Hmerge.
      destruct (merge_cards found tag (cards_db st)) as [[o db']|] eqn:Hm;
        [|done].
      injection Hmerge as -> <-. simpl.
      repeat split; try done. by eapply merge_cards_kept. }
  repeat split; try done.
  intros rest. simpl. rewrite decide_False by done.
  unfold bind. by rewrite Hrun.
Qed.

End ProcessProperties.

(** ** The cadence of periodic saves *)

Arguments Nat.modulo : simpl never.

Local Ltac mod_lia :=
  unfold CHECKPOINT_INTERVAL in *;
  repeat match goal with
         | |- context [(?n mod 500)%nat] =>
             lazymatch goal with
             | _ : n = (500 * _ + n mod 500)%nat |- _ => fail
             | _ => pose proof (Nat.div_mod_eq n 500);
                    pose proof (Nat.mod_upper_bound n 500 ltac:(done))
             end
         | _ : context [(?n mod 500)%nat] |- _ =>
             lazymatch goal with
             | _ : n = (500 * _ + n mod 500)%nat |- _ => fail
             | _ => pose proof (Nat.div_mod_eq n 500);
                    pose proof (Nat.mod_upper_bound n 500 ltac:(done))
             end
         end;
  lia.

Lemma since_save_app c t1 t2 :
  since_save c (t1 ++ t2) = since_save (since_save c t1) t2.
Proof.
  revert c. induction t1 as [|[| |[]] t1 IH]; intros c; simpl; auto.
Qed.

Lemma gaps_from_app c t1 t2 :
  gaps_from c (t1 ++ t2) = gaps_from c t1 ++ gaps_from (since_save c t1) t2.
Proof.
  revert c. induction t1 as [|[| |[]] t1 IH]; intros c; simpl; auto.
  destruct c; simpl; by rewrite IH.
Qed.

Lemma since_save_quiet c mid :
  Forall (λ e, is_periodic_save e = false) mid →
  since_save c mid = (λ n, n + marks mid)%nat <$> c.
Proof.
  intros Hq. revert c. unfold marks.
  induction Hq as [|[| |[]] mid Hx Hq IH]; intros c; simpl in *; try done.
  - destruct c; simpl; f_equal; lia.
  - rewrite IH. destruct c; simpl; f_equal; lia.
Qed.

Lemma gaps_from_quiet c mid :
  Forall (λ e, is_periodic_save e = false) mid → gaps_from c mid = [].
Proof.
  intros Hq. revert c.
  induction Hq as [|[| |[]] mid Hx Hq IH]; intros c; simpl in *; done.
Qed.

(** What [gaps] lists: the labels newly processed between two periodic
    saves with no periodic save in between. *)
Lemma gaps_between c t1 mid t2 :
  Forall (λ e, is_periodic_save e = false) mid →
  marks mid ∈ gaps_from c (t1 ++ EvSave false :: mid ++ EvSave false :: t2).
Proof.
  intros Hq. rewrite gaps_from_app. apply elem_of_app. right. simpl.
  assert (marks mid ∈ gaps_from (Some 0%nat) (mid ++ EvSave false :: t2)).
  { rewrite gaps_from_app, (gaps_from_quiet _ _ Hq), (since_save_quiet _ _ Hq).
    simpl. left. }
  destruct (since_save c t1); [by right|done].
Qed.

Lemma marks_app t1 t2 : marks (t1 ++ t2) = (marks t1 + marks t2)%nat.
Proof. unfold marks. by rewrite List.filter_app, length_app. Qed.

Lemma first_gap_from_app c t1 t2 :
  first_gap_from c (t1 ++ t2)
  = match first_gap_from c t1 with
    | Some g => Some g
    | None => first_gap_from (c + marks t1) t2
    end.
Proof.
  revert c. induction t1 as [|[| |[]] t1 IH]; intros c; simpl.
  - by rewrite Nat.add_0_r.
  - apply IH.
  - rewrite IH. unfold marks. simpl.
    destruct (first_gap_from (S c) t1); [done|]. f_equal. lia.
  - apply IH.
  - done.
Qed.

Lemma first_gap_from_quiet c mid :
  Forall (λ e, is_periodic_save e = false) mid → first_gap_from c mid = None.
Proof.
  intros Hq. revert c.
  induction Hq as [|[| |[]] mid Hx Hq IH]; intros c; simpl in *; done.
Qed.

Lemma requests_quiet reqs :
  Forall (λ ev, is_request ev = true) reqs →
  Forall (λ e, is_periodic_save e = false) reqs ∧ marks reqs = 0%nat.
Proof.
  unfold marks. induction 1 as [|[] reqs Hx _ [IH1 IH2]]; simpl in *; try done.
  split; [by constructor|done].
Qed.

Lemma cadence_from_app (n : nat) (due : bool) (t1 t2 : list event) :
  cadence_from n due t1 = true →
  cadence_from n due (t1 ++ t2) = cadence_from (n + marks t1) false t2.
Proof.
  revert n due. induction t1 as [|e t1 IH]; intros n due; simpl.
  { destruct due; [done|]. intros _. by rewrite Nat.add_0_r. }
  destruct due, e as [url|tag|[]]; try done; intros Hcad;
    rewrite (IH _ _ Hcad); unfold marks; simpl; f_equal; lia.
Qed.

Lemma cadence_from_requests (n : nat) (reqs : list event) :
  Forall (λ ev, is_request ev = true) reqs →
  cadence_from n false reqs = true.
Proof. induction 1 as [|[] reqs Hx _ IH]; simpl in *; done. Qed.

(** Where a trace in cadence is cut: the rest is in cadence from the
    labels marked so far, and a save is due there only right after a
    mark. *)
Lemma cadence_from_split (n : nat) (due : bool) (t1 t2 : list event) :
  cadence_from n due (t1 ++ t2) = true →
  ∃ due',
    cadence_from (n + marks t1) due' t2 = true
    ∧ (due' = true →
       (t1 = [] ∧ due = true) ∨ ∃ t0 tag, t1 = t0 ++ [EvMarked tag]).
Proof.
  revert n due. induction t1 as [|e t1 IH]; intros n due; simpl.
  { intros Hcad. exists due. rewrite Nat.add_0_r. split; [done|]. by left. }
  assert (∀ n1 due1,
            (n1 + marks t1 = n + marks (e :: t1))%nat →
            (due1 = true → ∃ tag, e = EvMarked tag) →
            cadence_from n1 due1 (t1 ++ t2) = true →
            ∃ due',
              cadence_from (n + marks (e :: t1)) due' t2 = true
              ∧ (due' = true →
                 (e :: t1 = [] ∧ due = true)
                 ∨ ∃ t0 tag, e :: t1 = t0 ++ [EvMarked tag])) as Hstep.
  { intros n1 due1 Hn Hdue1 Hcad.
    destruct (IH _ _ Hcad) as (due' & Hrest & Hlast).
    exists due'. rewrite <-Hn. split; [done|].
    intros Hdue'. right.
    destruct (Hlast Hdue') as [[-> ->]|(t0 & tag & ->)].
    - destruct (Hdue1 eq_refl) as [tag ->]. by exists [], tag.
    - by exists (e :: t0), tag. }
  destruct due, e as [url|tag|[]]; try done; intros Hcad;
    (eapply Hstep; [|..|exact Hcad]); unfold marks; simpl;
    first [lia|done|by eauto].
Qed.

Lemma cadence_from_mark (n : nat) (t1 t2 : list event) (tag : string) :
  cadence_from n false (t1 ++ EvMarked tag :: t2) = true →
  ((n + S (marks t1)) mod CHECKPOINT_INTERVAL = 0)%nat
  ↔ ∃ t2', t2 = EvSave false :: t2'.
Proof.
  intros (due' & Hrest & _)%cadence_from_split.
  destruct due'; [done|]. cbn [cadence_from] in Hrest.
  replace (n + S (marks t1))%nat with (S (n + marks t1)) by lia.
  destruct (Nat.eqb_spec (S (n + marks t1) mod CHECKPOINT_INTERVAL) 0)
    as [Hdue|Hnot].
  - split; [intros _|done].
    destruct t2 as [|[url|tag'|[]] t2]; try done. by eexists.
  - split; [done|]. intros [t2' ->]. done.
Qed.

Lemma cadence_from_save (n : nat) (t1 t2 : list event) :
  cadence_from n false (t1 ++ EvSave false :: t2) = true →
  ∃ t0 tag, t1 = t0 ++ [EvMarked tag].
Proof.
  intros (due' & Hrest & Hlast)%cadence_from_split.
  destruct due'; [|done].
  by destruct (Hlast eq_refl) as [[_ ?]|?].
Qed.

Section Cadence.

Variable json_dumps : json → string.
Variable recursion_limit : nat.
Variable upstream : list event → json → http_result.
Variable storage : list event → save_result.

Local Abbreviation save_checkpoint := (save_checkpoint storage).
Local Abbreviation process_tag :=
  (process_tag json_dumps recursion_limit upstream storage).
Local Abbreviation run_tags :=
  (run_tags json_dumps recursion_limit upstream storage).
Local Abbreviation build_database :=
  (build_database json_dumps recursion_limit upstream storage).

Lemma paced_extend (st : builder) (reqs : list event) :
  Forall (λ ev, is_request ev = true) reqs → paced st → paced (extend st reqs).
Proof.
  intros [Hq Hm]%requests_quiet [Hgaps Hsince]. unfold paced, gaps. simpl.
  rewrite gaps_from_app, since_save_app, (gaps_from_quiet _ _ Hq),
    (since_save_quiet _ _ Hq), app_nil_r, Hm.
  split; [done|]. intros c Hc. apply Hsince.
  destruct (since_save None (trace st)); simpl in *; [|done].
  injection Hc as <-. f_equal. lia.
Qed.

Lemma paced_set_cards_db (st : builder) (db : cards) :
  paced st → paced (set_cards_db db st).
Proof. done. Qed.

Lemma paced_final_save (st st' : builder) o :
  save_checkpoint true st = Some (o, st') → paced st → paced st'.
Proof.
  intros Hsave [Hgaps Hsince].
  destruct (save_checkpoint_frame storage true st)
    as (o' & st2 & Hsave' & _ & _ & Hproc & Htrace).
  rewrite Hsave in Hsave'. injection Hsave' as <- <-.
  unfold paced, gaps. rewrite Htrace, Hproc, gaps_from_app, since_save_app.
  simpl. by rewrite app_nil_r.
Qed.

(** Marking a new label and saving when the size of the processed set
    reaches a multiple of the interval keeps the pace. *)
Lemma paced_mark (tag : string) (db : cards) (st : builder) :
  tag ∉ processed_tags st →
  paced st →
  (save_due (after_mark tag db st) = false → paced (after_mark tag db st))
  ∧ (save_due (after_mark tag db st) = true →
     ∀ o st', save_checkpoint false (after_mark tag db st) = Some (o, st') →
              paced st').
Proof.
  intros Hnew [Hgaps Hsince].
  assert (size ({[tag]} ∪ processed_tags st) = S (size (processed_tags st)))
    as Hsize.
  { rewrite size_union by set_solver. by rewrite size_singleton. }
  unfold save_due, CHECKPOINT_INTERVAL in *. simpl. rewrite Hsize.
  split.
  - intros Hdue%Nat.eqb_neq. unfold paced, gaps in *. simpl.
    rewrite gaps_from_app, since_save_app. simpl. rewrite app_nil_r, Hsize.
    split; [done|]. intros c Hc.
    destruct (since_save None (trace st)) as [c0|]; simpl in *; [|done].
    injection Hc as <-. specialize (Hsince c0 eq_refl).
    mod_lia.
  - intros Hdue%Nat.eqb_eq o st' Hsave.
    destruct (save_checkpoint_frame storage false (after_mark tag db st))
      as (o' & st2 & Hsave' & _ & _ & Hproc & Htrace).
    rewrite Hsave in Hsave'. injection Hsave' as <- <-.
    unfold paced, gaps in *. rewrite Htrace, Hproc. simpl.
    rewrite <-app_assoc, gaps_from_app, since_save_app. simpl.
    rewrite Hsize. split.
    + apply Forall_app. split; [done|].
      destruct (since_save None (trace st)) as [c0|]; simpl; [|done].
      constructor; [|done]. specialize (Hsince c0 eq_refl).
      mod_lia.
    + destruct (since_save None (trace st)); simpl; intros c [= <-];
        mod_lia.
Qed.

Lemma aligned_extend (n0 : nat) (st : builder) (reqs : list event) :
  Forall (λ ev, is_request ev = true) reqs →
  aligned n0 st → aligned n0 (extend st reqs).
Proof.
  intros [Hq Hm]%requests_quiet. unfold aligned. simpl.
  rewrite first_gap_from_app, marks_app, (first_gap_from_quiet _ _ Hq), Hm.
  destruct (first_gap_from 0 (trace st)); [done|]. lia.
Qed.

Lemma aligned_final_save (n0 : nat) (st st' : builder) o :
  save_checkpoint true st = Some (o, st') → aligned n0 st → aligned n0 st'.
Proof.
  intros Hsave.
  destruct (save_checkpoint_frame storage true st)
    as (o' & st2 & Hsave' & _ & _ & Hproc & Htrace).
  rewrite Hsave in Hsave'. injection Hsave' as <- <-.
  unfold aligned. rewrite Htrace, Hproc, first_gap_from_app, marks_app.
  simpl. destruct (first_gap_from 0 (trace st)); [done|].
  unfold marks. simpl. lia.
Qed.

Lemma aligned_mark (n0 : nat) (tag : string) (db : cards) (st : builder) :
  tag ∉ processed_tags st →
  aligned n0 st →
  aligned n0 (after_mark tag db st)
  ∧ (save_due (after_mark tag db st) = true →
     ∀ o st', save_checkpoint false (after_mark tag db st) = Some (o, st') →
              aligned n0 st').
Proof.
  intros Hnew Hal.
  assert (size ({[tag]} ∪ processed_tags st) = S (size (processed_tags st)))
    as Hsize.
  { rewrite size_union by set_solver. by rewrite size_singleton. }
  assert (aligned n0 (after_mark tag db st)) as Hal'.
  { unfold aligned in *. simpl. rewrite first_gap_from_app, marks_app, Hsize.
    destruct (first_gap_from 0 (trace st)); [done|].
    simpl. unfold marks at 2. simpl. lia. }
  split; [done|].
  intros Hdue%Nat.eqb_eq o st' Hsave.
  destruct (save_checkpoint_frame storage false (after_mark tag db st))
    as (o' & st2 & Hsave' & _ & _ & Hproc & Htrace).
  rewrite Hsave in Hsave'. injection Hsave' as <- <-.
  unfold aligned in *. rewrite Htrace, Hproc, first_gap_from_app.
  destruct (first_gap_from 0 (trace (after_mark tag db st))); [done|].
  cbn [first_gap_from]. rewrite Nat.add_0_l, <-Hal'. exact Hdue.
Qed.

Lemma process_tag_aligned (n0 fuel : nat) (tag : string) (st : builder) o st' :
  process_tag fuel tag st = Some (o, st') → aligned n0 st → aligned n0 st'.
Proof.
  intros [(_ & _ & ->)|(Hnew & reqs & Hreqs & Hcases)]%process_tag_cases Hal;
    [done|].
  pose proof (aligned_extend n0 st reqs Hreqs Hal) as Hal'.
  destruct Hcases as [(e & _ & -> & _)
                     |[(found & e & db' & _ & _ & -> & _)
                      |(found & db' & _ & _ & Hmark)]]; [done|done|].
  destruct (aligned_mark n0 tag db' (extend st reqs) Hnew Hal') as [Hno Hyes].
  destruct Hmark as [(Hdue & -> & _)|(Hdue & o2 & k & Hsave & _)]; eauto.
Qed.

Lemma run_tags_aligned (n0 fuel : nat) (tags : list string) (st : builder)
    o st' :
  run_tags fuel tags st = Some (o, st') → aligned n0 st → aligned n0 st'.
Proof.
  revert st. induction tags as [|tag tags IH]; intros st; simpl.
  { by intros [= <- <-]. }
  destruct (decide (tag ∈ processed_tags st)) as [Hin|Hnew]; [apply IH|].
  unfold bind.
  destruct (process_tag fuel tag st) as [[[n|e] st1]|] eqn:Hstep; [| |done].
  - intros Hrest Hal. eapply IH; [done|]. by eapply process_tag_aligned.
  - intros [= <- <-] Hal. by eapply process_tag_aligned.
Qed.

Lemma aligned_init (on_disk : option file) :
  aligned (size (processed_tags (init on_disk))) (init on_disk).
Proof.
  unfold aligned, init, load_checkpoint, marks. simpl.
  destruct on_disk as [[|processed db]|]; simpl; lia.
Qed.

Lemma process_tag_paced (fuel : nat) (tag : string) (st : builder) o st' :
  process_tag fuel tag st = Some (o, st') → paced st → paced st'.
Proof.
  intros [(_ & _ & ->)|(Hnew & reqs & Hreqs & Hcases)]%process_tag_cases Hp;
    [done|].
  pose proof (paced_extend st reqs Hreqs Hp) as Hp'.
  destruct Hcases as [(e & _ & -> & _)
                     |[(found & e & db' & _ & _ & -> & _)
                      |(found & db' & _ & _ & Hmark)]]; [done|done|].
  destruct (paced_mark tag db' (extend st reqs) Hnew Hp') as [Hno Hyes].
  destruct Hmark as [(Hdue & -> & _)|(Hdue & o2 & k & Hsave & _)]; eauto.
Qed.

Lemma run_tags_paced (fuel : nat) (tags : list string) (st : builder) o st' :
  run_tags fuel tags st = Some (o, st') → paced st → paced st'.
Proof.
  revert st. induction tags as [|tag tags IH]; intros st; simpl.
  { by intros [= <- <-]. }
  destruct (decide (tag ∈ processed_tags st)) as [Hin|Hnew]; [apply IH|].
  unfold bind.
  destruct (process_tag fuel tag st) as [[[n|e] st1]|] eqn:Hstep; [| |done].
  - intros Hrest Hp. eapply IH; [done|]. by eapply process_tag_paced.
  - intros [= <- <-] Hp. by eapply process_tag_paced.
Qed.

Lemma paced_init (on_disk : option file) : paced (init on_disk).
Proof.
  unfold init, load_checkpoint. simpl.
  destruct on_disk as [[|processed db]|]; by split.
Qed.

Lemma on_cadence_extend (n0 : nat) (st : builder) (reqs : list event) :
  Forall (λ ev, is_request ev = true) reqs →
  on_cadence n0 st → on_cadence n0 (extend st reqs).
Proof.
  intros Hreqs [Hcad Hsize]. unfold on_cadence. simpl.
  rewrite (cadence_from_app _ _ _ _ Hcad), marks_app.
  destruct (requests_quiet _ Hreqs) as [_ ->].
  split; [by apply cadence_from_requests|lia].
Qed.

Lemma on_cadence_final_save (n0 : nat) (st st' : builder) o :
  save_checkpoint true st = Some (o, st') →
  on_cadence n0 st → on_cadence n0 st'.
Proof.
  intros Hsave [Hcad Hsize].
  destruct (save_checkpoint_frame storage true st)
    as (o' & st2 & Hsave' & _ & _ & Hproc & Htrace).
  rewrite Hsave in Hsave'. injection Hsave' as <- <-.
  unfold on_cadence.
  rewrite Htrace, Hproc, (cadence_from_app _ _ _ _ Hcad), marks_app.
  split; [done|]. unfold marks at 2. simpl. lia.
Qed.

(** The mark of a new label, and the periodic save when it is due, keep
    the run on cadence. *)
Lemma on_cadence_mark (n0 : nat) (tag : string) (db : cards) (st : builder) :
  tag ∉ processed_tags st →
  on_cadence n0 st →
  (save_due (after_mark tag db st) = false →
   on_cadence n0 (after_mark tag db st))
  ∧ (save_due (after_mark tag db st) = true →
     ∀ o st', save_checkpoint false (after_mark tag db st) = Some (o, st') →
              on_cadence n0 st').
Proof.
  intros Hnew [Hcad Hsize].
  assert (size ({[tag]} ∪ processed_tags st) = S (size (processed_tags st)))
    as Hgrown.
  { rewrite size_union by set_solver. by rewrite size_singleton. }
  unfold save_due. simpl. rewrite Hgrown, Hsize.
  split.
  - intros Hdue. unfold on_cadence. simpl.
    rewrite (cadence_from_app _ _ _ _ Hcad), marks_app, Hgrown, Hsize.
    simpl. rewrite Hdue.
    split; [done|]. unfold marks. simpl. lia.
  - intros Hdue o st' Hsave.
    destruct (save_checkpoint_frame storage false (after_mark tag db st))
      as (o' & st2 & Hsave' & _ & _ & Hproc & Htrace).
    rewrite Hsave in Hsave'. injection Hsave' as <- <-.
    unfold on_cadence. rewrite Htrace, Hproc. simpl.
    rewrite <-app_assoc, (cadence_from_app _ _ _ _ Hcad), !marks_app,
      Hgrown, Hsize.
    simpl. rewrite Hdue.
    split; [done|]. unfold marks. simpl. lia.
Qed.

Lemma process_tag_on_cadence (n0 fuel : nat) (tag : string) (st : builder)
    o st' :
  process_tag fuel tag st = Some (o, st') →
  on_cadence n0 st → on_cadence n0 st'.
Proof.
  intros [(_ & _ & ->)|(Hnew & reqs & Hreqs & Hcases)]%process_tag_cases Hon;
    [done|].
  pose proof (on_cadence_extend n0 st reqs Hreqs Hon) as Hon'.
  destruct Hcases as [(e & _ & -> & _)
                     |[(found & e & db' & _ & _ & -> & _)
                      |(found & db' & _ & _ & Hmark)]]; [done|done|].
  destruct (on_cadence_mark n0 tag db' (extend st reqs) Hnew Hon')
    as [Hno Hyes].
  destruct Hmark as [(Hdue & -> & _)|(Hdue & o2 & k & Hsave & _)]; eauto.
Qed.

Lemma run_tags_on_cadence (n0 fuel : nat) (tags : list string) (st : builder)
    o st' :
  run_tags fuel tags st = Some (o, st') →
  on_cadence n0 st → on_cadence n0 st'.
Proof.
  revert st. induction tags as [|tag tags IH]; intros st; simpl.
  { by intros [= <- <-]. }
  destruct (decide (tag ∈ processed_tags st)) as [Hin|Hnew]; [apply IH|].
  unfold bind.
  destruct (process_tag fuel tag st) as [[[n|e] st1]|] eqn:Hstep; [| |done].
  - intros Hrest Hon. eapply IH; [done|]. by eapply process_tag_on_cadence.
  - intros [= <- <-] Hon. by eapply process_tag_on_cadence.
Qed.

Lemma on_cadence_init (on_disk : option file) :
  on_cadence (size (processed_tags (init on_disk))) (init on_disk).
Proof.
  unfold on_cadence, init, load_checkpoint, marks. simpl.
  destruct on_disk as [[|processed db]|]; simpl; split; (done || lia).
Qed.

(** C9.  In every run, fresh or resumed from a checkpoint with any number
    of labels already processed, a periodic checkpoint save is triggered
    right after the mark of every label that brings the processed set,
    the labels loaded from the checkpoint included, to a multiple of
    [CHECKPOINT_INTERVAL] = 500, and after the mark of no other label;
    a periodic save comes nowhere but right after a mark; and the
    processed set grows by one with every mark.  Hence the labels newly
    processed between two consecutive periodic saves are exactly 500,
    at the end of the run the labels newly processed since the last
    periodic save are fewer than that, and the first periodic save of
    the run comes when the processed set reaches a multiple of the
    interval. *)
Theorem checkpoint_cadence
    (fuel : nat) (all_tags : list string) (on_disk : option file) o st' :
  build_database fuel all_tags (init on_disk) = Some (o, st') →
  size (processed_tags st')
  = (size (processed_tags (init on_disk)) + marks (trace st'))%nat
  ∧ (∀ t1 tag t2,
      trace st' = t1 ++ EvMarked tag :: t2 →
      ((size (processed_tags (init on_disk)) + S (marks t1))
         mod CHECKPOINT_INTERVAL = 0)%nat
      ↔ ∃ t2', t2 = EvSave false :: t2')
  ∧ (∀ t1 t2,
      trace st' = t1 ++ EvSave false :: t2 →
      ∃ t0 tag, t1 = t0 ++ [EvMarked tag])
  ∧ (∀ t1 mid t2,
      trace st' = t1 ++ EvSave false :: mid ++ EvSave false :: t2 →
      Forall (λ e, is_periodic_save e = false) mid →
      marks mid = CHECKPOINT_INTERVAL)
  ∧ (∀ t1 mid,
      trace st' = t1 ++ EvSave false :: mid →
      Forall (λ e, is_periodic_save e = false) mid →
      (marks mid < CHECKPOINT_INTERVAL)%nat)
  ∧ (∀ mid t2,
      trace st' = mid ++ EvSave false :: t2 →
      Forall (λ e, is_periodic_save e = false) mid →
      ((size (processed_tags (init on_disk)) + marks mid)
         mod CHECKPOINT_INTERVAL = 0)%nat).
Proof.
  intros Hrun.
  assert (paced st' ∧ aligned (size (processed_tags (init on_disk))) st'
          ∧ on_cadence (size (processed_tags (init on_disk))) st')
    as ([Hgaps Hsince] & Hal & Hcad & Hsize).
  { unfold build_database, bind in Hrun.
    destruct (run_tags fuel all_tags (init on_disk)) as [[[[]|e] st1]|] eqn:Hloop;
      [| |done].
    - split; [|split].
      + eapply paced_final_save; [done|].
        eapply run_tags_paced; [done|apply paced_init].
      + eapply aligned_final_save; [done|].
        eapply run_tags_aligned; [done|apply aligned_init].
      + eapply on_cadence_final_save; [done|].
        eapply run_tags_on_cadence; [done|apply on_cadence_init].
    - injection Hrun as <- <-. split; [|split].
      + eapply run_tags_paced; [done|apply paced_init].
      + eapply run_tags_aligned; [done|apply aligned_init].
      + eapply run_tags_on_cadence; [done|apply on_cadence_init]. }
  split; [done|]. split; [|split].
  { intros t1 tag t2 Htrace. rewrite Htrace in Hcad.
    by apply (cadence_from_mark _ t1 t2 tag). }
  { intros t1 t2 Htrace. rewrite Htrace in Hcad.
    by eapply cadence_from_save. }
  split; [|split].
  - intros t1 mid t2 Htrace Hq.
    eapply (Forall_forall (λ g, g = CHECKPOINT_INTERVAL)); [exact Hgaps|].
    unfold gaps. rewrite Htrace. by apply gaps_between.
  - intros t1 mid Htrace Hq.
    specialize (Hsince (marks mid)). rewrite Htrace in Hsince.
    rewrite since_save_app in Hsince. simpl in Hsince.
    rewrite (since_save_quiet _ _ Hq) in Hsince. simpl in Hsince.
    rewrite (Hsince eq_refl). unfold CHECKPOINT_INTERVAL.
    apply Nat.mod_upper_bound. done.
  - intros mid t2 Htrace Hq. unfold aligned in Hal.
    rewrite Htrace, first_gap_from_app, (first_gap_from_quiet _ _ Hq) in Hal.
    done.
Qed.

End Cadence.

(** ** Merging again *)

Lemma existsb_app_l {A} (f : A → bool) (l l' : list A) :
  existsb f l = true → existsb f (l ++ l') = true.
Proof. intros H. by rewrite existsb_app, H. Qed.

Lemma card_key_independent (card : json) (db db2 : cards) :
  card_key card db2
  = match card_key card db with
    | Some (o, _) => Some (o, db2)
    | None => None
    end.
Proof.
  destruct card as [| | | | |l|m]; simpl; try done.
  by destruct (m !! "id") as [[]|].
Qed.

Section MergeAgain.

Variable json_dumps : json → string.

Local Abbreviation add_or_update_card := (add_or_update_card json_dumps).
Local Abbreviation merge_cards := (merge_cards json_dumps).
Local Abbreviation flattens := (flattens json_dumps).

Lemma grows_refl (db : cards) : grows db db.
Proof. by intros i tag. Qed.

Lemma grows_trans (db1 db2 db3 : cards) :
  grows db1 db2 → grows db2 db3 → grows db1 db3.
Proof. intros H12 H23 i tag Hi. by apply H23, H12. Qed.

(** One merge keeps the label lists in shape and loses no label. *)
Lemma add_or_update_card_grows (card : json) (tag : string) (db : cards) o db' :
  tags_wf db →
  add_or_update_card card tag db = Some (o, db') →
  tags_wf db' ∧ grows db db'.
Proof.
  intros Hwf [->|[(j & m & fl & _ & _ & Hfresh & _ & _ & ->)
                 |(j & rec0 & l & _ & Hdb & Htags & Hnew & _ & ->)]]%add_or_update_card_cases.
  - split; [done|apply grows_refl].
  - split.
    + intros i rec. destruct (decide (j = i)) as [->|Hne].
      * rewrite lookup_insert_eq. intros [= <-].
        eexists. by rewrite lookup_insert_eq.
      * rewrite lookup_insert_ne by done. apply Hwf.
    + intros i t (rec & l & Hi & Hl & Hin). exists rec, l.
      rewrite lookup_insert_ne by congruence. done.
  - split.
    + intros i rec. destruct (decide (j = i)) as [->|Hne].
      * rewrite lookup_insert_eq. intros [= <-].
        eexists. by rewrite lookup_insert_eq.
      * rewrite lookup_insert_ne by done. apply Hwf.
    + intros i t (rec & l' & Hi & Hl & Hin).
      destruct (decide (j = i)) as [->|Hne].
      * rewrite Hdb in Hi. injection Hi as ->. rewrite Hl in Htags.
        injection Htags as ->.
        eexists _, _. rewrite !lookup_insert_eq.
        split; [done|]. split; [done|]. by apply existsb_app_l.
      * exists rec, l'. by rewrite lookup_insert_ne by done.
Qed.

Lemma merge_cards_grows (found : list json) (tag : string) (db : cards) o db' :
  tags_wf db →
  merge_cards found tag db = Some (o, db') →
  tags_wf db' ∧ grows db db'.
Proof.
  revert db. induction found as [|card found IH]; intros db Hwf; simpl.
  { intros [= <- <-]. split; [done|apply grows_refl]. }
  unfold bind.
  destruct (card_key card db) as [[[j|e'] db0]|] eqn:Hkey; [| |done].
  2: { apply card_key_inv in Hkey as [-> _]. intros [= <- <-].
       split; [done|apply grows_refl]. }
  apply card_key_inv in Hkey as [-> _].
  destruct (add_or_update_card card tag db) as [[[[]|e'] db1]|] eqn:Hadd;
    [| |done].
  - destruct (add_or_update_card_grows _ _ _ _ _ Hwf Hadd) as [Hwf1 Hg1].
    intros [Hwf' Hg']%IH; [|done]. split; [done|]. by eapply grows_trans.
  - intros [= <- <-]. by eapply add_or_update_card_grows.
Qed.

(** A payload that flattens and has an identifier merges without an
    exception into a well-shaped table, and then carries the label. *)
Lemma add_or_update_card_has_tag (card : json) (tag i : string) (db : cards) :
  tags_wf db → flattens card → payload_id card = Some i →
  ∃ db', add_or_update_card card tag db = Some (Ret tt, db')
         ∧ has_tag i tag db'.
Proof.
  intros Hwf Hfl Hid. unfold add_or_update_card, bind.
  rewrite (card_key_payload_id _ _ _ Hid). unfold get.
  destruct card as [| | | | |l|m]; try done.
  destruct (db !! i) as [rec|] eqn:Hdb.
  - destruct (Hwf _ _ Hdb) as [l Hl]. rewrite Hl. simpl. unfold of_outcome.
    destruct (existsb (is_str tag) l) eqn:Hin; simpl.
    + eexists. split; [done|]. by exists rec, l.
    + eexists. split; [done|]. eexists _, _. rewrite !lookup_insert_eq.
      split; [done|]. split; [done|]. apply existsb_is_str_snoc.
  - destruct Hfl as [fl ->]. simpl. eexists. split; [done|].
    eexists _, _. rewrite !lookup_insert_eq.
    split; [done|]. split; [done|]. simpl. by rewrite String.eqb_refl.
Qed.

(** A payload whose record carries the label already merges as a no-op. *)
Lemma add_or_update_card_quiet (card : json) (tag i : string) (db : cards) :
  payload_id card = Some i → has_tag i tag db →
  add_or_update_card card tag db = Some (Ret tt, db).
Proof.
  intros Hid (rec & l & Hdb & Hl & Hin). unfold add_or_update_card, bind.
  rewrite (card_key_payload_id _ _ _ Hid). unfold get.
  rewrite Hdb, Hl. simpl. unfold of_outcome. by rewrite Hin.
Qed.

Lemma quiet_grows (found : list json) (tag : string) (e : exn) (db db' : cards) :
  grows db db' → quiet found tag e db → quiet found tag e db'.
Proof.
  intros Hg. induction found as [|card found IH]; simpl; [done|].
  destruct (card_key card ∅) as [[[i|e'] db0]|]; [|done..].
  intros [Hi Hrest]. split; [by apply Hg|by apply IH].
Qed.

Lemma quiet_merge_cards (found : list json) (tag : string) (e : exn) (db : cards) :
  quiet found tag e db → merge_cards found tag db = Some (Raise e, db).
Proof.
  induction found as [|card found IH]; simpl; [done|].
  unfold bind. rewrite (card_key_independent card ∅ db).
  destruct (card_key card ∅) as [[[i|e'] db0]|] eqn:Hkey; [| |done].
  - intros [Hi Hrest]. apply card_key_Ret in Hkey.
    rewrite (add_or_update_card_quiet _ _ _ _ Hkey Hi). by apply IH.
  - by intros ->.
Qed.

(** After a merge that stopped with an exception, merging the same
    payloads again is quiet. *)
Lemma merge_cards_then_quiet (found : list json) (tag : string) (e : exn)
    (db db' : cards) :
  tags_wf db → Forall flattens found →
  merge_cards found tag db = Some (Raise e, db') →
  quiet found tag e db'.
Proof.
  intros Hwf Hfl. revert db Hwf.
  induction Hfl as [|card found Hcard Hfl IH]; intros db Hwf; simpl; [done|].
  unfold bind. rewrite (card_key_independent card ∅ db).
  destruct (card_key card ∅) as [[[i|e'] db0]|] eqn:Hkey; [| |done].
  2: { by intros [= <- <-]. }
  apply card_key_Ret in Hkey.
  destruct (add_or_update_card_has_tag card tag i db Hwf Hcard Hkey)
    as (db1 & Hadd & Hi).
  rewrite Hadd. intros Hrest.
  destruct (add_or_update_card_grows _ _ _ _ _ Hwf Hadd) as [Hwf1 _].
  destruct (merge_cards_grows _ _ _ _ _ Hwf1 Hrest) as [_ Hg].
  split; [by apply Hg|]. by eapply IH.
Qed.

End MergeAgain.

(** ** Resuming from a checkpoint *)

Section Resume.

Variable json_dumps : json → string.
Variable recursion_limit : nat.
Variable upstream : list event → json → http_result.
Variable storage : list event → save_result.

Local Abbreviation merge_cards := (merge_cards json_dumps).
Local Abbreviation make_request := (make_request upstream).
Local Abbreviation search_loop := (search_loop recursion_limit upstream).
Local Abbreviation search_tag := (search_tag recursion_limit upstream).
Local Abbreviation save_checkpoint := (save_checkpoint storage).
Local Abbreviation process_tag :=
  (process_tag json_dumps recursion_limit upstream storage).
Local Abbreviation run_tags :=
  (run_tags json_dumps recursion_limit upstream storage).
Local Abbreviation build_database :=
  (build_database json_dumps recursion_limit upstream storage).
Local Abbreviation flattens := (flattens json_dumps).
Local Abbreviation payloads_flatten := (payloads_flatten json_dumps upstream).
Local Abbreviation fetched := (fetched recursion_limit upstream).
Local Abbreviation step := (step json_dumps recursion_limit upstream).
Local Abbreviation steps := (steps json_dumps recursion_limit upstream).
Local Abbreviation settled := (settled recursion_limit upstream).

Hypothesis Hdet : deterministic upstream.

Lemma make_request_det (retries : nat) (url : json) (st st2 : builder) :
  fst <$> make_request retries url st = fst <$> make_request retries url st2.
Proof.
  revert st st2. induction retries as [|retries IH]; intros st st2; simpl.
  all: rewrite (Hdet (trace st) (trace st2) url).
  all: destruct (upstream (trace st2) url) as [status body| |]; try done.
  all: destruct (status =? 429)%Z; [try done; try apply IH|].
  all: destruct ((400 <=? status) && (status <? 600))%Z; [done|].
  all: by destruct body.
Qed.

Lemma search_loop_det (fuel : nat) (url : json) (acc : list json)
    (st st2 : builder) :
  fst <$> search_loop fuel url acc st = fst <$> search_loop fuel url acc st2.
Proof.
  revert url acc st st2. induction fuel as [|fuel IH]; intros url acc st st2;
    simpl.
  { by destruct (truthy url). }
  destruct (truthy url); [|done].
  pose proof (make_request_det recursion_limit url st st2) as Hreq.
  destruct (make_request_frame upstream recursion_limit url st)
    as (o1 & r1 & H1 & _).
  destruct (make_request_frame upstream recursion_limit url st2)
    as (o2 & r2 & H2 & _).
  rewrite H1, H2 in Hreq |- *. simpl in Hreq. injection Hreq as <-.
  destruct o1 as [data|e].
  - destruct (page_step data) as [[[items next]|]|e]; first [done|apply IH].
  - destruct e as [| | | |code| | | |]; try done.
    by destruct (code =? 404)%Z.
Qed.

Lemma search_tag_fetched (fuel : nat) (tag : string) (st : builder) :
  fst <$> search_tag fuel tag st = fetched fuel tag.
Proof. apply search_loop_det. Qed.

Lemma search_loop_flattens (fuel : nat) (url : json) (acc : list json)
    (st : builder) found st' :
  payloads_flatten →
  Forall flattens acc →
  search_loop fuel url acc st = Some (Ret found, st') →
  Forall flattens found.
Proof.
  intros Hpf. revert url acc st.
  induction fuel as [|fuel IH]; intros url acc st Hacc; simpl.
  { destruct (truthy url); [done|]. by intros [= <- <-]. }
  destruct (truthy url); [|by intros [= <- <-]].
  destruct (make_request recursion_limit url st) as [[[data|e] st1]|] eqn:Hreq;
    [| |done].
  - destruct (page_step data) as [[[items next]|]|e] eqn:Hpage.
    + apply IH. apply Forall_app. split; [done|]. by eapply Hpf.
    + by intros [= <- <-].
    + done.
  - destruct e as [| | | |code| | | |]; try done.
    destruct (code =? 404)%Z; [|done]. by intros [= <- <-].
Qed.

Lemma fetched_unfold (fuel : nat) (tag : string) :
  fetched fuel tag = fst <$> search_tag fuel tag (Builder ∅ ∅ [] None).
Proof. done. Qed.

Lemma fetched_flattens (fuel : nat) (tag : string) (found : list json) :
  payloads_flatten → fetched fuel tag = Some (Ret found) → Forall flattens found.
Proof.
  intros Hpf. rewrite fetched_unfold.
  destruct (search_tag fuel tag _) as [[o st']|] eqn:Hsearch; [|done].
  simpl. intros [= ->]. by eapply search_loop_flattens.
Qed.

(** [_process_tag] and the run loop act on the accumulator content as
    [step] and [steps] do. *)
Lemma process_tag_step (fuel : nat) (tag : string) (st : builder) :
  signal_view (process_tag fuel tag st) = step fuel tag (view st).
Proof.
  unfold process_tag, step. simpl.
  destruct (decide (tag ∈ processed_tags st)) as [Hin|Hnew]; [done|].
  rewrite <-(search_tag_fetched fuel tag st).
  unfold try_except, process_tag_body, bind.
  destruct (search_tag fuel tag st) as [[[found|e] st1]|] eqn:Hsearch;
    [| |done].
  2: { apply search_loop_frame in Hsearch as (reqs & -> & _). simpl.
       by destruct (is_Exception e). }
  apply search_loop_frame in Hsearch as (reqs & -> & _). simpl.
  unfold on_cards. simpl.
  destruct (merge_cards found tag (cards_db st)) as [[[[]|e] db']|] eqn:Hmerge;
    [| |done].
  2: { by rewrite (merge_cards_Exception _ _ _ _ _ _ Hmerge). }
  simpl. change (log _ _) with (after_mark tag db' (extend st reqs)).
  destruct (save_due _); [|done].
  destruct (save_checkpoint_frame storage false
              (after_mark tag db' (extend st reqs)))
    as (o2 & st2 & -> & Hexc & Hdb & Hproc & _).
  destruct o2 as [[]|e2]; simpl in *.
  - unfold signal_view, view. simpl. by rewrite Hdb, Hproc.
  - rewrite Hexc. unfold signal_view, view. simpl. by rewrite Hdb, Hproc.
Qed.

Lemma run_tags_steps (fuel : nat) (tags : list string) (st : builder) :
  signal_view (run_tags fuel tags st) = steps fuel tags (view st).
Proof.
  revert st. induction tags as [|tag tags IH]; intros st; simpl; [done|].
  rewrite <-process_tag_step.
  destruct (decide (tag ∈ processed_tags st)) as [Hin|Hnew].
  - unfold process_tag. rewrite decide_True by done. simpl. apply IH.
  - unfold bind.
    destruct (process_tag fuel tag st) as [[[n|e] st1]|]; simpl; [|done..].
    apply IH.
Qed.

Lemma build_database_steps (fuel : nat) (tags : list string) (st : builder) :
  final_view (build_database fuel tags st) = snd <$> steps fuel tags (view st).
Proof.
  rewrite <-run_tags_steps. unfold build_database, bind.
  destruct (run_tags fuel tags st) as [[[[]|e] st1]|]; simpl; [| |done].
  - destruct (save_checkpoint_frame storage true st1)
      as (o2 & st2 & -> & _ & Hdb & Hproc & _).
    unfold final_view, view. simpl. by rewrite Hdb, Hproc.
  - done.
Qed.

(** *** Settled labels *)

Lemma step_grows (fuel : nat) (tag : string) (v v' : cards * gset string) o :
  tags_wf v.1 → step fuel tag v = Some (o, v') →
  tags_wf v'.1 ∧ grows v.1 v'.1 ∧ v.2 ⊆ v'.2.
Proof.
  intros Hwf. unfold step.
  destruct (decide (tag ∈ v.2)) as [Hin|Hnew].
  { intros [= <- <-]. split; [done|]. split; [apply grows_refl|done]. }
  destruct (fetched fuel tag) as [[found|e]|]; [| |done].
  - destruct (merge_cards found tag v.1) as [[[[]|e] db']|] eqn:Hmerge;
      [| |done].
    all: intros [= <- <-]; simpl.
    all: destruct (merge_cards_grows _ _ _ _ _ _ Hwf Hmerge) as [Hwf' Hg].
    all: split; [done|]; split; [done|set_solver].
  - intros [= <- <-]. split; [done|]. split; [apply grows_refl|done].
Qed.

Lemma settled_unfold (fuel : nat) (tag : string) (v : cards * gset string) :
  settled fuel tag v
  ↔ tag ∈ v.2
    ∨ (∃ e, fetched fuel tag = Some (Raise e) ∧ is_Exception e = true)
    ∨ (∃ found e, fetched fuel tag = Some (Ret found) ∧ quiet found tag e v.1).
Proof. done. Qed.

(** Once a call for a label has returned, the label is settled. *)
Lemma step_settled (fuel : nat) (tag : string) (v v' : cards * gset string) :
  payloads_flatten → tags_wf v.1 →
  step fuel tag v = Some (None, v') → settled fuel tag v'.
Proof.
  intros Hpf Hwf. rewrite settled_unfold. unfold step.
  destruct (decide (tag ∈ v.2)) as [Hin|Hnew].
  { intros [= <-]. by left. }
  destruct (fetched fuel tag) as [[found|e]|] eqn:Hfetch; [| |done].
  - destruct (merge_cards found tag v.1) as [[[[]|e] db']|] eqn:Hmerge;
      [| |done]; intros [= <-]; simpl.
    + left. set_solver.
    + right; right. exists found, e. split; [done|].
      eapply merge_cards_then_quiet; [done| |done].
      by eapply fetched_flattens.
  - destruct (is_Exception e) eqn:Hexc; [|done].
    intros [= <-]. right; left. by exists e.
Qed.

(** A settled label stays settled as the accumulator grows. *)
Lemma settled_mono (fuel : nat) (tag : string) (v v' : cards * gset string) :
  settled fuel tag v → grows v.1 v'.1 → v.2 ⊆ v'.2 → settled fuel tag v'.
Proof.
  rewrite !settled_unfold.
  intros [Hin|[Hfetch|(found & e & Hfetch & Hq)]] Hg Hsub.
  - left. set_solver.
  - by right; left.
  - right; right. exists found, e. split; [done|]. by eapply quiet_grows.
Qed.

(** Processing a settled label changes nothing. *)
Lemma settled_step (fuel : nat) (tag : string) (v : cards * gset string) :
  settled fuel tag v → step fuel tag v = Some (None, v).
Proof.
  rewrite settled_unfold. unfold step.
  intros [Hin|[(e & Hfetch & Hexc)|(found & e & Hfetch & Hq)]].
  - by rewrite decide_True.
  - destruct (decide (tag ∈ v.2)); [done|]. by rewrite Hfetch, Hexc.
  - destruct (decide (tag ∈ v.2)); [done|]. rewrite Hfetch.
    rewrite (quiet_merge_cards _ _ _ _ _ Hq). by destruct v.
Qed.

Lemma steps_app (fuel : nat) (pre rest : list string)
    (v v1 : cards * gset string) :
  steps fuel pre v = Some (None, v1) →
  steps fuel (pre ++ rest) v = steps fuel rest v1.
Proof.
  revert v. induction pre as [|tag pre IH]; intros v; simpl.
  { by intros [= <-]. }
  destruct (step fuel tag v) as [[[e|] v']|]; [done| |done]. apply IH.
Qed.

(** After a run over [pre] that returned, every label of [pre] is
    settled. *)
Lemma steps_settled (fuel : nat) (pre : list string)
    (v v1 : cards * gset string) :
  payloads_flatten → tags_wf v.1 →
  steps fuel pre v = Some (None, v1) →
  Forall (λ tag, settled fuel tag v1) pre
  ∧ tags_wf v1.1 ∧ grows v.1 v1.1 ∧ v.2 ⊆ v1.2.
Proof.
  intros Hpf. revert v. induction pre as [|tag pre IH]; intros v Hwf; simpl.
  { intros [= <-]. repeat split; [done..|apply grows_refl|done]. }
  destruct (step fuel tag v) as [[[e|] v']|] eqn:Hstep; [done| |done].
  intros Hrest.
  destruct (step_grows _ _ _ _ _ Hwf Hstep) as (Hwf' & Hg & Hsub).
  destruct (IH _ Hwf' Hrest) as (Hall & Hwf1 & Hg1 & Hsub1).
  repeat split; try done.
  - constructor; [|done].
    apply (settled_mono _ _ v'); [|done..].
    by apply (step_settled _ _ v).
  - by eapply grows_trans.
  - set_solver.
Qed.

(** A run passes over labels that are settled. *)
Lemma steps_replay (fuel : nat) (pre rest : list string)
    (v : cards * gset string) :
  Forall (λ tag, settled fuel tag v) pre →
  steps fuel (pre ++ rest) v = steps fuel rest v.
Proof.
  induction 1 as [|tag pre Htag _ IH]; simpl; [done|].
  by rewrite (settled_step _ _ _ Htag).
Qed.

(** C2, as the code has it.  Let the upstream answer by the URL alone and
    let every entity it returns flatten without an exception.  Start from
    an engine whose records hold label lists (a fresh engine does), run
    the first [k] labels, save the checkpoint, and run a fresh engine over
    that checkpoint to the end: the entity table and the processed set it
    ends with are those of the single pass, label lists in the same order,
    and it ends within the fuel exactly when the single pass does. *)
Theorem resume_equivalence
    (fuel : nat) (all_tags : list string) (k : nat) (st0 st1 st2 : builder) :
  payloads_flatten →
  tags_wf (cards_db st0) →
  run_tags fuel (take k all_tags) st0 = Some (Ret tt, st1) →
  save_checkpoint true st1 = Some (Ret tt, st2) →
  final_view (build_database fuel all_tags (init (disk st2)))
  = final_view (build_database fuel all_tags st0).
Proof.
  intros Hpf Hwf Hpre Hsave.
  rewrite !build_database_steps.
  assert (view (init (disk st2)) = view st1) as ->.
  { apply save_then_init in Hsave as [Hdb Hproc]. unfold view. by f_equal. }
  assert (steps fuel (take k all_tags) (view st0) = Some (None, view st1))
    as Hsteps.
  { rewrite <-run_tags_steps, Hpre. done. }
  destruct (steps_settled _ _ (view st0) _ Hpf Hwf Hsteps) as (Hall & _).
  rewrite <-(take_drop k all_tags) at 1 2.
  by rewrite (steps_replay _ _ _ _ Hall), (steps_app _ _ _ _ _ Hsteps).
Qed.

End Resume.

(** ** The concrete runs *)

Local Ltac vm_decide := apply (bool_decide_unpack _); vm_compute; exact I.

Lemma serve_deterministic (server : string → http_result) :
  deterministic (serve server).
Proof. by intros h h' url. Qed.

Lemma tags_wf_empty : tags_wf ∅.
Proof. intros i rec. by rewrite lookup_empty. Qed.

(** The scenario of the specification ends with the accumulator it
    expects. *)
Example scenario_accumulator :
  (λ p, (p.1, labels_of "1" p.2, labels_of "2" p.2, labels_of "3" p.2,
         size (cards_db p.2),
         bool_decide (processed_tags p.2 = {["flying_benefit"; "removal"]})))
    <$> scenario_run
  = Some (Ret tt,
          Some (JArr [JStr "flying_benefit"]),
          Some (JArr [JStr "flying_benefit"; JStr "removal"]),
          Some (JArr [JStr "removal"]),
          3%nat, true).
Proof. vm_compute. reflexivity. Qed.

(** The single pass over ["a"; "b"; "c"]: ["a"] fails in its merge and
    stays unprocessed, [X] carries ["b"] only. *)
Example faces_one_pass_run :
  (λ p, (p.1, labels_of "X" p.2, bool_decide ("a" ∈ processed_tags p.2)))
    <$> faces_one_pass
  = Some (Ret tt, Some (JArr [JStr "b"]), false).
Proof. vm_compute. reflexivity. Qed.

(** The run resumed after ["a"; "b"]: ["a"] is tried again, finds [X] in
    the table and succeeds. *)
Example faces_resumed_run :
  (λ p, (p.1, labels_of "X" p.2, bool_decide ("a" ∈ processed_tags p.2)))
    <$> faces_resumed
  = Some (Ret tt, Some (JArr [JStr "b"; JStr "a"]), true).
Proof. vm_compute. reflexivity. Qed.

(** C2 fails as stated: the upstream answers by the URL alone, the run is
    stopped after the first two of three labels, saved and resumed, and
    the resumed run ends with another label set for [X] and another
    processed set than the single pass. *)
Lemma resume_changes_labels :
  deterministic (serve faces_server)
  ∧ fst <$> faces_prefix = Some (Ret tt)
  ∧ fst <$> faces_one_pass = Some (Ret tt)
  ∧ fst <$> faces_resumed = Some (Ret tt)
  ∧ labels_of "X" (final_of faces_one_pass) = Some (JArr [JStr "b"])
  ∧ labels_of "X" (final_of faces_resumed) = Some (JArr [JStr "b"; JStr "a"])
  ∧ final_view faces_resumed ≠ final_view faces_one_pass.
Proof.
  split; [apply serve_deterministic|].
  repeat (split; [vm_compute; reflexivity|]).
  intros Heq.
  assert ((λ v : cards * gset string, bool_decide ("a" ∈ v.2))
            <$> final_view faces_resumed
          = (λ v : cards * gset string, bool_decide ("a" ∈ v.2))
            <$> final_view faces_one_pass) as Hbad by (by rewrite Heq).
  vm_compute in Hbad. discriminate Hbad.
Qed.

(** C8 fails as stated: the merge of label ["b"] stops with [KeyError] at
    its second payload, and the record of [X], which was in the
    accumulator before, has changed: it now carries ["b"] as well. *)
Lemma failed_merge_changes_record :
  label_fails dumps_unused (serve partial_server) 10 5 "b"
    partial_start KeyError partial_after
  ∧ labels_of "X" partial_start = Some (JArr [JStr "a"])
  ∧ labels_of "X" partial_after = Some (JArr [JStr "a"; JStr "b"])
  ∧ ¬ (∀ i rec, cards_db partial_start !! i = Some rec →
                cards_db partial_after !! i = Some rec).
Proof.
  split; [|split; [|split]].
  - split; [vm_decide|]. split; [done|]. right.
    eexists _, _. split; vm_compute; reflexivity.
  - vm_compute. reflexivity.
  - vm_compute. reflexivity.
  - intros Hsame.
    assert (labels_of "X" partial_after = labels_of "X" partial_start) as Hbad.
    { unfold labels_of.
      destruct (cards_db partial_start !! "X") as [rec|] eqn:Hrec; [|done].
      by rewrite (Hsame _ _ Hrec). }
    vm_compute in Hbad. discriminate Hbad.
Qed.


(** C1 on the code.  Label ["a"] is fetched and merged, the user
    interrupts the request for label ["b"]: [main] prints the resume
    notice and exits with status 0, but no save was made, and the
    checkpoint file does not exist; the next run starts from nothing. *)
Lemma interrupt_saves_nothing :
  (λ ex, (status ex, printed ex,
          bool_decide ("a" ∈ processed_tags (final ex)),
          labels_of "X" (final ex),
          trace (final ex),
          disk (final ex),
          elements (processed_tags (init (disk (final ex))))))
    <$> interrupted_main
  = Some (0%Z, resume_notice, true, Some (JArr [JStr "a"]),
          [EvRequest (JStr (search_url "a")); EvMarked "a";
           EvRequest (JStr (search_url "b"))],
          None, []).
Proof. vm_compute. reflexivity. Qed.

(** C3 on the code.  The run resumes with 499 labels processed; label
    ["x"] makes 500, the periodic save is due and its write fails.  The
    exception is caught inside [_process_tag]: the run goes on to request
    label ["y"], and [main] ends with status 0. *)
Lemma failed_periodic_save_is_swallowed :
  first_save_fails [EvRequest (JStr (search_url "x")); EvMarked "x"]
  = SaveFailsKeep
  ∧ (λ ex, (status ex, printed ex, trace (final ex))) <$> failing_save_main
    = Some (0%Z, [],
            [EvRequest (JStr (search_url "x")); EvMarked "x"; EvSave false;
             EvRequest (JStr (search_url "y")); EvMarked "y"; EvSave true]).
Proof. split; vm_compute; reflexivity. Qed.

(** ** Instances of the theorems *)

Lemma add_or_update_card_idempotent_instance :
  payload_id card_X = Some "X"
  ∧ ∃ o db1,
      add_or_update_card dumps_unused card_X "a" ∅ = Some (o, db1)
      ∧ add_or_update_card dumps_unused card_X "a" db1 = Some (o, db1).
Proof.
  split; [reflexivity|].
  apply (add_or_update_card_idempotent dumps_unused ∅ "a" card_X "X").
  reflexivity.
Defined.

Lemma unique_key_invariant_instance :
  merge_seq dumps_unused (take 3 three_merges) ∅ = Some three_merged
  ∧ NoDup (map_to_list three_merged).*1
  ∧ dom three_merged ⊆ payload_ids (take 3 three_merges)
  ∧ (size three_merged ≤ size (payload_ids (take 3 three_merges)))%nat.
Proof.
  split; [vm_compute; reflexivity|].
  apply (unique_key_invariant dumps_unused three_merges 3 three_merged).
  vm_compute; reflexivity.
Defined.

Lemma paged_served :
  served (serve paged_server) [] (search_url "p")
    [[obj [("id", JStr "X")]]; [obj [("id", JStr "Y")]]] LastPage.
Proof.
  apply (served_more _ _ _ 200
           (page_fields [obj [("id", JStr "X")]]
                        (Some "https://api.scryfall.com/page2"))
           _ "https://api.scryfall.com/page2"); try reflexivity; [done|].
  apply (served_last _ _ _ 200 (page_fields [obj [("id", JStr "Y")]] None));
    reflexivity.
Defined.

Lemma search_tag_pagination_instance :
  served (serve paged_server) (trace (init None)) (search_url "p")
    [[obj [("id", JStr "X")]]; [obj [("id", JStr "Y")]]] LastPage
  ∧ (2 ≤ 5)%nat
  ∧ ∃ reqs,
      search_tag 10 (serve paged_server) 5 "p" (init None)
      = Some (Ret (concat [[obj [("id", JStr "X")]]; [obj [("id", JStr "Y")]]]),
              extend (init None) reqs)
      ∧ Forall (λ ev, is_request ev = true) reqs
      ∧ length reqs = 2%nat.
Proof.
  split; [exact paged_served|]. split; [lia|].
  apply (search_tag_pagination 10 (serve paged_server) 5 "p"
           [[obj [("id", JStr "X")]]; [obj [("id", JStr "Y")]]] (init None)).
  - exact paged_served.
  - simpl. lia.
Defined.

Lemma not_found_is_empty_instance :
  ("z" ∉ processed_tags (init None))
  ∧ nothing_found (trace (init None)) (JStr (search_url "z"))
    = Response 404 None
  ∧ (1 ≤ 1)%nat
  ∧ ∃ st',
      process_tag dumps_unused 10 nothing_found storage_ok 1 "z" (init None)
      = Some (Ret 0%nat, st')
      ∧ cards_db st' = cards_db (init None)
      ∧ processed_tags st' = {["z"]} ∪ processed_tags (init None).
Proof.
  split; [vm_decide|]. split; [reflexivity|]. split; [lia|].
  apply (not_found_is_empty dumps_unused 10 nothing_found storage_ok
           1 "z" (init None) None).
  - vm_decide.
  - reflexivity.
  - lia.
Defined.



Lemma checkpoint_cadence_instance :
  cadence_run = Some (Ret tt, final_of cadence_run)
  ∧ size (processed_tags (init cadence_disk)) = 499%nat
  ∧ trace (final_of cadence_run)
    = [EvRequest (JStr (search_url "x")); EvMarked "x"; EvSave false;
       EvRequest (JStr (search_url "y")); EvMarked "y"; EvSave true]
  ∧ size (processed_tags (final_of cadence_run))
    = (size (processed_tags (init cadence_disk))
       + marks (trace (final_of cadence_run)))%nat
  ∧ (∀ t1 tag t2,
        trace (final_of cadence_run) = t1 ++ EvMarked tag :: t2 →
        ((size (processed_tags (init cadence_disk)) + S (marks t1))
           mod CHECKPOINT_INTERVAL = 0)%nat
        ↔ ∃ t2', t2 = EvSave false :: t2')
  ∧ (∀ t1 t2,
        trace (final_of cadence_run) = t1 ++ EvSave false :: t2 →
        ∃ t0 tag, t1 = t0 ++ [EvMarked tag])
  ∧ (∀ t1 mid t2,
        trace (final_of cadence_run)
        = t1 ++ EvSave false :: mid ++ EvSave false :: t2 →
        Forall (λ e, is_periodic_save e = false) mid →
        marks mid = CHECKPOINT_INTERVAL)
  ∧ (∀ t1 mid,
        trace (final_of cadence_run) = t1 ++ EvSave false :: mid →
        Forall (λ e, is_periodic_save e = false) mid →
        (marks mid < CHECKPOINT_INTERVAL)%nat)
  ∧ (∀ mid t2,
        trace (final_of cadence_run) = mid ++ EvSave false :: t2 →
        Forall (λ e, is_periodic_save e = false) mid →
        ((size (processed_tags (init cadence_disk)) + marks mid)
           mod CHECKPOINT_INTERVAL = 0)%nat).
Proof.
  assert (cadence_run = Some (Ret tt, final_of cadence_run)) as Hrun
    by (vm_compute; reflexivity).
  split; [exact Hrun|].
  split; [vm_compute; reflexivity|].
  split; [vm_compute; reflexivity|].
  apply (checkpoint_cadence dumps_unused 10 nothing_found storage_ok 5
           ["x"; "y"] cadence_disk (Ret tt) (final_of cadence_run)).
  exact Hrun.
Defined.

Lemma partial_label_fails :
  label_fails dumps_unused (serve partial_server) 10 5 "b"
    partial_start KeyError partial_after.
Proof.
  split; [vm_decide|]. split; [reflexivity|]. right.
  eexists _, _. split; vm_compute; reflexivity.
Defined.

Lemma label_failure_frame_instance :
  label_fails dumps_unused (serve partial_server) 10 5 "b"
    partial_start KeyError partial_after
  ∧ process_tag dumps_unused 10 (serve partial_server) storage_ok 5 "b"
      partial_start = Some (Ret 0%nat, partial_after)
  ∧ processed_tags partial_after = processed_tags partial_start.
Proof.
  split; [exact partial_label_fails|].
  destruct (label_failure_frame dumps_unused 10 (serve partial_server)
              storage_ok 5 "b" partial_start KeyError partial_after
              partial_label_fails) as (Hrun & Hproc & _).
  by split.
Defined.

Lemma flaky_payloads_flatten :
  payloads_flatten dumps_unused (serve flaky_server).
Proof.
  intros retries url st data st' items next
    (h & status & Hup)%make_request_Ret Hpage.
  destruct url as [| | | |u| |]; try done. simpl in Hup.
  unfold flaky_server, page in Hup.
  destruct (String.eqb u (search_url "a")).
  { injection Hup as <- <-. vm_compute in Hpage. injection Hpage as <- <-.
    repeat constructor. eexists. vm_compute. reflexivity. }
  destruct (String.eqb u (search_url "c")); [|done].
  injection Hup as <- <-. vm_compute in Hpage. injection Hpage as <- <-.
  repeat constructor; eexists; vm_compute; reflexivity.
Qed.

(** The run of [flaky_server]: label ["b"] fails in both runs and is
    tried again by the resumed one. *)
Example flaky_resumed_run :
  (λ p, (p.1, labels_of "X" p.2, labels_of "Y" p.2,
         bool_decide ("b" ∈ processed_tags p.2),
         length (List.filter is_request (trace p.2))))
    <$> build_database dumps_unused 10 (serve flaky_server) storage_ok 5
          flaky_tags (init (disk (final_of flaky_saved)))
  = Some (Ret tt, Some (JArr [JStr "a"; JStr "c"]), Some (JArr [JStr "c"]),
          false, 2%nat).
Proof. vm_compute. reflexivity. Qed.

Lemma resume_equivalence_instance :
  deterministic (serve flaky_server)
  ∧ payloads_flatten dumps_unused (serve flaky_server)
  ∧ tags_wf (cards_db (init None))
  ∧ run_tags dumps_unused 10 (serve flaky_server) storage_ok 5
      (take 2 flaky_tags) (init None) = Some (Ret tt, final_of flaky_prefix)
  ∧ save_checkpoint storage_ok true (final_of flaky_prefix)
    = Some (Ret tt, final_of flaky_saved)
  ∧ final_view (build_database dumps_unused 10 (serve flaky_server) storage_ok
                  5 flaky_tags (init (disk (final_of flaky_saved))))
    = final_view (build_database dumps_unused 10 (serve flaky_server)
                    storage_ok 5 flaky_tags (init None)).
Proof.
  split; [apply serve_deterministic|].
  split; [exact flaky_payloads_flatten|].
  split; [exact tags_wf_empty|].
  split; [vm_compute; reflexivity|].
  split; [vm_compute; reflexivity|].
  apply (resume_equivalence dumps_unused 10 (serve flaky_server) storage_ok
           (serve_deterministic flaky_server) 5 flaky_tags 2 (init None)
           (final_of flaky_prefix) (final_of flaky_saved)).
  - exact flaky_payloads_flatten.
  - exact tags_wf_empty.
  - vm_compute; reflexivity.
  - vm_compute; reflexivity.
Defined.

(** * More of the code *)

(** ** [_make_request] *)

Section RequestProperties.

Variable json_dumps : json → string.
Variable recursion_limit : nat.
Variable upstream : list event → json → http_result.
Variable storage : list event → save_result.

Local Abbreviation make_request := (make_request upstream).
Local Abbreviation search_loop := (search_loop recursion_limit upstream).
Local Abbreviation search_tag := (search_tag recursion_limit upstream).
Local Abbreviation process_tag :=
  (process_tag json_dumps recursion_limit upstream storage).

Lemma extend_replicate_S (st : builder) (n : nat) (ev : event) :
  extend (extend st [ev]) (replicate n ev) = extend st (replicate (S n) ev).
Proof. by rewrite extend_extend. Qed.

(** X1.  Rate limiting.  When the first [n] answers to a request are 429 and
    the next one is a successful response, [_make_request] returns the
    body of that response after exactly [n + 1] requests of the same URL,
    as long as the interpreter allows [n] nested calls. *)
Theorem make_request_retries_429
    (retries n : nat) (url : json) (st : builder) (status : Z) (data : json) :
  (n ≤ retries)%nat →
  (∀ k, (k < n)%nat →
        ∃ body, upstream (trace st ++ replicate k (EvRequest url)) url
                = Response 429 body) →
  upstream (trace st ++ replicate n (EvRequest url)) url
  = Response status (Some data) →
  successful status = true →
  make_request retries url st
  = Some (Ret data, extend st (replicate (S n) (EvRequest url))).
Proof.
  revert retries st.
  induction n as [|n IH]; intros retries st Hle Hlimited Hanswer Hok.
  { simpl in Hanswer. rewrite app_nil_r in Hanswer.
    by eapply make_request_successful. }
  destruct retries as [|retries]; [lia|].
  destruct (Hlimited 0%nat ltac:(lia)) as [body Hfirst].
  simpl in Hfirst. rewrite app_nil_r in Hfirst.
  simpl. rewrite Hfirst. simpl.
  rewrite (IH retries (log (EvRequest url) st)); try done; try lia.
  - by rewrite log_extend, extend_replicate_S.
  - intros k Hk. destruct (Hlimited (S k) ltac:(lia)) as [body' Hk'].
    exists body'. simpl. by rewrite <-app_assoc.
  - simpl. by rewrite <-app_assoc.
Qed.

(** A request that is answered 429 for ever ends in [RecursionError]
    once the nested calls are used up, after [retries + 1] requests. *)
Lemma make_request_always_429 (retries : nat) (url : json) (st : builder) :
  (∀ h, ∃ body, upstream h url = Response 429 body) →
  make_request retries url st
  = Some (Raise RecursionError,
          extend st (replicate (S retries) (EvRequest url))).
Proof.
  intros Hlimited. revert st.
  induction retries as [|retries IH]; intros st; simpl;
    destruct (Hlimited (trace st)) as [body ->]; simpl; [done|].
  by rewrite IH, log_extend, extend_replicate_S.
Qed.

(** X2.  A label whose search is rate-limited for ever does not hang the run
    nor end it: after [recursion_limit + 1] requests [_process_tag]
    returns 0, with the accumulator, the processed set and the checkpoint
    file as they were; the label stays unprocessed. *)
Theorem rate_limited_label_is_skipped
    (fuel : nat) (tag : string) (st : builder) :
  tag ∉ processed_tags st →
  (∀ h, ∃ body, upstream h (JStr (search_url tag)) = Response 429 body) →
  (1 ≤ fuel)%nat →
  process_tag fuel tag st
  = Some (Ret 0%nat,
          extend st (replicate (S recursion_limit)
                               (EvRequest (JStr (search_url tag))))).
Proof.
  intros Hnew Hlimited Hfuel. destruct fuel as [|fuel]; [lia|].
  unfold process_tag, try_except, process_tag_body, bind.
  rewrite decide_False by done.
  change (search_tag (S fuel) tag st)
    with (search_loop (S fuel) (JStr (search_url tag)) [] st).
  simpl. by rewrite (make_request_always_429 _ _ _ Hlimited).
Qed.

(** X3.  [_make_request] returns nothing but the JSON body of a response whose
    status is neither 429 nor in 400..599: the body of an error response
    is never handed to the caller. *)
Theorem make_request_returns_good_status
    (retries : nat) (url : json) (st st' : builder) (data : json) :
  make_request retries url st = Some (Ret data, st') →
  ∃ h status,
    upstream h url = Response status (Some data)
    ∧ status ≠ 429%Z ∧ ¬ (400 ≤ status < 600)%Z.
Proof.
  revert st. induction retries as [|retries IH]; intros st; simpl.
  all: destruct (upstream (trace st) url) as [status body| |] eqn:Hup;
    try done.
  all: destruct (status =? 429)%Z eqn:H429; [first [done|apply IH]|].
  all: destruct ((400 <=? status) && (status <? 600))%Z eqn:Herr; [done|].
  all: destruct body as [data'|]; [|done].
  all: intros [= <- <-]; exists (trace st), status.
  all: split; [done|]; split; lia.
Qed.

End RequestProperties.

(** ** [_search_tag] *)

Section SearchProperties.

Variable json_dumps : json → string.
Variable recursion_limit : nat.
Variable upstream : list event → json → http_result.
Variable storage : list event → save_result.

Local Abbreviation search_loop := (search_loop recursion_limit upstream).
Local Abbreviation search_tag := (search_tag recursion_limit upstream).
Local Abbreviation process_tag :=
  (process_tag json_dumps recursion_limit upstream storage).

Lemma search_tag_unfold (fuel : nat) (tag : string) (st : builder) :
  search_tag fuel tag st = search_loop fuel (JStr (search_url tag)) [] st.
Proof. reflexivity. Qed.

(** X4.  A successful response that is an object without ["data"] ends the
    fetch without an exception: the label is taken to have no entity,
    nothing is merged, and the label is marked processed. *)
Theorem page_without_data_is_empty
    (fuel : nat) (tag : string) (st : builder) (status : Z)
    (m : gmap string json) :
  tag ∉ processed_tags st →
  upstream (trace st) (JStr (search_url tag)) = Response status (Some (JObj m)) →
  successful status = true →
  m !! "data" = None →
  (1 ≤ fuel)%nat →
  search_tag fuel tag st
  = Some (Ret [], extend st [EvRequest (JStr (search_url tag))])
  ∧ ∃ st',
      process_tag fuel tag st = Some (Ret 0%nat, st')
      ∧ cards_db st' = cards_db st
      ∧ processed_tags st' = {[tag]} ∪ processed_tags st.
Proof.
  intros Hnew Hup Hok Hdata Hfuel. destruct fuel as [|fuel]; [lia|].
  assert (search_tag (S fuel) tag st
          = Some (Ret [], extend st [EvRequest (JStr (search_url tag))]))
    as Hsearch.
  { rewrite search_tag_unfold. simpl.
    rewrite (make_request_successful _ _ _ _ _ _ Hup Hok). simpl.
    by rewrite Hdata. }
  split; [done|].
  destruct (process_tag_merged json_dumps recursion_limit upstream storage
              (S fuel) tag st _ [] (cards_db st) Hnew Hsearch eq_refl)
    as (n & st' & Hrun & Hn & Hdb & Hproc).
  exists st'. replace n with 0%nat in Hrun by (by destruct Hn). done.
Qed.

(** X5.  The fetch ends with a page when the page does not say both that there
    is more and where: with [has_more] true but no usable [next_page],
    or with [next_page] given but [has_more] false or missing, the
    entities of the page are returned and no further request is made. *)
Theorem search_tag_stops_without_continuation
    (fuel : nat) (tag : string) (st : builder) (status : Z)
    (m : gmap string json) (d : list json) :
  upstream (trace st) (JStr (search_url tag)) = Response status (Some (JObj m)) →
  successful status = true →
  m !! "data" = Some (JArr d) →
  truthy (dict_get m "has_more") && truthy (dict_get m "next_page") = false →
  (1 ≤ fuel)%nat →
  search_tag fuel tag st
  = Some (Ret d, extend st [EvRequest (JStr (search_url tag))]).
Proof.
  intros Hup Hok Hdata Hstop Hfuel. destruct fuel as [|fuel]; [lia|].
  rewrite search_tag_unfold. simpl.
  rewrite (make_request_successful _ _ _ _ _ _ Hup Hok). simpl.
  rewrite Hdata. simpl.
  destruct (truthy (dict_get m "has_more")) eqn:Hmore; simpl in Hstop.
  - destruct fuel; simpl; by rewrite Hstop.
  - destruct fuel; by simpl.
Qed.

End SearchProperties.

(** ** [_flatten_card_data] *)

Lemma string_app_assoc (s1 s2 s3 : string) :
  (s1 +:+ s2) +:+ s3 = s1 +:+ s2 +:+ s3.
Proof.
  induction s1 as [|c s1 IH]; [done|].
  change (String c ((s1 +:+ s2) +:+ s3) = String c (s1 +:+ s2 +:+ s3)).
  by rewrite IH.
Qed.

Lemma all_digits_app (s1 s2 : string) :
  all_digits (s1 +:+ s2) = all_digits s1 && all_digits s2.
Proof.
  induction s1 as [|c s1 IH]; [done|].
  change (is_digit c && all_digits (s1 +:+ s2)
          = is_digit c && all_digits s1 && all_digits s2).
  by rewrite IH, andb_assoc.
Qed.

Lemma pretty_N_char_digit (x : N) : is_digit (pretty_N_char x) = true.
Proof. unfold pretty_N_char. by repeat case_match. Qed.

Lemma pretty_N_go_digits (x : N) (s : string) :
  ∃ ds, pretty_N_go x s = ds +:+ s ∧ all_digits ds = true.
Proof.
  revert s. induction (N.lt_wf_0 x) as [x _ IH]; intros s.
  assert (x = 0 ∨ 0 < x)%N as [->|Hpos] by lia.
  { exists "". by rewrite pretty_N_go_0. }
  rewrite pretty_N_go_step by done.
  destruct (IH (x `div` 10)%N (N.div_lt x 10 Hpos eq_refl)
              (String (pretty_N_char (x `mod` 10)) s)) as (ds & -> & Hds).
  exists (ds +:+ String (pretty_N_char (x `mod` 10)) "").
  split.
  - by rewrite string_app_assoc.
  - rewrite all_digits_app, Hds. simpl. by rewrite pretty_N_char_digit.
Qed.

Lemma pretty_nat_digits (i : nat) : all_digits (pretty i) = true.
Proof.
  unfold pretty, pretty_nat, pretty, pretty_N.
  case_decide; [done|].
  destruct (pretty_N_go_digits (N.of_nat i) "") as (ds & -> & Hds).
  by rewrite all_digits_app, Hds.
Qed.

(** Digits followed by something that does not start with a digit split
    in one way only. *)
Lemma digits_app_inj (d1 d2 p q : string) (c1 c2 : Ascii.ascii) (p' q' : string) :
  all_digits d1 = true → all_digits d2 = true →
  p = String c1 p' → q = String c2 q' →
  is_digit c1 = false → is_digit c2 = false →
  d1 +:+ p = d2 +:+ q → d1 = d2 ∧ p = q.
Proof.
  intros Hd1 Hd2 -> -> Hc1 Hc2. revert d2 Hd2.
  induction d1 as [|a d1 IH]; intros [|b d2] Hd2; simpl in *.
  - done.
  - intros [= -> _]. apply andb_true_iff in Hd2 as [Hb _]. congruence.
  - intros [= -> _]. apply andb_true_iff in Hd1 as [Ha _]. congruence.
  - intros [= -> Hrest].
    apply andb_true_iff in Hd1 as [_ Hd1].
    apply andb_true_iff in Hd2 as [_ Hd2].
    destruct (IH Hd1 d2 Hd2 Hrest) as [-> ?]. done.
Qed.

Lemma face_part_head (part field : string) :
  (part, field) ∈ face_parts →
  ∃ c p', part = String c p' ∧ is_digit c = false.
Proof.
  unfold face_parts. intros Hp.
  repeat (apply elem_of_cons in Hp as [[= -> ->]|Hp]; [by eexists _, _|]).
  by apply elem_of_nil in Hp.
Qed.

(** The keys of the face fields are all different. *)
Lemma face_key_inj (i j : nat) (part part' field field' : string) :
  (part, field) ∈ face_parts → (part', field') ∈ face_parts →
  face_key i part = face_key j part' → i = j ∧ part = part'.
Proof.
  intros (c1 & p1 & Hc1 & Hn1)%face_part_head
         (c2 & p2 & Hc2 & Hn2)%face_part_head Hkey.
  unfold face_key in Hkey.
  apply (inj (String.app "face_")) in Hkey.
  destruct (digits_app_inj _ _ _ _ _ _ _ _ (pretty_nat_digits i)
              (pretty_nat_digits j) Hc1 Hc2 Hn1 Hn2 Hkey) as [Hij ->].
  split; [|done]. by apply (inj pretty).
Qed.

Lemma face_key_not_card_faces (i : nat) (part : string) :
  face_key i part ≠ "card_faces".
Proof. done. Qed.

Section FlattenProperties.

Variable json_dumps : json → string.

Local Abbreviation flat_value := (flat_value json_dumps).

(** The four assignments for face [i]. *)
Lemma face_fields_lookup (i : nat) (f : gmap string json) (init fl : record) :
  face_fields i (JObj f) init = Ret fl →
  (∀ part field, (part, field) ∈ face_parts →
      fl !! face_key i part = Some (default (JStr "") (f !! field)))
  ∧ (∀ k, (∀ part field, (part, field) ∈ face_parts → k ≠ face_key i part) →
      fl !! k = init !! k).
Proof.
  intros [= <-].
  assert (∀ p q f1 f2, (p, f1) ∈ face_parts → (q, f2) ∈ face_parts →
            p ≠ q → face_key i p ≠ face_key i q) as Hne.
  { intros p q f1 f2 Hp Hq Hpq Hkey.
    by destruct (face_key_inj _ _ _ _ _ _ Hp Hq Hkey). }
  assert (("_name", "name") ∈ face_parts) as H1 by (unfold face_parts; set_solver).
  assert (("_mana_cost", "mana_cost") ∈ face_parts) as H2
    by (unfold face_parts; set_solver).
  assert (("_type_line", "type_line") ∈ face_parts) as H3
    by (unfold face_parts; set_solver).
  assert (("_oracle_text", "oracle_text") ∈ face_parts) as H4
    by (unfold face_parts; set_solver).
  change ("face_" +:+ pretty i +:+ ?p) with (face_key i p).
  split.
  - intros part field Hin. unfold face_parts in Hin.
    repeat (apply elem_of_cons in Hin as [[= -> ->]|Hin]);
      [..|by apply elem_of_nil in Hin].
    + rewrite !lookup_insert_ne by (eapply Hne; done). by rewrite lookup_insert_eq.
    + rewrite !lookup_insert_ne by (eapply Hne; done). by rewrite lookup_insert_eq.
    + rewrite !lookup_insert_ne by (eapply Hne; done). by rewrite lookup_insert_eq.
    + by rewrite lookup_insert_eq.
  - intros k Hk. rewrite !lookup_insert_ne; [done|symmetry; eauto..].
Qed.

(** The loop over the faces: every face must be an object; the fields of
    face [i] end up under the keys of index [n + i]; no other key is
    touched. *)
Lemma faces_loop_lookup (n : nat) (faces : list json) (init fl : record) :
  faces_loop n faces init = Ret fl →
  (∀ i f part field,
      faces !! i = Some (JObj f) → (part, field) ∈ face_parts →
      fl !! face_key (n + i) part = Some (default (JStr "") (f !! field)))
  ∧ (∀ k, (∀ i part field, (i < length faces)%nat → (part, field) ∈ face_parts →
             k ≠ face_key (n + i) part) →
      fl !! k = init !! k).
Proof.
  revert n init. induction faces as [|face faces IH]; intros n init; simpl.
  { intros [= <-]. split; [intros i f part field Hi; by destruct i|done]. }
  destruct (face_fields n face init) as [fl1|e] eqn:Hface; [|done].
  destruct face as [| | | | | |f]; try done.
  destruct (face_fields_lookup _ _ _ _ Hface) as [Hhere Hother].
  intros [Hlater Hrest]%IH. split.
  - intros [|i] f' part field Hi Hin; simpl in Hi.
    + injection Hi as <-. rewrite Nat.add_0_r, Hrest; [by eapply Hhere|].
      intros i part' field' _ Hin' Hkey.
      destruct (face_key_inj _ _ _ _ _ _ Hin Hin' Hkey); lia.
    + replace (n + S i)%nat with (S n + i)%nat by lia. by eapply Hlater.
  - intros k Hk. rewrite Hrest, Hother; [done| |].
    + intros part field Hin. specialize (Hk 0%nat part field).
      rewrite Nat.add_0_r in Hk. apply Hk; [simpl; lia|done].
    + intros i part field Hi Hin.
      replace (S n + i)%nat with (n + S i)%nat by lia.
      apply (Hk (S i) part field); [simpl; lia|done].
Qed.

Lemma faces_loop_returns (n : nat) (faces : list json) (init : record) :
  match faces_loop n faces init with
  | Ret _ => forallb is_obj faces = true
  | Raise e => forallb is_obj faces = false ∧ e = AttributeError
  end.
Proof.
  revert n init. induction faces as [|face faces IH]; intros n init; simpl.
  { done. }
  destruct face; simpl; try done. apply IH.
Qed.

(** The loop over [card.items()]. *)
Lemma flatten_items_lookup (init : record) (card : gmap string json)
    (k : string) :
  map_fold (λ key value flattened,
              if String.eqb key "card_faces" then flattened
              else <[key := flat_value value]> flattened) init card !! k
  = match (if String.eqb k "card_faces" then None else card !! k) with
    | Some v => Some (flat_value v)
    | None => init !! k
    end.
Proof.
  revert k.
  apply (map_fold_weak_ind (λ r m, ∀ k,
           r !! k = match (if String.eqb k "card_faces" then None else m !! k) with
                    | Some v => Some (flat_value v)
                    | None => init !! k
                    end)).
  { intros k. rewrite lookup_empty. by destruct (String.eqb k "card_faces"). }
  intros i x m r Hfresh IH k.
  destruct (String.eqb i "card_faces") eqn:Hi.
  - apply String.eqb_eq in Hi as ->. rewrite IH.
    destruct (String.eqb k "card_faces") eqn:Hk; [done|].
    apply String.eqb_neq in Hk. by rewrite lookup_insert_ne.
  - apply String.eqb_neq in Hi.
    destruct (decide (i = k)) as [->|Hne].
    + rewrite !lookup_insert_eq.
      by apply String.eqb_neq in Hi as ->.
    + rewrite !lookup_insert_ne by done. apply IH.
Qed.

(** Whether [k] is the key of a field of one of the first [n] faces. *)
Lemma face_key_decide (k : string) (n : nat) :
  (∃ i part field, (i < n)%nat ∧ (part, field) ∈ face_parts
                   ∧ k = face_key i part)
  ∨ (∀ i part field, (i < n)%nat → (part, field) ∈ face_parts →
                     k ≠ face_key i part).
Proof.
  induction n as [|n [(i & part & field & Hi & Hin & ->)|IH]].
  - right. intros i part field Hi. lia.
  - left. exists i, part, field. split; [lia|done].
  - destruct (decide (Exists (λ pf, k = face_key n pf.1) face_parts))
      as [Hex|Hnone].
    + left. apply Exists_exists in Hex as ([part field] & Hin & ->).
      exists n, part, field. split; [lia|done].
    + right. intros i part field Hi Hin Hk.
      destruct (decide (i = n)) as [->|Hne].
      * apply Hnone, Exists_exists. by exists (part, field).
      * by apply (IH i part field ltac:(lia) Hin).
Qed.

(** X6.  What [_flatten_card_data] does when it fails: it returns exactly when
    ["card_faces"] is absent or iterates to objects only; a face that is
    not an object raises [AttributeError], a value that cannot be
    iterated raises [TypeError]. *)
Theorem flatten_card_data_returns (card : gmap string json) :
  match flatten_card_data json_dumps card with
  | Ret _ => faces_ok card = true
  | Raise e => faces_ok card = false ∧ (e = AttributeError ∨ e = TypeError)
  end.
Proof.
  unfold flatten_card_data, faces_ok.
  destruct (card !! "card_faces") as [v|]; [|done].
  destruct (py_iter v) as [faces|e] eqn:Hiter.
  - pose proof (faces_loop_returns 0 faces ∅) as Hloop.
    destruct (faces_loop 0 faces ∅); [done|].
    destruct Hloop as [? ->]. auto.
  - split; [done|]. right. destruct v; simpl in Hiter; congruence.
Qed.

(** The result of [_flatten_card_data] is the result of the loop over the
    faces, overwritten by the top-level fields. *)
Lemma flatten_card_data_lookup (card : gmap string json) (fl : record) :
  flatten_card_data json_dumps card = Ret fl →
  ∃ init : record,
    (∀ k, fl !! k
          = match (if String.eqb k "card_faces" then None else card !! k) with
            | Some v => Some (flat_value v)
            | None => init !! k
            end)
    ∧ init !! "card_faces" = None
    ∧ (card !! "card_faces" = None → init = ∅).
Proof.
  unfold flatten_card_data. intros Hfl.
  destruct (card !! "card_faces") as [v|].
  - destruct (py_iter v) as [faces|e]; [|done].
    destruct (faces_loop 0 faces ∅) as [init|e] eqn:Hloop; [|done].
    injection Hfl as <-. exists init.
    split; [intros k; apply flatten_items_lookup|]. split; [|done].
    destruct (faces_loop_lookup _ _ _ _ Hloop) as [_ Hother].
    rewrite Hother; [done|].
    intros i part field _ _. symmetry. apply face_key_not_card_faces.
  - injection Hfl as <-. exists ∅.
    split; [intros k; apply flatten_items_lookup|done].
Qed.

Lemma flatten_card_data_field (card : gmap string json) (fl : record)
    (k : string) (v : json) :
  flatten_card_data json_dumps card = Ret fl →
  k ≠ "card_faces" → card !! k = Some v → fl !! k = Some (flat_value v).
Proof.
  intros (init & Hlookup & _)%flatten_card_data_lookup Hk Hv.
  rewrite Hlookup. apply String.eqb_neq in Hk as ->. by rewrite Hv.
Qed.

(** X7.  The top-level fields.  When [_flatten_card_data] returns, every field
    of the payload but ["card_faces"] is in the result under its own name,
    a list or dict serialized by [json.dumps], so that none of these
    values is a list or dict; ["card_faces"] itself is not a key of the
    result; and for a payload without ["card_faces"] the result has no
    other key. *)
Theorem flatten_top_level_fields (card : gmap string json) (fl : record) :
  flatten_card_data json_dumps card = Ret fl →
  fl !! "card_faces" = None
  ∧ (∀ k v, k ≠ "card_faces" → card !! k = Some v →
       fl !! k = Some (flat_value v) ∧ is_nested (flat_value v) = false)
  ∧ (card !! "card_faces" = None → fl = flat_value <$> card).
Proof.
  intros Hfl.
  destruct (flatten_card_data_lookup _ _ Hfl) as (init & Hlookup & Hinit & Hempty).
  split; [|split].
  - by rewrite Hlookup.
  - intros k v Hk Hv. split; [by eapply flatten_card_data_field|].
    by destruct v.
  - intros Hnone. apply map_eq. intros k.
    rewrite Hlookup, (Hempty Hnone), lookup_fmap, lookup_empty.
    destruct (String.eqb k "card_faces") eqn:Hk.
    + apply String.eqb_eq in Hk as ->. by rewrite Hnone.
    + by destruct (card !! k).
Qed.

(** X8.  The face fields.  For a payload whose ["card_faces"] is a list, the
    result holds for face [i] the four keys [face_i_name],
    [face_i_mana_cost], [face_i_type_line], [face_i_oracle_text] with the
    face's field, or [""] when the face lacks it, unless the payload
    itself has a top-level field of that name, which wins; and the result
    has no key besides the top-level fields and these. *)
Theorem flatten_face_fields
    (card : gmap string json) (faces : list json) (fl : record) :
  card !! "card_faces" = Some (JArr faces) →
  flatten_card_data json_dumps card = Ret fl →
  (∀ i f part field,
      faces !! i = Some (JObj f) → (part, field) ∈ face_parts →
      fl !! face_key i part
      = match card !! face_key i part with
        | Some v => Some (flat_value v)
        | None => Some (default (JStr "") (f !! field))
        end)
  ∧ (∀ k, is_Some (fl !! k) →
       (k ≠ "card_faces" ∧ is_Some (card !! k))
       ∨ ∃ i part field, (i < length faces)%nat ∧ (part, field) ∈ face_parts
                         ∧ k = face_key i part).
Proof.
  unfold flatten_card_data. intros Hfaces. rewrite Hfaces. simpl.
  destruct (faces_loop 0 faces ∅) as [init|e] eqn:Hloop; [|done].
  intros [= <-].
  destruct (faces_loop_lookup _ _ _ _ Hloop) as [Hface Hother].
  split.
  - intros i f part field Hi Hin. rewrite flatten_items_lookup.
    assert (String.eqb (face_key i part) "card_faces" = false) as ->.
    { apply String.eqb_neq, face_key_not_card_faces. }
    destruct (card !! face_key i part); [done|].
    by apply (Hface i f part field).
  - intros k. rewrite flatten_items_lookup.
    destruct (String.eqb k "card_faces") eqn:Hk.
    + apply String.eqb_eq in Hk as ->. rewrite Hother.
      * rewrite lookup_empty. by intros [? [=]].
      * intros i part field _ _. symmetry. apply face_key_not_card_faces.
    + apply String.eqb_neq in Hk.
      destruct (card !! k) as [v|]; [by left; eauto|].
      destruct (face_key_decide k (length faces)) as [Hyes|Hno]; [by right|].
      rewrite Hother; [|done]. rewrite lookup_empty. by intros [? [=]].
Qed.

End FlattenProperties.

(** ** [_add_or_update_card] over many merges *)

Lemma existsb_is_str_fmap (tag : string) (labels : list string) :
  existsb (is_str tag) (JStr <$> labels) = false → tag ∉ labels.
Proof.
  induction labels as [|t labels IH]; simpl; [by intros _ ?%elem_of_nil|].
  intros [Ht Hrest]%orb_false_iff. apply String.eqb_neq in Ht.
  intros [->|Hin]%elem_of_cons; [done|]. by apply IH.
Qed.

Lemma payload_id_lookup (m : gmap string json) (i : string) :
  payload_id (JObj m) = Some i → m !! "id" = Some (JStr i).
Proof.
  simpl. destruct (m !! "id") as [[]|]; try done. by intros [= ->].
Qed.

Section MergeInvariants.

Variable json_dumps : json → string.

Local Abbreviation add_or_update_card := (add_or_update_card json_dumps).
Local Abbreviation merge_seq := (merge_seq json_dumps).

Lemma frozen_refl (rec : record) : frozen rec rec.
Proof.
  split; [done|]. intros l Hl. exists []. by rewrite app_nil_r.
Qed.

Lemma frozen_trans (rec1 rec2 rec3 : record) :
  frozen rec1 rec2 → frozen rec2 rec3 → frozen rec1 rec3.
Proof.
  intros [Hf12 Ht12] [Hf23 Ht23]. split.
  - intros k Hk. by rewrite Hf23, Hf12.
  - intros l Hl. destruct (Ht12 l Hl) as [l' Hl'].
    destruct (Ht23 _ Hl') as [l'' Hl''].
    exists (l' ++ l''). by rewrite app_assoc.
Qed.

Lemma add_or_update_card_frozen (card : json) (tag : string) (db : cards)
    o db' :
  add_or_update_card card tag db = Some (o, db') →
  ∀ i rec, db !! i = Some rec →
           ∃ rec', db' !! i = Some rec' ∧ frozen rec rec'.
Proof.
  intros [->|[(j & m & fl & _ & _ & Hfresh & _ & _ & ->)
             |(j & rec0 & l & _ & Hdb & Htags & Hnew & _ & ->)]]%add_or_update_card_cases
    i rec Hi.
  - exists rec. split; [done|apply frozen_refl].
  - exists rec. rewrite lookup_insert_ne by congruence.
    split; [done|apply frozen_refl].
  - destruct (decide (j = i)) as [->|Hne].
    + rewrite Hdb in Hi. injection Hi as ->. rewrite lookup_insert_eq.
      eexists. split; [done|]. split.
      * intros k Hk. by rewrite lookup_insert_ne.
      * intros l0 Hl0. rewrite Hl0 in Htags. injection Htags as ->.
        exists [JStr tag]. by rewrite lookup_insert_eq.
    + exists rec. rewrite lookup_insert_ne by done.
      split; [done|apply frozen_refl].
Qed.

(** X9.  First payload wins.  Whatever is merged later, under whatever labels,
    an entity that is in the accumulator stays in it, none of its
    flattened fields is updated (a later payload of the same identifier
    contributes its label only), and its label list only grows at the
    end. *)
Theorem merge_seq_freezes_records
    (ops : list (json * string)) (db db' : cards) :
  merge_seq ops db = Some db' →
  ∀ i rec, db !! i = Some rec →
           ∃ rec', db' !! i = Some rec' ∧ frozen rec rec'.
Proof.
  revert db. induction ops as [|[card tag] ops IH]; intros db; simpl.
  { intros [= <-] i rec Hi. exists rec. split; [done|apply frozen_refl]. }
  destruct (add_or_update_card card tag db) as [[o db1]|] eqn:Hstep; [|done].
  intros Hrest i rec Hi.
  destruct (add_or_update_card_frozen _ _ _ _ _ Hstep i rec Hi)
    as (rec1 & Hi1 & Hf1).
  destruct (IH _ Hrest i rec1 Hi1) as (rec2 & Hi2 & Hf2).
  exists rec2. split; [done|]. by eapply frozen_trans.
Qed.

Lemma built_from_mono (ops ops' : list (json * string)) (i : string)
    (rec : record) :
  ops ⊆ ops' → built_from ops i rec → built_from ops' i rec.
Proof.
  intros Hsub (Hid & labels & Htags & Hnd & Hne & Hsrc).
  split; [done|]. exists labels. repeat split; try done.
  intros tag Hin. destruct (Hsrc tag Hin) as (card & Hop & Hcard).
  exists card. split; [by apply Hsub|done].
Qed.

Lemma add_or_update_card_built (seen : list (json * string)) (card : json)
    (tag : string) (db : cards) o db' :
  (∀ i rec, db !! i = Some rec → built_from seen i rec) →
  add_or_update_card card tag db = Some (o, db') →
  ∀ i rec, db' !! i = Some rec → built_from (seen ++ [(card, tag)]) i rec.
Proof.
  intros Hinv Hstep.
  assert (∀ i rec, db !! i = Some rec →
            built_from (seen ++ [(card, tag)]) i rec) as Hold.
  { intros i rec Hi. eapply built_from_mono; [|by apply Hinv]. set_solver. }
  apply add_or_update_card_cases in Hstep
    as [->|[(j & m & fl & -> & Hid & Hfresh & Hfl & _ & ->)
           |(j & rec0 & l & Hid & Hdb & Htags & Hnew & _ & ->)]];
    [done|..]; intros i rec.
  - destruct (decide (j = i)) as [->|Hne];
      [|rewrite lookup_insert_ne by done; apply Hold].
    rewrite lookup_insert_eq. intros [= <-]. split.
    + rewrite lookup_insert_ne by done.
      by rewrite (flatten_card_data_field json_dumps m fl "id" (JStr i) Hfl
                    ltac:(done) (payload_id_lookup _ _ Hid)).
    + exists [tag]. rewrite lookup_insert_eq. repeat split; try done.
      * apply NoDup_singleton.
      * intros t ->%list_elem_of_singleton. exists (JObj m).
        split; [set_solver|done].
  - destruct (decide (j = i)) as [->|Hne];
      [|rewrite lookup_insert_ne by done; apply Hold].
    rewrite lookup_insert_eq. intros [= <-].
    destruct (Hinv _ _ Hdb) as (Hrid & labels & Hlabels & Hnd & Hne & Hsrc).
    rewrite Hlabels in Htags. injection Htags as <-.
    apply existsb_is_str_fmap in Hnew.
    split; [by rewrite lookup_insert_ne|].
    exists (labels ++ [tag]). rewrite lookup_insert_eq, fmap_app.
    repeat split; try done.
    + apply NoDup_app. repeat split; [done| |apply NoDup_singleton].
      intros t Ht ->%list_elem_of_singleton. done.
    + by destruct labels.
    + intros t [Ht| ->%list_elem_of_singleton]%elem_of_app.
      * destruct (Hsrc t Ht) as (c & Hop & Hc). exists c.
        split; [set_solver|done].
      * exists card. split; [set_solver|done].
Qed.

Lemma merge_seq_built (ops seen : list (json * string)) (db db' : cards) :
  (∀ i rec, db !! i = Some rec → built_from seen i rec) →
  merge_seq ops db = Some db' →
  ∀ i rec, db' !! i = Some rec → built_from (seen ++ ops) i rec.
Proof.
  revert seen db. induction ops as [|[card tag] ops IH];
    intros seen db Hinv; simpl.
  { intros [= <-]. by rewrite app_nil_r. }
  destruct (add_or_update_card card tag db) as [[o db1]|] eqn:Hstep; [|done].
  intros Hrest i rec Hi.
  replace (seen ++ (card, tag) :: ops) with ((seen ++ [(card, tag)]) ++ ops)
    by (by rewrite <-app_assoc).
  eapply IH; [|done..]. by eapply add_or_update_card_built.
Qed.

(** X10.  The shape of the accumulator.  After any sequence of merges on an
    empty accumulator, every record sits under the identifier its own
    ["id"] field holds, and its ["tags"] is a non-empty list of strings
    without repeats, each of them a label under which a payload with that
    identifier was merged. *)
Theorem merge_seq_builds_records
    (ops : list (json * string)) (db : cards) :
  merge_seq ops ∅ = Some db →
  ∀ i rec, db !! i = Some rec → built_from ops i rec.
Proof.
  intros Hrun i rec Hi.
  apply (merge_seq_built ops [] ∅ db); [|done..].
  intros j r. by rewrite lookup_empty.
Qed.

End MergeInvariants.

(** ** The run loop, [build_database] and [main] *)

Lemma kept_frozen (tag : string) (rec rec' : record) :
  kept tag rec rec' → frozen rec rec'.
Proof.
  intros [->|(l & Htags & _ & ->)].
  { split; [done|]. intros l Hl. exists []. by rewrite app_nil_r. }
  split.
  - intros k Hk. by rewrite lookup_insert_ne.
  - intros l0 Hl0. rewrite Hl0 in Htags. injection Htags as ->.
    exists [JStr tag]. by rewrite lookup_insert_eq.
Qed.

Section RunProperties.

Variable json_dumps : json → string.
Variable recursion_limit : nat.
Variable upstream : list event → json → http_result.
Variable storage : list event → save_result.

Local Abbreviation save_checkpoint := (save_checkpoint storage).
Local Abbreviation process_tag :=
  (process_tag json_dumps recursion_limit upstream storage).
Local Abbreviation run_tags :=
  (run_tags json_dumps recursion_limit upstream storage).

(** What one call of [_process_tag] can do to the state, and how it can
    end. *)
Lemma process_tag_effect (fuel : nat) (tag : string) (st : builder) o st' :
  process_tag fuel tag st = Some (o, st') →
  processed_tags st ⊆ processed_tags st'
  ∧ processed_tags st' ⊆ {[tag]} ∪ processed_tags st
  ∧ (∀ i rec, cards_db st !! i = Some rec →
        ∃ rec', cards_db st' !! i = Some rec' ∧ frozen rec rec')
  ∧ (∀ e, o = Raise e → e = KeyboardInterrupt).
Proof.
  assert (∀ db : cards, ∀ i rec, db !! i = Some rec →
            ∃ rec', db !! i = Some rec' ∧ frozen rec rec') as Hsame.
  { intros db i rec Hi. exists rec. split; [done|].
    split; [done|]. intros l Hl. exists []. by rewrite app_nil_r. }
  intros [(_ & -> & ->)|(Hnew & reqs & Hreqs & Hcases)]%process_tag_cases.
  { repeat split; [done|set_solver|apply Hsame|done]. }
  destruct Hcases as [(e & Hsearch & -> & ->)
                     |[(found & e & db' & _ & Hmerge & -> & ->)
                      |(found & db' & _ & Hmerge & Hmark)]].
  - repeat split; [done|set_solver|apply Hsame|].
    intros e' He'. destruct e; simpl in He'; congruence.
  - repeat split; [done|set_solver| |done].
    intros i rec Hi.
    destruct (merge_cards_kept _ _ _ _ _ _ Hmerge i rec Hi) as (rec' & Hi' & Hk).
    exists rec'. split; [done|by eapply kept_frozen].
  - assert (processed_tags st' = {[tag]} ∪ processed_tags st
            ∧ cards_db st' = db' ∧ ∃ n, o = Ret n) as (Hproc & Hdb & n & ->).
    { destruct Hmark as [(_ & -> & ->)|(_ & o2 & n & Hsave & ->)].
      - by eauto.
      - destruct (save_checkpoint_frame storage false
                    (after_mark tag db' (extend st reqs)))
          as (o' & st2 & Hsave' & _ & Hdb & Hproc & _).
        rewrite Hsave in Hsave'. injection Hsave' as <- <-.
        rewrite Hdb, Hproc. by eauto. }
    rewrite Hproc, Hdb. repeat split; [set_solver|set_solver| |done].
    intros i rec Hi.
    destruct (merge_cards_kept _ _ _ _ _ _ Hmerge i rec Hi) as (rec' & Hi' & Hk).
    exists rec'. split; [done|by eapply kept_frozen].
Qed.

(** X11.  Over a run.  The processed set only grows, and only by labels of the
    tag list; no entity leaves the accumulator and none of its flattened
    fields changes; and the loop lets no exception through but the user's
    interruption: no failure of a label ends the run. *)
Theorem run_tags_only_grows
    (fuel : nat) (tags : list string) (st : builder) o st' :
  run_tags fuel tags st = Some (o, st') →
  processed_tags st ⊆ processed_tags st'
  ∧ processed_tags st' ⊆ processed_tags st ∪ list_to_set tags
  ∧ (∀ i rec, cards_db st !! i = Some rec →
        ∃ rec', cards_db st' !! i = Some rec' ∧ frozen rec rec')
  ∧ (∀ e, o = Raise e → e = KeyboardInterrupt).
Proof.
  revert st. induction tags as [|tag tags IH]; intros st; simpl.
  { intros [= <- <-]. repeat split; [done|set_solver| |done].
    intros i rec Hi. exists rec. split; [done|].
    split; [done|]. intros l Hl. exists []. by rewrite app_nil_r. }
  destruct (decide (tag ∈ processed_tags st)) as [Hin|Hnew].
  { intros (Hsub & Hbound & Hrec & Hexc)%IH.
    repeat split; [done|set_solver|done|done]. }
  unfold bind.
  destruct (process_tag fuel tag st) as [[[n|e] st1]|] eqn:Hstep; [| |done].
  - destruct (process_tag_effect _ _ _ _ _ Hstep) as (Hsub1 & Hbound1 & Hrec1 & _).
    intros (Hsub & Hbound & Hrec & Hexc)%IH.
    repeat split; [set_solver|set_solver| |done].
    intros i rec Hi. destruct (Hrec1 i rec Hi) as (rec1 & Hi1 & Hf1).
    destruct (Hrec i rec1 Hi1) as (rec2 & Hi2 & Hf2).
    exists rec2. split; [done|].
    destruct Hf1 as [Hf1 Ht1], Hf2 as [Hf2 Ht2]. split.
    + intros k Hk. by rewrite Hf2, Hf1.
    + intros l Hl. destruct (Ht1 l Hl) as [l' Hl'].
      destruct (Ht2 _ Hl') as [l'' Hl''].
      exists (l' ++ l''). by rewrite app_assoc.
  - intros [= <- <-].
    destruct (process_tag_effect _ _ _ _ _ Hstep) as (Hsub1 & Hbound1 & Hrec1 & Hexc1).
    repeat split; [done|set_solver|done|].
    intros e' [= <-]. by apply Hexc1.
Qed.

(** A run over labels that are all processed does nothing. *)
Lemma run_tags_all_processed (fuel : nat) (tags : list string) (st : builder) :
  list_to_set tags ⊆ processed_tags st →
  run_tags fuel tags st = Some (Ret tt, st).
Proof.
  induction tags as [|tag tags IH]; simpl; [done|]. intros Hsub.
  rewrite decide_True by set_solver. apply IH. set_solver.
Qed.

(** X12.  After a run that got through its final save.  The checkpoint file
    holds the final state: a fresh engine over it starts with the entity
    table and the processed set the run ended with.  And when every
    label of the tag list was processed, running again makes no request:
    up to the export, the whole run is the final save, and the
    accumulator is the one of the first run. *)
Theorem completed_run_round_trip
    (fuel : nat) (all_tags : list string) (st0 st1 : builder) :
  build_database json_dumps recursion_limit upstream storage fuel all_tags st0
  = Some (Ret tt, st1) →
  cards_db (init (disk st1)) = cards_db st1
  ∧ processed_tags (init (disk st1)) = processed_tags st1
  ∧ (list_to_set all_tags ⊆ processed_tags st1 →
     ∀ fuel', ∃ o st2,
       build_database json_dumps recursion_limit upstream storage fuel'
         all_tags (init (disk st1)) = Some (o, st2)
       ∧ trace st2 = [EvSave true]
       ∧ cards_db st2 = cards_db st1
       ∧ processed_tags st2 = processed_tags st1).
Proof.
  unfold build_database, bind.
  destruct (run_tags fuel all_tags st0) as [[[[]|e] st']|] eqn:Hloop; [|done..].
  intros Hsave. pose proof Hsave as [Hdb Hproc]%save_then_init.
  destruct (save_checkpoint_frame storage true st')
    as (o' & st2 & Hsave' & _ & Hdb' & Hproc' & _).
  rewrite Hsave in Hsave'. injection Hsave' as <- <-.
  rewrite Hdb, Hproc, Hdb', Hproc'. split; [done|]. split; [done|].
  intros Hall fuel'.
  rewrite (run_tags_all_processed fuel' all_tags (init (disk st1)))
    by (by rewrite Hproc).
  destruct (save_checkpoint_frame storage true (init (disk st1)))
    as (o & st3 & -> & _ & Hdb3 & Hproc3 & Htrace3).
  exists o, st3. split; [done|].
  rewrite Htrace3, Hdb3, Hproc3, Hdb, Hproc.
  split; [|done]. unfold init, load_checkpoint. simpl.
  by destruct (disk st1) as [[]|].
Qed.

End RunProperties.

(** ** The tag list of [__init__] *)

#[global] Instance item_le_total : Total item_le.
Proof. intros a b. unfold item_le. apply (total String.le). Qed.

#[global] Instance item_le_trans : Transitive item_le.
Proof. intros a b c. unfold item_le. apply (transitivity (R := String.le)). Qed.

Lemma StronglySorted_item_keys (items : list (string * list string)) :
  StronglySorted item_le items → StronglySorted String.le items.*1.
Proof.
  induction 1 as [|item items Hitems IH Hitem]; [constructor|].
  rewrite fmap_cons. constructor; [done|].
  apply Forall_fmap. by eapply Forall_impl.
Qed.

(** The items of the tags file, in the order [sorted] puts them. *)
Lemma sorted_items (tags_by_letter : gmap string (list string)) :
  let items := merge_sort item_le (map_to_list tags_by_letter) in
  items ≡ₚ map_to_list tags_by_letter
  ∧ StronglySorted item_le items
  ∧ NoDup items.*1
  ∧ ∀ c tags, (c, tags) ∈ items ↔ tags_by_letter !! c = Some tags.
Proof.
  intros items.
  pose proof (merge_sort_Permutation item_le (map_to_list tags_by_letter))
    as Hperm.
  split; [done|]. split; [apply (StronglySorted_merge_sort _)|]. split.
  - unfold items. rewrite Hperm. apply NoDup_fst_map_to_list.
  - intros c tags. unfold items. by rewrite Hperm, elem_of_map_to_list.
Qed.

(** X13.  The tag list.  [__init__] makes [all_tags] the lists of the
    categories of the tags file put one after the other, each list as
    the file has it, the categories in increasing order, each category
    once.  So [all_tags] holds every label as often as the file has it,
    the labels of a category stay together in the order of the file,
    and the labels of a category that sorts lower all come before the
    labels of one that sorts higher. *)
Theorem load_tags_by_category (tags_by_letter : gmap string (list string)) :
  (∃ categories,
      StronglySorted String.le categories
      ∧ NoDup categories
      ∧ (∀ c, c ∈ categories ↔ is_Some (tags_by_letter !! c))
      ∧ load_tags tags_by_letter
        = concat ((λ c, default [] (tags_by_letter !! c)) <$> categories))
  ∧ load_tags tags_by_letter ≡ₚ concat (map_to_list tags_by_letter).*2
  ∧ (∀ c tags,
       tags_by_letter !! c = Some tags →
       ∃ before after, load_tags tags_by_letter = before ++ tags ++ after)
  ∧ ∀ c1 c2 tags1 tags2,
      tags_by_letter !! c1 = Some tags1 →
      tags_by_letter !! c2 = Some tags2 →
      String.le c1 c2 → c1 ≠ c2 →
      ∃ before between after,
        load_tags tags_by_letter
        = before ++ tags1 ++ between ++ tags2 ++ after.
Proof.
  unfold load_tags.
  destruct (sorted_items tags_by_letter) as (Hperm & Hsorted & Hnd & Hitems).
  split; [|split; [|split]].
  - exists (merge_sort item_le (map_to_list tags_by_letter)).*1.
    split; [by apply StronglySorted_item_keys|]. split; [done|]. split.
    + intros c. rewrite list_elem_of_fmap. split.
      * intros ([c' tags] & -> & Hin). apply Hitems in Hin. by eexists.
      * intros [tags Hc]. exists (c, tags). split; [done|]. by apply Hitems.
    + f_equal. rewrite <-list_fmap_compose. apply Forall_fmap_ext_1.
      apply Forall_forall. intros [c tags] Hin. simpl.
      apply Hitems in Hin. by rewrite Hin.
  - by rewrite Hperm.
  - intros c tags Hc. apply Hitems in Hc.
    destruct (list_elem_of_split _ _ Hc) as (l1 & l2 & ->).
    exists (concat l1.*2), (concat l2.*2).
    by rewrite fmap_app, concat_app, fmap_cons, concat_cons.
  - intros c1 c2 tags1 tags2 H1 H2 Hle Hne.
    apply Hitems in H1, H2.
    destruct (list_elem_of_split _ _ H1) as (l1 & r & Hsplit).
    rewrite Hsplit in H2, Hsorted |- *.
    apply StronglySorted_app in Hsorted as (Hcross & _ & _).
    apply elem_of_app in H2 as [H2|H2].
    { exfalso. apply Hne.
      apply (anti_symm String.le); [done|].
      apply (Hcross (c2, tags2) (c1, tags1)); [done|]. by left. }
    apply elem_of_cons in H2 as [[= -> ->]|H2]; [done|].
    destruct (list_elem_of_split _ _ H2) as (l2 & l3 & ->).
    exists (concat l1.*2), (concat l2.*2), (concat l3.*2).
    rewrite fmap_app, concat_app, fmap_cons, concat_cons.
    by rewrite fmap_app, concat_app, fmap_cons, concat_cons.
Qed.

(** ** [export_to_csv] *)

Lemma all_fields_spec (db : cards) (field : string) :
  field ∈ all_fields db
  ↔ ∃ i card_data, db !! i = Some card_data ∧ is_Some (card_data !! field).
Proof.
  unfold all_fields.
  apply (map_fold_weak_ind
    (λ (acc : gset string) (m : cards),
       field ∈ acc
       ↔ ∃ i card_data, m !! i = Some card_data
                        ∧ is_Some (card_data !! field))).
  - split; [set_solver|]. intros (i & c & Hi & _).
    by rewrite lookup_empty in Hi.
  - intros i card_data m acc Hfresh IH.
    rewrite elem_of_union, elem_of_dom, IH. split.
    + intros [Hhere|(j & c & Hj & Hc)].
      * exists i, card_data. by rewrite lookup_insert_eq.
      * exists j, c. split; [|done].
        rewrite lookup_insert_ne; [done|]. intros ->. congruence.
    + intros (j & c & Hj & Hc).
      destruct (decide (i = j)) as [->|Hne].
      * rewrite lookup_insert_eq in Hj. injection Hj as ->. by left.
      * rewrite lookup_insert_ne in Hj by done. right. by exists j, c.
Qed.

Lemma remove_first_NoDup (x : string) (l : list string) :
  NoDup l → remove_first x l = filter (λ y, y ≠ x) l.
Proof.
  induction 1 as [|y l Hy Hnd IH]; [done|]. simpl.
  destruct (decide (x = y)) as [->|Hne].
  - rewrite filter_cons_False by (intros Hy'; by apply Hy').
    clear IH Hnd. induction l as [|z l IHl]; [done|].
    apply not_elem_of_cons in Hy as [Hz Hy].
    rewrite filter_cons_True by (intros ->; by apply Hz).
    f_equal. by apply IHl.
  - rewrite filter_cons_True by (intros ->; by apply Hne). by rewrite IH.
Qed.

Lemma filter_id_Forall (P : string → Prop) `{!∀ x, Decision (P x)}
    (l : list string) :
  (∀ x, x ∈ l → P x) → filter P l = l.
Proof.
  induction l as [|y l IH]; intros Hall; [done|].
  rewrite filter_cons_True by (apply Hall; by left).
  f_equal. apply IH. intros x Hx. apply Hall. by right.
Qed.

Lemma filter_iff_in (P Q : string → Prop)
    `{!∀ x, Decision (P x), !∀ x, Decision (Q x)} (l : list string) :
  (∀ x, x ∈ l → P x ↔ Q x) → filter P l = filter Q l.
Proof.
  induction l as [|y l IH]; intros Hall; [done|].
  assert (filter P l = filter Q l) as Htail.
  { apply IH. intros x Hx. apply Hall. by right. }
  rewrite !filter_cons, Htail.
  apply decide_ext, Hall. by left.
Qed.

(** The loop over [reversed(priority)] on a list of names without
    repeats: the priority names that occur come first, in the order of
    [priority], and the other names follow in the order they had. *)
Lemma move_to_front_loop (names priority : list string) :
  NoDup names → NoDup priority →
  foldl move_to_front names (reverse priority)
  = filter (λ f, f ∈ names) priority ++ filter (λ f, f ∉ priority) names.
Proof.
  intros Hnames. induction 1 as [|p ps Hp Hps IH].
  { simpl. symmetry. apply filter_id_Forall. intros x _. apply not_elem_of_nil. }
  rewrite reverse_cons, foldl_snoc, IH. unfold move_to_front.
  assert (NoDup (filter (λ f, f ∈ names) ps ++ filter (λ f, f ∉ ps) names))
    as Hnd.
  { apply NoDup_app. repeat split; [by apply NoDup_filter| |by apply NoDup_filter].
    intros x [_ Hx]%list_elem_of_filter [Hx' _]%list_elem_of_filter. done. }
  destruct (decide (p ∈ names)) as [Hin|Hout].
  - rewrite decide_True
      by (apply elem_of_app; right; by apply list_elem_of_filter).
    rewrite filter_cons_True by done. simpl. f_equal.
    rewrite remove_first_NoDup by done. rewrite filter_app. f_equal.
    + apply filter_id_Forall. intros x [_ Hx]%list_elem_of_filter ->. done.
    + rewrite list_filter_filter. apply list_filter_iff. intros x.
      rewrite not_elem_of_cons. tauto.
  - rewrite decide_False.
    2:{ intros [[_ Hx]%list_elem_of_filter|[_ Hx]%list_elem_of_filter]%elem_of_app;
          done. }
    rewrite filter_cons_False by done. f_equal.
    apply filter_iff_in. intros x Hx. rewrite not_elem_of_cons.
    split; [|tauto]. intros Hx'. split; [by intros ->|done].
Qed.

Lemma StronglySorted_filter (P : string → Prop) `{!∀ x, Decision (P x)}
    (l : list string) :
  StronglySorted String.le l → StronglySorted String.le (filter P l).
Proof.
  induction 1 as [|y l Hl IH Hy]; [constructor|].
  rewrite filter_cons. destruct (decide (P y)); [|done].
  constructor; [done|].
  apply Forall_forall. intros x [_ Hx]%list_elem_of_filter.
  by apply (proj1 (Forall_forall _ _) Hy).
Qed.

Lemma PRIORITY_FIELDS_NoDup : NoDup PRIORITY_FIELDS.
Proof. apply (bool_decide_unpack _). by vm_compute. Qed.

Lemma sorted_fields_NoDup (db : cards) :
  NoDup (merge_sort String.le (elements (all_fields db))).
Proof. rewrite merge_sort_Permutation. apply NoDup_elements. Qed.

(** X14.  The columns of the table.  The header [export_to_csv] writes has
    every field name that some record of the accumulator has, once, and
    no other name. *)
Theorem fieldnames_are_the_fields (db : cards) :
  NoDup (fieldnames db)
  ∧ ∀ field,
      field ∈ fieldnames db
      ↔ ∃ i card_data,
          db !! i = Some card_data ∧ is_Some (card_data !! field).
Proof.
  unfold fieldnames.
  rewrite move_to_front_loop
    by (apply sorted_fields_NoDup || apply PRIORITY_FIELDS_NoDup).
  split.
  - apply NoDup_app. repeat split.
    + apply NoDup_filter, PRIORITY_FIELDS_NoDup.
    + intros x [_ Hx]%list_elem_of_filter [Hx' _]%list_elem_of_filter. done.
    + apply NoDup_filter, sorted_fields_NoDup.
  - intros field. rewrite <-all_fields_spec, elem_of_app.
    rewrite !list_elem_of_filter, merge_sort_Permutation, elem_of_elements.
    destruct (decide (field ∈ PRIORITY_FIELDS)); tauto.
Qed.

(** X15.  The order of the columns.  The header starts with the priority
    fields that some record has, in the order of [PRIORITY_FIELDS]; the
    other field names follow, sorted. *)
Theorem fieldnames_priority_first (db : cards) :
  ∃ others,
    fieldnames db
    = filter (λ f, f ∈ all_fields db) PRIORITY_FIELDS ++ others
    ∧ StronglySorted String.le others
    ∧ ∀ field, field ∈ others
               ↔ field ∈ all_fields db ∧ field ∉ PRIORITY_FIELDS.
Proof.
  exists (filter (λ f, f ∉ PRIORITY_FIELDS)
            (merge_sort String.le (elements (all_fields db)))).
  split; [|split].
  - unfold fieldnames.
    rewrite move_to_front_loop
      by (apply sorted_fields_NoDup || apply PRIORITY_FIELDS_NoDup).
    f_equal. apply list_filter_iff. intros f.
    by rewrite merge_sort_Permutation, elem_of_elements.
  - apply StronglySorted_filter, (StronglySorted_merge_sort _).
  - intros field.
    rewrite list_elem_of_filter, merge_sort_Permutation, elem_of_elements.
    tauto.
Qed.

(** *** The rows and the tags cell *)

Lemma as_strs_fmap (labels : list string) :
  as_strs (JStr <$> labels) = Some labels.
Proof.
  induction labels as [|t labels IH]; [done|].
  change (as_strs (JStr <$> t :: labels))
    with (cons t <$> as_strs (JStr <$> labels)).
  by rewrite IH.
Qed.

Lemma has_char_cons (sep c : Ascii.ascii) (s : string) :
  has_char sep (String c s) = Ascii.eqb sep c || has_char sep s.
Proof. reflexivity. Qed.

Lemma split_on_cons (sep c : Ascii.ascii) (s : string) :
  split_on sep (String c s)
  = if Ascii.eqb c sep then "" :: split_on sep s
    else match split_on sep s with
         | head :: tail => String c head :: tail
         | [] => [String c ""]
         end.
Proof. reflexivity. Qed.

Lemma split_on_no_sep (sep : Ascii.ascii) (s : string) :
  has_char sep s = false → split_on sep s = [s].
Proof.
  induction s as [|c s IH]; [done|].
  rewrite has_char_cons, split_on_cons.
  intros [Hc Hs]%orb_false_iff.
  rewrite Ascii.eqb_sym, Hc. by rewrite IH.
Qed.

Lemma split_on_sep (sep : Ascii.ascii) (s rest : string) :
  has_char sep s = false →
  split_on sep (s +:+ String sep rest) = s :: split_on sep rest.
Proof.
  induction s as [|c s IH].
  { intros _. change ("" +:+ String sep rest) with (String sep rest).
    by rewrite split_on_cons, Ascii.eqb_refl. }
  rewrite has_char_cons. intros [Hc Hs]%orb_false_iff.
  change (String c s +:+ String sep rest)
    with (String c (s +:+ String sep rest)).
  rewrite split_on_cons, Ascii.eqb_sym, Hc. by rewrite IH.
Qed.

Lemma split_on_join (labels : list string) :
  labels ≠ [] →
  Forall (λ t, has_char comma t = false) labels →
  split_on comma (py_join "," labels) = labels.
Proof.
  intros Hne Hall. induction Hall as [|t labels Ht Hall IH]; [done|].
  destruct labels as [|t' labels]; [by apply split_on_no_sep|].
  change (py_join "," (t :: t' :: labels))
    with (t +:+ String comma (py_join "," (t' :: labels))).
  rewrite split_on_sep by done. f_equal. by apply IH.
Qed.

Lemma py_join_nonempty (t : string) (labels : list string) :
  t ≠ "" → py_join "," (t :: labels) ≠ "".
Proof.
  intros Ht. destruct labels as [|t' labels]; [done|].
  change (py_join "," (t :: t' :: labels))
    with (t +:+ "," +:+ py_join "," (t' :: labels)).
  by destruct t.
Qed.

Section ExportProperties.

Variable json_dumps : json → string.
Variable strip : string → string.

Local Abbreviation merge_seq := (merge_seq json_dumps).

(** A label that the table carries unharmed: not empty, without a comma
    and without white space around it. *)
Local Abbreviation plain := (λ t : string,
  t ≠ "" ∧ has_char comma t = false ∧ strip t = t).

Lemma parse_tags_join (labels : list string) :
  Forall plain labels → parse_tags strip (py_join "," labels) = labels.
Proof.
  intros Hall. unfold parse_tags.
  destruct labels as [|t labels]; [done|].
  assert (py_join "," (t :: labels) ≠ "") as Hne.
  { apply py_join_nonempty. by inversion Hall as [|? ? [? _]]. }
  apply String.eqb_neq in Hne. rewrite Hne.
  rewrite split_on_join; [|done|].
  2:{ eapply Forall_impl; [done|]. by intros x (_ & ? & _). }
  generalize (t :: labels) Hall. clear. intros l.
  induction 1 as [|x l (Hx & _ & Hfix) Hall IH]; [done|].
  rewrite fmap_cons, Hfix, filter_cons_True by done. by rewrite IH.
Qed.

(** X16.  The tags cell, written and read back.  For a record whose labels are
    strings that are not empty, have no comma and no white space around
    them, [export_to_csv] builds the row with the labels joined by
    commas in ["tags"], and the tag parsing of [analyze_tag_frequency]
    gives the labels back from that string, in order. *)
Theorem exported_tags_round_trip
    (card_data : record) (labels : list string) :
  card_data !! "tags" = Some (JArr (JStr <$> labels)) →
  Forall plain labels →
  ∃ tags_str,
    export_row card_data = Ret (<["tags" := JStr tags_str]> card_data)
    ∧ parse_tags strip tags_str = labels.
Proof.
  intros Htags Hall. exists (py_join "," labels).
  unfold export_row. rewrite Htags, as_strs_fmap.
  split; [done|]. by apply parse_tags_join.
Qed.

(** X17.  Export after a fresh run.  Every record of an accumulator built by
    merges from the empty one exports: the join of its labels raises no
    [TypeError], the row has the fields of the record, and its ["tags"]
    is a string. *)
Theorem built_records_export
    (ops : list (json * string)) (db : cards) (i : string) (rec : record) :
  merge_seq ops ∅ = Some db →
  db !! i = Some rec →
  ∃ row tags_str,
    export_row rec = Ret row
    ∧ row !! "tags" = Some (JStr tags_str)
    ∧ (∀ k, k ≠ "tags" → row !! k = rec !! k).
Proof.
  intros Hrun Hi.
  destruct (merge_seq_built json_dumps ops [] ∅ db) with (i := i) (rec := rec)
    as (_ & labels & Htags & _); [|done..|].
  { intros j r. by rewrite lookup_empty. }
  exists (<["tags" := JStr (py_join "," labels)]> rec), (py_join "," labels).
  unfold export_row. rewrite Htags, as_strs_fmap.
  split; [done|]. split; [by rewrite lookup_insert_eq|].
  intros k Hk. by rewrite lookup_insert_ne.
Qed.

End ExportProperties.

(** ** [run_pipeline.py] *)

Lemma pipeline_loop_skip (start_from : nat) (returncode : nat → Z)
    (i remaining : nat) :
  (i + remaining < start_from + 1)%nat →
  pipeline_loop start_from returncode i remaining = ([], None).
Proof.
  revert i. induction remaining as [|remaining IH]; intros i Hi; [done|].
  simpl. destruct (Nat.ltb_spec i start_from) as [_|Hge]; [|lia].
  apply IH. lia.
Qed.

Lemma pipeline_loop_from (start_from : nat) (returncode : nat → Z)
    (i remaining : nat) :
  (i ≤ start_from)%nat → (start_from ≤ i + remaining)%nat →
  pipeline_loop start_from returncode i remaining
  = pipeline_loop start_from returncode start_from
      (i + remaining - start_from).
Proof.
  revert i. induction remaining as [|remaining IH]; intros i Hi Hle.
  { replace (i + 0 - start_from)%nat with 0%nat by lia. done. }
  destruct (decide (i = start_from)) as [->|Hne].
  { f_equal. lia. }
  simpl. destruct (Nat.ltb_spec i start_from) as [_|Hge]; [|lia].
  rewrite IH by lia. f_equal. lia.
Qed.

Lemma pipeline_loop_fails (start_from : nat) (returncode : nat → Z)
    (n i remaining : nat) :
  (start_from ≤ i)%nat → (n < remaining)%nat →
  (∀ j, (i ≤ j < i + n)%nat → returncode j = 0%Z) →
  returncode (i + n)%nat ≠ 0%Z →
  pipeline_loop start_from returncode i remaining
  = (seq i (S n), Some 1%Z).
Proof.
  revert i remaining. induction n as [|n IH]; intros i remaining Hi Hn Hok Hbad.
  - destruct remaining as [|remaining]; [lia|]. simpl.
    destruct (Nat.ltb_spec i start_from) as [Hlt|_]; [lia|].
    rewrite Nat.add_0_r in Hbad. apply Z.eqb_neq in Hbad. by rewrite Hbad.
  - destruct remaining as [|remaining]; [lia|].
    change (pipeline_loop start_from returncode i (S remaining))
      with (if (i <? start_from)%nat then
              pipeline_loop start_from returncode (S i) remaining
            else if (returncode i =? 0)%Z then
              let '(ran, code) :=
                pipeline_loop start_from returncode (S i) remaining
              in (i :: ran, code)
            else ([i], Some 1%Z)).
    destruct (Nat.ltb_spec i start_from) as [Hlt|_]; [lia|].
    rewrite (Hok i) by lia. rewrite Z.eqb_refl.
    rewrite (IH (S i) remaining); [done|lia|lia| |].
    + intros j Hj. apply Hok. lia.
    + by replace (S i + n)%nat with (i + S n)%nat by lia.
Qed.

Lemma pipeline_loop_succeeds (start_from : nat) (returncode : nat → Z)
    (i remaining : nat) :
  (start_from ≤ i)%nat →
  (∀ j, (i ≤ j < i + remaining)%nat → returncode j = 0%Z) →
  pipeline_loop start_from returncode i remaining
  = (seq i remaining, None).
Proof.
  revert i. induction remaining as [|remaining IH]; intros i Hi Hok; [done|].
  change (pipeline_loop start_from returncode i (S remaining))
    with (if (i <? start_from)%nat then
            pipeline_loop start_from returncode (S i) remaining
          else if (returncode i =? 0)%Z then
            let '(ran, code) :=
              pipeline_loop start_from returncode (S i) remaining
            in (i :: ran, code)
          else ([i], Some 1%Z)).
  destruct (Nat.ltb_spec i start_from) as [Hlt|_]; [lia|].
  rewrite (Hok i) by lia. rewrite Z.eqb_refl.
  rewrite (IH (S i)); [done|lia|]. intros j Hj. apply Hok. lia.
Qed.

Lemma pipeline_loop_through (start_from : nat) (returncode : nat → Z)
    (i remaining : nat) :
  (start_from ≤ i)%nat →
  (pipeline_loop start_from returncode i remaining).2 = None →
  ∀ j, (i ≤ j < i + remaining)%nat → returncode j = 0%Z.
Proof.
  revert i. induction remaining as [|remaining IH]; intros i Hi; [lia|].
  change (pipeline_loop start_from returncode i (S remaining))
    with (if (i <? start_from)%nat then
            pipeline_loop start_from returncode (S i) remaining
          else if (returncode i =? 0)%Z then
            let '(ran, code) :=
              pipeline_loop start_from returncode (S i) remaining
            in (i :: ran, code)
          else ([i], Some 1%Z)).
  destruct (Nat.ltb_spec i start_from) as [Hlt|_]; [lia|].
  destruct (Z.eqb_spec (returncode i) 0) as [Hzero|Hbad]; [|done].
  specialize (IH (S i)).
  destruct (pipeline_loop start_from returncode (S i) remaining)
    as [ran code].
  intros Hnone j Hj. destruct (decide (j = i)) as [->|Hne]; [done|].
  apply IH; [lia|done|lia].
Qed.

(** X18.  The pipeline stops at the first failing step.  Started from step
    [start_from], with the steps before step [k] succeeding and step [k]
    exiting with a code other than 0, the pipeline runs the steps
    [start_from] to [k] in order, no step before [start_from] and none
    after [k], and exits with status 1. *)
Theorem run_pipeline_stops_at_first_failure
    (start_from k : nat) (returncode : nat → Z) :
  (1 ≤ start_from)%nat → (start_from ≤ k)%nat → (k ≤ length STEPS)%nat →
  (∀ j, (start_from ≤ j < k)%nat → returncode j = 0%Z) →
  returncode k ≠ 0%Z →
  run_pipeline start_from returncode
  = (seq start_from (S (k - start_from)), Some 1%Z).
Proof.
  intros H1 Hk Hlen Hok Hbad. unfold run_pipeline.
  rewrite pipeline_loop_from by lia.
  apply pipeline_loop_fails; [done|lia| |].
  - intros j Hj. apply Hok. lia.
  - by replace (start_from + (k - start_from))%nat with k by lia.
Qed.

(** X19.  The pipeline runs through.  Started from step [start_from], the
    pipeline reaches its end without exiting exactly when every step
    from [start_from] on exits with code 0; it has then run these steps,
    in order, and no step before [start_from]. *)
Theorem run_pipeline_completes
    (start_from : nat) (returncode : nat → Z) :
  (1 ≤ start_from)%nat → (start_from ≤ length STEPS)%nat →
  ((run_pipeline start_from returncode).2 = None
   ↔ ∀ j, (start_from ≤ j ≤ length STEPS)%nat → returncode j = 0%Z)
  ∧ ((run_pipeline start_from returncode).2 = None →
     (run_pipeline start_from returncode).1
     = seq start_from (S (length STEPS) - start_from)).
Proof.
  intros H1 Hlen.
  assert ((∀ j, (start_from ≤ j ≤ length STEPS)%nat → returncode j = 0%Z) →
          run_pipeline start_from returncode
          = (seq start_from (S (length STEPS) - start_from), None)) as Hall.
  { intros Hok. unfold run_pipeline. rewrite pipeline_loop_from by lia.
    replace (1 + length STEPS - start_from)%nat
      with (S (length STEPS) - start_from)%nat by lia.
    apply pipeline_loop_succeeds; [done|]. intros j Hj. apply Hok. lia. }
  assert ((run_pipeline start_from returncode).2 = None →
          ∀ j, (start_from ≤ j ≤ length STEPS)%nat → returncode j = 0%Z)
    as Hconv.
  { unfold run_pipeline. rewrite pipeline_loop_from by lia.
    intros Hnone j Hj.
    apply (pipeline_loop_through _ _ _ _ (Nat.le_refl _) Hnone). lia. }
  split; [split; [done|]|].
  - intros Hok. by rewrite Hall.
  - intros Hnone. by rewrite Hall by by apply Hconv.
Qed.

(** * Instances of the properties above *)

Lemma make_request_retries_429_instance :
  (2 ≤ 10)%nat
  ∧ make_request (limited_upstream 2 (page [card_X] None)) 10
      (JStr (search_url "a")) (init None)
    = Some (Ret (JObj (page_fields [card_X] None)),
            extend (init None)
                   (replicate 3 (EvRequest (JStr (search_url "a"))))).
Proof.
  split; [lia|].
  apply (make_request_retries_429 (limited_upstream 2 (page [card_X] None))
           10 2 (JStr (search_url "a")) (init None) 200
           (JObj (page_fields [card_X] None))).
  - lia.
  - intros [|[|k]] Hk; [by eexists..|lia].
  - reflexivity.
  - reflexivity.
Defined.

Lemma rate_limited_label_is_skipped_instance :
  ("a" ∉ processed_tags (init None))
  ∧ (1 ≤ 1)%nat
  ∧ process_tag dumps_unused 3 always_limited storage_ok 1 "a" (init None)
    = Some (Ret 0%nat,
            extend (init None)
                   (replicate 4 (EvRequest (JStr (search_url "a"))))).
Proof.
  split; [vm_decide|]. split; [lia|].
  apply (rate_limited_label_is_skipped dumps_unused 3 always_limited
           storage_ok 1 "a" (init None)).
  - vm_decide.
  - intros h. by eexists.
  - lia.
Defined.

Lemma make_request_returns_good_status_instance :
  make_request (serve paged_server) 10 (JStr (search_url "p")) (init None)
  = Some (Ret (JObj (page_fields [obj [("id", JStr "X")]]
                       (Some "https://api.scryfall.com/page2"))),
          extend (init None) [EvRequest (JStr (search_url "p"))])
  ∧ ∃ h status,
      serve paged_server h (JStr (search_url "p"))
      = Response status
          (Some (JObj (page_fields [obj [("id", JStr "X")]]
                         (Some "https://api.scryfall.com/page2"))))
      ∧ status ≠ 429%Z ∧ ¬ (400 ≤ status < 600)%Z.
Proof.
  split; [vm_compute; reflexivity|].
  apply (make_request_returns_good_status (serve paged_server) 10
           (JStr (search_url "p")) (init None)
           (extend (init None) [EvRequest (JStr (search_url "p"))])).
  vm_compute; reflexivity.
Defined.

Lemma page_without_data_is_empty_instance :
  ("a" ∉ processed_tags (init None))
  ∧ no_data_fields !! "data" = None
  ∧ search_tag 10 no_data 1 "a" (init None)
    = Some (Ret [], extend (init None) [EvRequest (JStr (search_url "a"))])
  ∧ ∃ st',
      process_tag dumps_unused 10 no_data storage_ok 1 "a" (init None)
      = Some (Ret 0%nat, st')
      ∧ cards_db st' = cards_db (init None)
      ∧ processed_tags st' = {["a"]} ∪ processed_tags (init None).
Proof.
  split; [vm_decide|]. split; [reflexivity|].
  apply (page_without_data_is_empty dumps_unused 10 no_data storage_ok
           1 "a" (init None) 200 no_data_fields).
  - vm_decide.
  - reflexivity.
  - reflexivity.
  - reflexivity.
  - lia.
Defined.

Lemma search_tag_stops_without_continuation_instance :
  open_page_fields !! "data" = Some (JArr [card_X])
  ∧ truthy (dict_get open_page_fields "has_more")
    && truthy (dict_get open_page_fields "next_page") = false
  ∧ search_tag 10 open_page 5 "a" (init None)
    = Some (Ret [card_X],
            extend (init None) [EvRequest (JStr (search_url "a"))]).
Proof.
  split; [reflexivity|]. split; [reflexivity|].
  apply (search_tag_stops_without_continuation 10 open_page
           5 "a" (init None) 200 open_page_fields [card_X]).
  - reflexivity.
  - reflexivity.
  - reflexivity.
  - reflexivity.
  - lia.
Defined.

Lemma flatten_top_level_fields_instance :
  flatten_card_data dumps_unused plain_card = Ret plain_card
  ∧ plain_card !! "card_faces" = None
  ∧ (∀ k v, k ≠ "card_faces" → plain_card !! k = Some v →
       plain_card !! k = Some (flat_value dumps_unused v)
       ∧ is_nested (flat_value dumps_unused v) = false)
  ∧ (plain_card !! "card_faces" = None →
     plain_card = flat_value dumps_unused <$> plain_card).
Proof.
  split; [vm_compute; reflexivity|].
  apply (flatten_top_level_fields dumps_unused plain_card plain_card).
  vm_compute; reflexivity.
Defined.

Lemma flatten_face_fields_instance :
  two_faced !! "card_faces" = Some (JArr two_faces)
  ∧ flatten_card_data dumps_unused two_faced = Ret two_faced_flat
  ∧ two_faced_flat !! face_key 0 "_name" = Some (JStr "front")
  ∧ two_faced_flat !! face_key 1 "_name" = Some (JStr "").
Proof.
  split; [reflexivity|]. split; [vm_compute; reflexivity|].
  destruct (flatten_face_fields dumps_unused two_faced two_faces
              two_faced_flat) as [Hfaces _].
  - reflexivity.
  - vm_compute; reflexivity.
  - split.
    + rewrite (Hfaces 0%nat (list_to_map [("name", JStr "front")])
                 "_name" "name");
        [vm_compute; reflexivity|reflexivity|apply list_elem_of_here].
    + rewrite (Hfaces 1%nat (list_to_map [("mana_cost", JStr "{1}")])
                 "_name" "name");
        [vm_compute; reflexivity|reflexivity|apply list_elem_of_here].
Defined.

Lemma merge_seq_freezes_records_instance :
  merge_seq dumps_unused three_merges broken_merged = Some broken_then_three
  ∧ ∃ rec',
      broken_then_three !! "X" = Some rec'
      ∧ frozen {[ "id" := JStr "X"; "tags" := JArr [JStr "q"] ]} rec'.
Proof.
  split; [vm_compute; reflexivity|].
  apply (merge_seq_freezes_records dumps_unused three_merges broken_merged
           broken_then_three).
  - vm_compute; reflexivity.
  - reflexivity.
Defined.

Lemma merge_seq_builds_records_instance :
  merge_seq dumps_unused three_merges ∅ = Some three_merged
  ∧ three_merged !! "X" = Some record_X
  ∧ built_from three_merges "X" record_X.
Proof.
  split; [vm_compute; reflexivity|]. split; [vm_compute; reflexivity|].
  apply (merge_seq_builds_records dumps_unused three_merges three_merged).
  - vm_compute; reflexivity.
  - vm_compute; reflexivity.
Defined.

Lemma run_tags_only_grows_instance :
  flaky_run = Some (Ret tt, final_of flaky_run)
  ∧ processed_tags (init None) ⊆ processed_tags (final_of flaky_run)
  ∧ processed_tags (final_of flaky_run)
    ⊆ processed_tags (init None) ∪ list_to_set flaky_tags
  ∧ (∀ i rec, cards_db (init None) !! i = Some rec →
       ∃ rec', cards_db (final_of flaky_run) !! i = Some rec'
               ∧ frozen rec rec')
  ∧ (∀ e, Ret tt = Raise e → e = KeyboardInterrupt).
Proof.
  split; [vm_compute; reflexivity|].
  apply (run_tags_only_grows dumps_unused 10 (serve flaky_server) storage_ok
           5 flaky_tags (init None) (Ret tt) (final_of flaky_run)).
  vm_compute; reflexivity.
Defined.

Lemma completed_run_round_trip_instance :
  scenario_run = Some (Ret tt, final_of scenario_run)
  ∧ cards_db (init (disk (final_of scenario_run)))
    = cards_db (final_of scenario_run)
  ∧ processed_tags (init (disk (final_of scenario_run)))
    = processed_tags (final_of scenario_run).
Proof.
  split; [vm_compute; reflexivity|].
  destruct (completed_run_round_trip dumps_unused 10 (serve scenario_server)
              storage_ok 5 ["flying_benefit"; "removal"] (init None)
              (final_of scenario_run)) as (Hdb & Hproc & _).
  - vm_compute; reflexivity.
  - by split.
Defined.

Lemma load_tags_by_category_instance :
  scenario_tags_file !! "A" = Some ["flying_benefit"]
  ∧ scenario_tags_file !! "B" = Some ["removal"]
  ∧ (∃ categories,
        StronglySorted String.le categories
        ∧ NoDup categories
        ∧ (∀ c, c ∈ categories ↔ is_Some (scenario_tags_file !! c))
        ∧ load_tags scenario_tags_file
          = concat ((λ c, default [] (scenario_tags_file !! c))
                      <$> categories))
  ∧ ∃ before between after,
      load_tags scenario_tags_file
      = before ++ ["flying_benefit"] ++ between ++ ["removal"] ++ after.
Proof.
  split; [reflexivity|]. split; [reflexivity|].
  destruct (load_tags_by_category scenario_tags_file)
    as (Hexact & _ & _ & Horder).
  split; [exact Hexact|].
  apply (Horder "A" "B"); [reflexivity|reflexivity|vm_decide|done].
Defined.

Lemma exported_tags_round_trip_instance :
  record_X !! "tags" = Some (JArr (JStr <$> ["a"; "b"]))
  ∧ ∃ tags_str,
      export_row record_X = Ret (<["tags" := JStr tags_str]> record_X)
      ∧ parse_tags ascii_strip tags_str = ["a"; "b"].
Proof.
  split; [reflexivity|].
  apply (exported_tags_round_trip ascii_strip record_X ["a"; "b"]).
  - reflexivity.
  - repeat constructor; done.
Defined.

Lemma built_records_export_instance :
  merge_seq dumps_unused three_merges ∅ = Some three_merged
  ∧ three_merged !! "X" = Some record_X
  ∧ ∃ row tags_str,
      export_row record_X = Ret row
      ∧ row !! "tags" = Some (JStr tags_str)
      ∧ (∀ k, k ≠ "tags" → row !! k = record_X !! k).
Proof.
  split; [vm_compute; reflexivity|]. split; [vm_compute; reflexivity|].
  apply (built_records_export dumps_unused three_merges three_merged
           "X" record_X).
  - vm_compute; reflexivity.
  - vm_compute; reflexivity.
Defined.

Lemma run_pipeline_stops_at_first_failure_instance :
  fails_at 3 3%nat ≠ 0%Z
  ∧ run_pipeline 2 (fails_at 3) = ([2; 3]%nat, Some 1%Z).
Proof.
  split; [done|].
  apply (run_pipeline_stops_at_first_failure 2 3 (fails_at 3)).
  - lia.
  - lia.
  - simpl; lia.
  - intros j Hj. replace j with 2%nat by lia. reflexivity.
  - done.
Defined.

Lemma run_pipeline_completes_instance :
  (run_pipeline 2 all_succeed).2 = None
  ∧ (run_pipeline 2 all_succeed).1 = [2; 3; 4]%nat.
Proof.
  destruct (run_pipeline_completes 2 all_succeed) as [Hiff Hran].
  - lia.
  - simpl; lia.
  - split; [reflexivity|]. apply Hran. reflexivity.
Defined.
